(** * helper-bkp: canonical normalisation, content identifiers, edge grouping

    A shallow embedding of
      - [helper/data_format.py]  ([data_standardization] and its three
        nested helpers [compare_items], [sort_dict], [sort_list];
        [camel_to_snake], [convert_to_gtin]),
      - [helper/data_id.py]      ([convert_text_to_key], [convert_text_to_uuid],
        [convert_data_to_id]),
      - [helper/utils.py]        ([is_integer], [is_empty], [list_flatten],
        [join_selected_value_in_list_of_dicts], [remove_duplicates_by_key],
        [drop_duplicates_from_list], [find_edges_connections]),
    together with the library routines these functions call
    ([hashlib.sha256], [uuid.uuid3], [str]/[repr], [json.dumps], [sorted],
    [copy.deepcopy], the iteration order of [set], and on ASCII text
    [str.lower], [str.strip], [str.isdigit], [str.zfill] and the
    substitutions of [re]).

    [data_standardization] is given twice: on values, and on a heap of
    objects, where dicts are updated in place and may be shared. *)

From Stdlib Require Import ZArith List Strings.String Strings.Ascii Strings.Byte Bool Lia.
From Stdlib Require Import Permutation Sorted OrdersEx DecimalString DecimalZ DecimalPos.
Import ListNotations.

Local Open Scope Z_scope.

(* ================================================================== *)
(** ** Machine words and hexadecimal rendering *)

Module Word.

Definition w32 (x : Z) : Z := x mod 4294967296.

Definition add32 (x y : Z) : Z := w32 (x + y).

Definition not32 (x : Z) : Z := 4294967295 - w32 x.

Definition shr32 (n x : Z) : Z := Z.shiftr (w32 x) n.

Definition rotr32 (n x : Z) : Z :=
  Z.lor (Z.shiftr (w32 x) n) (w32 (Z.shiftl (w32 x) (32 - n))).

Definition rotl32 (n x : Z) : Z :=
  Z.lor (w32 (Z.shiftl (w32 x) n)) (Z.shiftr (w32 x) (32 - n)).

Definition byte_z (b : byte) : Z := Z.of_N (Byte.to_N b).

(** Big-endian and little-endian bytes of a 32-bit word. *)
Definition be_bytes32 (x : Z) : list Z :=
  [Z.shiftr x 24 mod 256; Z.shiftr x 16 mod 256; Z.shiftr x 8 mod 256; x mod 256].

Definition le_bytes32 (x : Z) : list Z := rev (be_bytes32 x).

Definition be_word32 (bs : list Z) : Z :=
  fold_left (fun acc b => acc * 256 + b) bs 0.

Definition le_word32 (bs : list Z) : Z := be_word32 (rev bs).

Definition be_bytes64 (x : Z) : list Z :=
  (be_bytes32 (Z.shiftr x 32 mod 4294967296) ++ be_bytes32 (x mod 4294967296))%list.

Definition le_bytes64 (x : Z) : list Z := rev (be_bytes64 x).

Definition hex_digit (d : Z) : ascii :=
  match d with
  | 0 => "0" | 1 => "1" | 2 => "2" | 3 => "3" | 4 => "4" | 5 => "5"
  | 6 => "6" | 7 => "7" | 8 => "8" | 9 => "9" | 10 => "a" | 11 => "b"
  | 12 => "c" | 13 => "d" | 14 => "e" | _ => "f"
  end%char.

Definition hex_byte (b : Z) : string :=
  String (hex_digit (b / 16)) (String (hex_digit (b mod 16)) EmptyString).

Definition hex_of_bytes (bs : list Z) : string :=
  fold_right (fun b acc => (hex_byte b ++ acc)%string) EmptyString bs.

(** Cut a list into consecutive chunks of [n] elements ([fuel] bounds the
    number of chunks). *)
Fixpoint chunks {A} (fuel : nat) (n : nat) (l : list A) : list (list A) :=
  match fuel with
  | O => []
  | S f =>
      match l with
      | [] => []
      | _ => firstn n l :: chunks f n (skipn n l)
      end
  end.

End Word.

(* ================================================================== *)
(** ** [hashlib.sha256] (FIPS 180-4) *)

Module Sha256.
Import Word.

Definition K : list Z :=
  ([ 0x428a2f98; 0x71374491; 0xb5c0fbcf; 0xe9b5dba5;
     0x3956c25b; 0x59f111f1; 0x923f82a4; 0xab1c5ed5 ] ++
   [ 0xd807aa98; 0x12835b01; 0x243185be; 0x550c7dc3;
     0x72be5d74; 0x80deb1fe; 0x9bdc06a7; 0xc19bf174 ] ++
   [ 0xe49b69c1; 0xefbe4786; 0x0fc19dc6; 0x240ca1cc;
     0x2de92c6f; 0x4a7484aa; 0x5cb0a9dc; 0x76f988da ] ++
   [ 0x983e5152; 0xa831c66d; 0xb00327c8; 0xbf597fc7;
     0xc6e00bf3; 0xd5a79147; 0x06ca6351; 0x14292967 ] ++
   [ 0x27b70a85; 0x2e1b2138; 0x4d2c6dfc; 0x53380d13;
     0x650a7354; 0x766a0abb; 0x81c2c92e; 0x92722c85 ] ++
   [ 0xa2bfe8a1; 0xa81a664b; 0xc24b8b70; 0xc76c51a3;
     0xd192e819; 0xd6990624; 0xf40e3585; 0x106aa070 ] ++
   [ 0x19a4c116; 0x1e376c08; 0x2748774c; 0x34b0bcb5;
     0x391c0cb3; 0x4ed8aa4a; 0x5b9cca4f; 0x682e6ff3 ] ++
   [ 0x748f82ee; 0x78a5636f; 0x84c87814; 0x8cc70208;
     0x90befffa; 0xa4506ceb; 0xbef9a3f7; 0xc67178f2 ])%list.

Definition H0 : list Z :=
  [ 0x6a09e667; 0xbb67ae85; 0x3c6ef372; 0xa54ff53a;
    0x510e527f; 0x9b05688c; 0x1f83d9ab; 0x5be0cd19 ].

Definition Ch (x y z : Z) := Z.lxor (Z.land x y) (Z.land (not32 x) z).
Definition Maj (x y z : Z) :=
  Z.lxor (Z.lxor (Z.land x y) (Z.land x z)) (Z.land y z).
Definition Sigma0 x := Z.lxor (Z.lxor (rotr32 2 x) (rotr32 13 x)) (rotr32 22 x).
Definition Sigma1 x := Z.lxor (Z.lxor (rotr32 6 x) (rotr32 11 x)) (rotr32 25 x).
Definition sigma0 x := Z.lxor (Z.lxor (rotr32 7 x) (rotr32 18 x)) (shr32 3 x).
Definition sigma1 x := Z.lxor (Z.lxor (rotr32 17 x) (rotr32 19 x)) (shr32 10 x).

(** Message padding: one [0x80] byte, zeros up to 56 mod 64, then the bit
    length as a 64-bit big-endian integer. *)
Definition pad (msg : list Z) : list Z :=
  let n := Z.of_nat (List.length msg) in
  let zeros := Z.to_nat ((55 - n) mod 64) in
  (msg ++ [128] ++ repeat 0 zeros ++ be_bytes64 (8 * n))%list.

(** The message schedule, built in reverse: [ws] holds W[t-1], W[t-2], ... *)
Fixpoint schedule (n : nat) (ws : list Z) : list Z :=
  match n with
  | O => ws
  | S n' =>
      let w :=
        add32 (add32 (sigma1 (nth 1 ws 0)) (nth 6 ws 0))
              (add32 (sigma0 (nth 14 ws 0)) (nth 15 ws 0)) in
      schedule n' (w :: ws)
  end.

Definition block_words (blk : list Z) : list Z :=
  map be_word32 (chunks 16 4 blk).

Definition W (blk : list Z) : list Z :=
  rev (schedule 48 (rev (block_words blk))).

Definition round (st : list Z) (kw : Z * Z) : list Z :=
  match st with
  | [a; b; c; d; e; f; g; h] =>
      let t1 := add32 (add32 (add32 h (Sigma1 e)) (add32 (Ch e f g) (fst kw))) (snd kw) in
      let t2 := add32 (Sigma0 a) (Maj a b c) in
      [add32 t1 t2; a; b; c; add32 d t1; e; f; g]
  | _ => st
  end.

Definition compress (h : list Z) (blk : list Z) : list Z :=
  let st := fold_left round (combine K (W blk)) h in
  map (fun p => add32 (fst p) (snd p)) (combine h st).

Definition digest (msg : list Z) : list Z :=
  let p := pad msg in
  let blocks := chunks (List.length p) 64 p in
  flat_map be_bytes32 (fold_left compress blocks H0).

(** [hashlib.sha256(); update(data); hexdigest()] *)
Definition hexdigest (data : list byte) : string :=
  hex_of_bytes (digest (map byte_z data)).

End Sha256.

(* ================================================================== *)
(** ** [hashlib.md5] (RFC 1321), used by [uuid.uuid3] *)

Module Md5.
Import Word.

Definition T : list Z :=
  [ 0xd76aa478; 0xe8c7b756; 0x242070db; 0xc1bdceee; 0xf57c0faf; 0x4787c62a;
    0xa8304613; 0xfd469501; 0x698098d8; 0x8b44f7af; 0xffff5bb1; 0x895cd7be;
    0x6b901122; 0xfd987193; 0xa679438e; 0x49b40821; 0xf61e2562; 0xc040b340;
    0x265e5a51; 0xe9b6c7aa; 0xd62f105d; 0x02441453; 0xd8a1e681; 0xe7d3fbc8;
    0x21e1cde6; 0xc33707d6; 0xf4d50d87; 0x455a14ed; 0xa9e3e905; 0xfcefa3f8;
    0x676f02d9; 0x8d2a4c8a; 0xfffa3942; 0x8771f681; 0x6d9d6122; 0xfde5380c;
    0xa4beea44; 0x4bdecfa9; 0xf6bb4b60; 0xbebfbc70; 0x289b7ec6; 0xeaa127fa;
    0xd4ef3085; 0x04881d05; 0xd9d4d039; 0xe6db99e5; 0x1fa27cf8; 0xc4ac5665;
    0xf4292244; 0x432aff97; 0xab9423a7; 0xfc93a039; 0x655b59c3; 0x8f0ccc92;
    0xffeff47d; 0x85845dd1; 0x6fa87e4f; 0xfe2ce6e0; 0xa3014314; 0x4e0811a1;
    0xf7537e82; 0xbd3af235; 0x2ad7d2bb; 0xeb86d391 ].

Definition shifts : list Z :=
  [ 7; 12; 17; 22; 7; 12; 17; 22; 7; 12; 17; 22; 7; 12; 17; 22;
    5; 9; 14; 20; 5; 9; 14; 20; 5; 9; 14; 20; 5; 9; 14; 20;
    4; 11; 16; 23; 4; 11; 16; 23; 4; 11; 16; 23; 4; 11; 16; 23;
    6; 10; 15; 21; 6; 10; 15; 21; 6; 10; 15; 21; 6; 10; 15; 21 ].

Definition A0 : list Z := [0x67452301; 0xefcdab89; 0x98badcfe; 0x10325476].

Definition pad (msg : list Z) : list Z :=
  let n := Z.of_nat (List.length msg) in
  let zeros := Z.to_nat ((55 - n) mod 64) in
  (msg ++ [128] ++ repeat 0 zeros ++ le_bytes64 ((8 * n) mod 2 ^ 64))%list.

Definition step (m : list Z) (st : list Z) (i : Z) : list Z :=
  match st with
  | [a; b; c; d] =>
      let fg :=
        if i <? 16 then
          (Z.lor (Z.land b c) (Z.land (not32 b) d), i)
        else if i <? 32 then
          (Z.lor (Z.land d b) (Z.land (not32 d) c), (5 * i + 1) mod 16)
        else if i <? 48 then
          (Z.lxor (Z.lxor b c) d, (3 * i + 5) mod 16)
        else
          (Z.lxor c (Z.lor b (not32 d)), (7 * i) mod 16) in
      let n := Z.to_nat i in
      let f := add32 (add32 (fst fg) a)
                     (add32 (nth n T 0) (nth (Z.to_nat (snd fg)) m 0)) in
      [d; add32 b (rotl32 (nth n shifts 0) f); b; c]
  | _ => st
  end.

Definition compress (h : list Z) (blk : list Z) : list Z :=
  let m := map le_word32 (chunks 16 4 blk) in
  let st := fold_left (step m) (map Z.of_nat (seq 0 64)) h in
  map (fun p => add32 (fst p) (snd p)) (combine h st).

Definition digest (msg : list Z) : list Z :=
  let p := pad msg in
  let blocks := chunks (List.length p) 64 p in
  flat_map le_bytes32 (fold_left compress blocks A0).

End Md5.

(* ================================================================== *)
(** ** [uuid.uuid3] and [uuid.NAMESPACE_X500] (RFC 4122) *)

Module Uuid.
Import Word.

(** [uuid.NAMESPACE_X500 = UUID('6ba7b814-9dad-11d1-80b4-00c04fd430c8')],
    as its sixteen bytes. *)
Definition NAMESPACE_X500 : list Z :=
  [ 0x6b; 0xa7; 0xb8; 0x14; 0x9d; 0xad; 0x11; 0xd1;
    0x80; 0xb4; 0x00; 0xc0; 0x4f; 0xd4; 0x30; 0xc8 ].

(** [UUID(bytes=..., version=v)]: the variant bits become RFC 4122's and
    the version nibble becomes [v]. *)
Definition set_version (v : Z) (bs : list Z) : list Z :=
  match bs with
  | b0 :: b1 :: b2 :: b3 :: b4 :: b5 :: b6 :: b7 :: b8 :: rest =>
      b0 :: b1 :: b2 :: b3 :: b4 :: b5
         :: Z.lor (Z.land b6 0x0f) (Z.shiftl v 4) :: b7
         :: Z.lor (Z.land b8 0x3f) 0x80 :: rest
  | _ => bs
  end.

(** [str(UUID)]: hexadecimal groups of 8-4-4-4-12 digits. *)
Definition to_string (bs : list Z) : string :=
  (hex_of_bytes (firstn 4 bs) ++ "-" ++
   hex_of_bytes (firstn 2 (skipn 4 bs)) ++ "-" ++
   hex_of_bytes (firstn 2 (skipn 6 bs)) ++ "-" ++
   hex_of_bytes (firstn 2 (skipn 8 bs)) ++ "-" ++
   hex_of_bytes (skipn 10 bs))%string.

(** [uuid.uuid3(namespace, name)]: MD5 of the namespace bytes followed by
    the UTF-8 bytes of the name, with version 3. *)
Definition uuid3 (namespace : list Z) (name : list byte) : list Z :=
  set_version 3 (firstn 16 (Md5.digest (namespace ++ map byte_z name)%list)).

End Uuid.

(* ================================================================== *)
(** ** Python values and their textual forms

    Text ([str]) is held as its UTF-8 encoding, one [ascii] per byte:
    comparing two texts byte by byte is then comparing them code point by
    code point, which is what Python's [<] on [str] does, and
    [str.encode('utf-8')] is the list of these bytes.  A [float] is held as
    its [repr] (the only thing this code ever asks of it), a datetime is a
    naive one (no time zone).  A [dict] is the list of its items in
    insertion order, which is the order [str] shows; its keys are texts. *)

Record datetime := mk_datetime
  { year : Z; month : Z; day : Z; hour : Z; minute : Z; second : Z;
    microsecond : Z }.

Inductive value : Type :=
| VNone
| VBool (b : bool)
| VInt (z : Z)
| VFloat (r : string)
| VStr (s : string)
| VBytes (b : list byte)
| VDatetime (d : datetime)
| VList (l : list value)
| VTuple (l : list value)
| VDict (d : list (string * value)).

(** [type(x).__name__] *)
Definition type_name (x : value) : string :=
  match x with
  | VNone => "NoneType"
  | VBool _ => "bool"
  | VInt _ => "int"
  | VFloat _ => "float"
  | VStr _ => "str"
  | VBytes _ => "bytes"
  | VDatetime _ => "datetime"
  | VList _ => "list"
  | VTuple _ => "tuple"
  | VDict _ => "dict"
  end%string.

Module Text.
Local Open Scope string_scope.

Definition ascii_z (c : ascii) : Z := Z.of_N (N_of_ascii c).
Definition z_ascii (z : Z) : ascii := ascii_of_N (Z.to_N z).

(** [str(int)]: decimal digits, with a leading minus sign when negative. *)
Definition dec (z : Z) : string := DecimalString.NilZero.string_of_int (Z.to_int z).

(** [sep.join(parts)] *)
Fixpoint join (sep : string) (parts : list string) : string :=
  match parts with
  | [] => ""
  | [p] => p
  | p :: rest => p ++ sep ++ join sep rest
  end.

Fixpoint contains (c : ascii) (s : string) : bool :=
  match s with
  | EmptyString => false
  | String a s' => Ascii.eqb a c || contains c s'
  end.

Definition hex2 (z : Z) : string := Word.hex_byte z.

(** The double quote character. *)
Definition dquote : ascii := Eval cbv in ascii_of_nat 34.

(** One character of [repr(str)] with quote character [q].  The bytes of a
    character beyond ASCII are copied, as Python copies every printable
    character (the unprintable ones beyond ASCII, which it escapes, are not
    told apart here). *)
Definition repr_char (q : ascii) (c : ascii) : string :=
  let n := ascii_z c in
  if Ascii.eqb c q then String "\" (String c "")
  else if Ascii.eqb c "\" then "\\"
  else if Z.eqb n 9 then "\t"
  else if Z.eqb n 10 then "\n"
  else if Z.eqb n 13 then "\r"
  else if Z.ltb n 32 || Z.eqb n 127 then "\x" ++ hex2 n
  else String c "".

Fixpoint repr_body (q : ascii) (s : string) : string :=
  match s with
  | EmptyString => ""
  | String c s' => repr_char q c ++ repr_body q s'
  end.

(** The quote [repr] chooses: double quotes only when the text has a
    single quote and no double quote. *)
Definition repr_quote (s : string) : ascii :=
  if contains "'" s && negb (contains dquote s) then dquote else "'"%char.

(** [repr(s)] for a [str] *)
Definition repr_str (s : string) : string :=
  let q := repr_quote s in
  String q (repr_body q s ++ String q "").

(** [repr(b)] for [bytes]: as for text, but every byte from 0x80 up is
    escaped. *)
Definition repr_byte (q : ascii) (c : ascii) : string :=
  if Z.leb 128 (ascii_z c) then "\x" ++ hex2 (ascii_z c) else repr_char q c.

Definition repr_bytes (b : list byte) : string :=
  let s := string_of_list_byte b in
  let q := repr_quote s in
  String "b" (String q
    ((fix go (s : string) : string :=
        match s with
        | EmptyString => ""
        | String c s' => repr_byte q c ++ go s'
        end) s ++ String q "")).

(** Zero-padded decimal of width [w]. *)
Definition pad0 (w : nat) (z : Z) : string :=
  let d := dec z in
  string_of_list_ascii (repeat "0"%char (w - String.length d)) ++ d.

(** [str(datetime)] = [isoformat(sep=' ')] of a naive datetime. *)
Definition str_datetime (d : datetime) : string :=
  pad0 4 (year d) ++ "-" ++ pad0 2 (month d) ++ "-" ++ pad0 2 (day d) ++ " " ++
  pad0 2 (hour d) ++ ":" ++ pad0 2 (minute d) ++ ":" ++ pad0 2 (second d) ++
  (if Z.eqb (microsecond d) 0 then "" else "." ++ pad0 6 (microsecond d)).

(** [repr(datetime)]: seconds and microseconds are shown only when needed. *)
Definition repr_datetime (d : datetime) : string :=
  "datetime.datetime(" ++
  join ", " (map dec
    ([year d; month d; day d; hour d; minute d] ++
     (if Z.eqb (microsecond d) 0
      then (if Z.eqb (second d) 0 then [] else [second d])
      else [second d; microsecond d]))%list) ++ ")".

End Text.

(** [repr(x)] *)
Fixpoint py_repr (x : value) : string :=
  match x with
  | VNone => "None"
  | VBool true => "True"
  | VBool false => "False"
  | VInt z => Text.dec z
  | VFloat r => r
  | VStr s => Text.repr_str s
  | VBytes b => Text.repr_bytes b
  | VDatetime d => Text.repr_datetime d
  | VList l => "[" ++ Text.join ", " (map py_repr l) ++ "]"
  | VTuple l =>
      match l with
      | [a] => "(" ++ py_repr a ++ ",)"
      | _ => "(" ++ Text.join ", " (map py_repr l) ++ ")"
      end
  | VDict d =>
      "{" ++ Text.join ", "
               (map (fun kv => Text.repr_str (fst kv) ++ ": " ++ py_repr (snd kv)) d)
          ++ "}"
  end%string.

(** [str(x)]: the text itself for a [str], the ISO form for a datetime,
    and [repr(x)] for everything else. *)
Definition py_str (x : value) : string :=
  match x with
  | VStr s => s
  | VDatetime d => Text.str_datetime d
  | _ => py_repr x
  end.

(* ================================================================== *)
(** ** [helper/data_format.py]: [data_standardization] *)

(** The [defaultdict(lambda: 0)] of [compare_items], as a function of the
    type name: eight entries, and 0 for every other name. *)
Definition type_order (name : string) : Z :=
  if String.eqb name "int" then 1
  else if String.eqb name "str" then 2
  else if String.eqb name "float" then 3
  else if String.eqb name "datetime" then 4
  else if String.eqb name "NoneType" then 5
  else if String.eqb name "bool" then 6
  else if String.eqb name "list" then 7
  else if String.eqb name "dict" then 8
  else 0.

(** [a > b] on [str]: lexicographic by code point. *)
Definition str_gt (a b : string) : bool :=
  match String.compare a b with Gt => true | _ => false end.

Definition compare_items (item1 item2 : value) : Z :=
  let item1_key := py_str item1 in
  let item1_type := type_name item1 in
  let item2_key := py_str item2 in
  let item2_type := type_name item2 in
  if negb (String.eqb item1_key item2_key) then
    (if str_gt item1_key item2_key then 1 else -1)
  else if negb (String.eqb item1_type item2_type) then
    (if type_order item1_type >? type_order item2_type then 1 else -1)
  else 0.

(** [sorted(l, key=functools.cmp_to_key(cmp))].  The key objects compare by
    [cmp(a, b) < 0]; the sort is stable.  Each element in turn is put into
    the sorted prefix behind every element that is not greater than it
    (the binary insertion sort [list.sort] runs on short lists). *)
Section Sorted.
Context {A : Type} (cmp : A -> A -> Z).

Definition key_lt (a b : A) : bool := cmp a b <? 0.

Fixpoint insert (x : A) (l : list A) : list A :=
  match l with
  | [] => [x]
  | y :: l' => if key_lt x y then x :: y :: l' else y :: insert x l'
  end.

Definition sorted (l : list A) : list A :=
  fold_left (fun acc x => insert x acc) l [].
End Sorted.

(** [sort_list] and [sort_dict].  The recursion follows the nesting of the
    data, which [fuel] bounds; [sort_dict] updates its argument in place and
    returns nothing, so here it returns the dict as it is afterwards.

    These are the functions on values: on data held as a tree, in which no
    list, tuple or dict object is reached along two paths.  [Mem.sort_list]
    and [Mem.sort_dict] below are the functions on objects, with the
    in-place update; the two agree on unshared data
    ([data_standardization_refines]) and differ on shared data
    ([shared_dict_reordering_changes_id]). *)
Fixpoint sort_list_fuel (fuel : nat) (d : list value) : value :=
  match fuel with
  | O => VTuple d
  | S n =>
      let d := sorted compare_items d in
      VTuple (map (fun di =>
                     match di with
                     | VList l | VTuple l => sort_list_fuel n l
                     | VDict m => VDict (sort_dict_fuel n m)
                     | _ => di
                     end) d)
  end
with sort_dict_fuel (fuel : nat) (d : list (string * value)) : list (string * value) :=
  match fuel with
  | O => d
  | S n =>
      map (fun kv =>
             match snd kv with
             | VList l | VTuple l => (fst kv, sort_list_fuel n l)
             | VDict m => (fst kv, VDict (sort_dict_fuel n m))
             | _ => kv
             end) d
  end.

(** Nesting depth of a value: the recursion depth the two helpers need. *)
Fixpoint depth (x : value) : nat :=
  match x with
  | VList l | VTuple l => S (fold_right (fun a n => Nat.max (depth a) n) O l)
  | VDict d => S (fold_right (fun kv n => Nat.max (depth (snd kv)) n) O d)
  | _ => O
  end.

Definition sort_list (d : list value) : value :=
  sort_list_fuel (depth (VList d)) d.

Definition sort_dict (d : list (string * value)) : list (string * value) :=
  sort_dict_fuel (depth (VDict d)) d.

(** [json.dumps(x, sort_keys=True, default=str, ensure_ascii=True)] *)
Module Json.
Local Open Scope string_scope.

(** The code points of a UTF-8 byte sequence. *)
Fixpoint utf8_decode (fuel : nat) (bs : list Z) : list Z :=
  match fuel with
  | O => []
  | S n =>
      match bs with
      | [] => []
      | b :: r =>
          let c x := Z.land x 63 in
          if Z.ltb b 128 then b :: utf8_decode n r
          else if Z.ltb b 224 then
            match r with
            | b1 :: r' =>
                (Z.shiftl (Z.land b 31) 6 + c b1) :: utf8_decode n r'
            | _ => [b]
            end
          else if Z.ltb b 240 then
            match r with
            | b1 :: b2 :: r' =>
                (Z.shiftl (Z.land b 15) 12 + Z.shiftl (c b1) 6 + c b2)
                  :: utf8_decode n r'
            | _ => [b]
            end
          else
            match r with
            | b1 :: b2 :: b3 :: r' =>
                (Z.shiftl (Z.land b 7) 18 + Z.shiftl (c b1) 12
                 + Z.shiftl (c b2) 6 + c b3) :: utf8_decode n r'
            | _ => [b]
            end
      end
  end.

Definition u4 (n : Z) : string :=
  "\u" ++ Word.hex_byte (n / 256) ++ Word.hex_byte (n mod 256).

(** One code point of a JSON string with [ensure_ascii]: everything from
    space to tilde is copied, bar the quote and the backslash. *)
Definition escape_cp (n : Z) : string :=
  if Z.eqb n 34 then String "\" (String Text.dquote "")
  else if Z.eqb n 92 then "\\"
  else if Z.eqb n 10 then "\n"
  else if Z.eqb n 13 then "\r"
  else if Z.eqb n 9 then "\t"
  else if Z.eqb n 12 then "\f"
  else if Z.eqb n 8 then "\b"
  else if Z.leb 32 n && Z.leb n 126 then String (Text.z_ascii n) ""
  else if Z.ltb n 65536 then u4 n
  else
    let v := n - 65536 in
    u4 (Z.lor 55296 (Z.land (Z.shiftr v 10) 1023)) ++
    u4 (Z.lor 56320 (Z.land v 1023)).

Definition encode_str (s : string) : string :=
  let bs := map Text.ascii_z (list_ascii_of_string s) in
  String Text.dquote
    (fold_right (fun n acc => escape_cp n ++ acc) (String Text.dquote "")
                (utf8_decode (List.length bs) bs)).

(** [float.__repr__], except for the three values JSON has no syntax for. *)
Definition encode_float (r : string) : string :=
  if String.eqb r "nan" then "NaN"
  else if String.eqb r "inf" then "Infinity"
  else if String.eqb r "-inf" then "-Infinity"
  else r.

Definition key_cmp (a b : string * string) : Z :=
  match String.compare (fst a) (fst b) with Lt => -1 | Eq => 0 | Gt => 1 end.

Fixpoint dumps (x : value) : string :=
  match x with
  | VNone => "null"
  | VBool true => "true"
  | VBool false => "false"
  | VInt z => Text.dec z
  | VFloat r => encode_float r
  | VStr s => encode_str s
  | VBytes _ | VDatetime _ => encode_str (py_str x)
  | VList l | VTuple l => "[" ++ Text.join ", " (map dumps l) ++ "]"
  | VDict d =>
      "{" ++ Text.join ", "
               (map (fun kv => encode_str (fst kv) ++ ": " ++ snd kv)
                    (sorted key_cmp (map (fun kv => (fst kv, dumps (snd kv))) d)))
          ++ "}"
  end.

End Json.

Definition data_standardization (data : value) : value :=
  match data with
  | VList l | VTuple l => VStr (Json.dumps (sort_list l))
  | VDict d => VStr (Json.dumps (VDict (sort_dict d)))
  | _ => data
  end.

(* ================================================================== *)
(** ** [helper/data_id.py] *)

(** [str(uuid.uuid3(uuid.NAMESPACE_X500, input_str))] *)
Definition convert_text_to_uuid (input_str : string) : string :=
  Uuid.to_string (Uuid.uuid3 Uuid.NAMESPACE_X500 (list_byte_of_string input_str)).

(** [s.encode('utf-8')], for a text without lone surrogates (with one,
    the call raises: [WithErrors.encode] below). *)
Definition encode_utf8 (s : string) : list byte := list_byte_of_string s.

(** [convert_data_to_id] from the standardized data on: the bytes to hash,
    the SHA-256 digest, and the identifier the method asks for.  The result
    is [None] for Python's [None]. *)
Definition id_of_standardized (data_std : value) (method : string) : option string :=
  match
    match data_std with
    | VBytes b => Some b
    | VStr s => Some (encode_utf8 s)
    | _ => None
    end
  with
  | None => None
  | Some data_std_b =>
      let hexdigest := Sha256.hexdigest data_std_b in
      if String.eqb method "uuid" then
        Some (convert_text_to_uuid ("sha256=" ++ hexdigest))
      else if String.eqb method "sha256" then
        Some hexdigest
      else None
  end.

(** On values that share nothing, the deep copy of [data] is [data]; the
    copy on a heap of shared objects is in [MemId.convert_data_to_id]
    below. *)
Definition convert_data_to_id (data : value) (method : string) : option string :=
  let data_std := data_standardization data in
  id_of_standardized data_std method.

(** The normalisation as the specification words it, for comparison with
    [sort_list]: "recursively normalize each element using this same
    procedure, then reorder the whole sequence using the Comparator
    Contract"; for a mapping, "recursively normalize every value". *)
Fixpoint spec_normalize (x : value) : value :=
  match x with
  | VList l | VTuple l => VTuple (sorted compare_items (map spec_normalize l))
  | VDict d => VDict (map (fun kv => (fst kv, spec_normalize (snd kv))) d)
  | _ => x
  end.

(** What [compare_items] looks at: the string form and the type name. *)
Definition item_key (x : value) : string * string := (py_str x, type_name x).

(** [compare_items] on these two pieces. *)
Definition cmp_key (k1 k2 : string * string) : Z :=
  if negb (String.eqb (fst k1) (fst k2)) then
    (if str_gt (fst k1) (fst k2) then 1 else -1)
  else if negb (String.eqb (snd k1) (snd k2)) then
    (if type_order (snd k1) >? type_order (snd k2) then 1 else -1)
  else 0.

Definition key_ok (k : string * string) : Prop := exists x, k = item_key x.

(** What the loops of [sort_list] and [sort_dict] leave in the place of an
    element or of a dict value. *)
Definition std_item (di : value) : value :=
  match di with
  | VList l | VTuple l => sort_list l
  | VDict m => VDict (sort_dict m)
  | _ => di
  end.

Definition list_depth (l : list value) : nat :=
  fold_right (fun a n => Nat.max (depth a) n) O l.

Definition dict_depth (d : list (string * value)) : nat :=
  fold_right (fun kv n => Nat.max (depth (snd kv)) n) O d.

(** *** The supported values

    The leaves a container may hold are null, booleans, integers, floats,
    texts and datetimes.  A float's text has the shape of a float [repr]:
    digits, sign, point, exponent, or [inf] / [nan]; it is never the text
    of an integer. *)
Definition float_char (c : ascii) : bool :=
  let n := Text.ascii_z c in
  ((48 <=? n) && (n <=? 57)) ||
  existsb (Ascii.eqb c) ["+"; "-"; "."; "e"; "i"; "n"; "f"; "a"]%char.

Definition float_repr_ok (r : string) : bool :=
  let cs := list_ascii_of_string r in
  forallb float_char cs &&
  existsb (fun c => existsb (Ascii.eqb c) ["."; "e"; "n"]%char) cs.

Fixpoint supported (x : value) : bool :=
  match x with
  | VBytes _ => false
  | VFloat r => float_repr_ok r
  | VList l | VTuple l => forallb supported l
  | VDict d => forallb (fun kv => supported (snd kv)) d
  | _ => true
  end.

(** The JSON text an element of a sequence ends up as. *)
Definition item_out (x : value) : string := Json.dumps (std_item x).

(** *** Reading [repr] back

    One character of a [repr]'d text, read back from its escaped form. *)
Definition unhex (c : ascii) : Z :=
  let n := Text.ascii_z c in if n <? 58 then n - 48 else n - 87.

Definition unrepr_char (t : string) : option (ascii * string) :=
  match t with
  | String "\" (String x rest) =>
      if Ascii.eqb x "t" then Some (Text.z_ascii 9, rest)
      else if Ascii.eqb x "n" then Some (Text.z_ascii 10, rest)
      else if Ascii.eqb x "r" then Some (Text.z_ascii 13, rest)
      else if Ascii.eqb x "x" then
        match rest with
        | String h1 (String h2 rest') =>
            Some (Text.z_ascii (16 * unhex h1 + unhex h2), rest')
        | _ => None
        end
      else Some (x, rest)
  | String c rest => Some (c, rest)
  | EmptyString => None
  end.

(** The characters a [repr] of a number or of a constant is made of: letters,
    digits, sign and point.  What follows an element inside a container (a
    comma or a closing bracket) is none of them. *)
Definition tok (c : ascii) : bool :=
  let n := Text.ascii_z c in
  ((48 <=? n) && (n <=? 57)) || ((65 <=? n) && (n <=? 90)) ||
  ((97 <=? n) && (n <=? 122)) || (n =? 43) || (n =? 45) || (n =? 46).

Definition delim (r : string) : bool :=
  match r with
  | EmptyString => true
  | String c _ => negb (tok c)
  end.

(** The characters of a decimal integer. *)
Definition int_char (c : ascii) : bool :=
  let n := Text.ascii_z c in ((48 <=? n) && (n <=? 57)) || (n =? 45).

Definition all_tok (t : string) : bool := forallb tok (list_ascii_of_string t).

(** The elements of a shown sequence: the first, then each further one
    behind a comma and a space. *)
Section SeqText.
Context {A : Type} (f : A -> string).

Fixpoint seq_rest (l : list A) : string :=
  match l with
  | [] => ""
  | a :: l' => ", " ++ f a ++ seq_rest l'
  end%string.

Definition seq_body (l : list A) : string :=
  match l with
  | [] => ""
  | a :: l' => f a ++ seq_rest l'
  end%string.
End SeqText.

(** The characters that close a container or separate its elements. *)
Definition closer (c : ascii) : bool :=
  existsb (Ascii.eqb c) [","; "]"; ")"; "}"]%char.

(** Induction on values, with the elements of a container as induction
    hypotheses. *)
Section ValueInduction.
Variable P : value -> Prop.
Hypothesis HNone : P VNone.
Hypothesis HBool : forall b, P (VBool b).
Hypothesis HInt : forall z, P (VInt z).
Hypothesis HFloat : forall r, P (VFloat r).
Hypothesis HStr : forall s, P (VStr s).
Hypothesis HBytes : forall b, P (VBytes b).
Hypothesis HDatetime : forall d, P (VDatetime d).
Hypothesis HList : forall l, Forall P l -> P (VList l).
Hypothesis HTuple : forall l, Forall P l -> P (VTuple l).
Hypothesis HDict : forall d, Forall (fun kv => P (snd kv)) d -> P (VDict d).

Fixpoint value_induction (x : value) : P x :=
  match x with
  | VNone => HNone
  | VBool b => HBool b
  | VInt z => HInt z
  | VFloat r => HFloat r
  | VStr s => HStr s
  | VBytes b => HBytes b
  | VDatetime d => HDatetime d
  | VList l =>
      HList l ((fix go (l : list value) : Forall P l :=
                  match l with
                  | [] => Forall_nil P
                  | a :: l' => Forall_cons a (value_induction a) (go l')
                  end) l)
  | VTuple l =>
      HTuple l ((fix go (l : list value) : Forall P l :=
                   match l with
                   | [] => Forall_nil P
                   | a :: l' => Forall_cons a (value_induction a) (go l')
                   end) l)
  | VDict d =>
      HDict d ((fix go (d : list (string * value))
                  : Forall (fun kv => P (snd kv)) d :=
                  match d with
                  | [] => Forall_nil _
                  | kv :: d' => Forall_cons kv (value_induction (snd kv)) (go d')
                  end) d)
  end.
End ValueInduction.

(** The first character of a [repr] tells the kind of value that follows;
    integers and floats share theirs. *)
Definition group (x : value) : nat :=
  match x with
  | VNone => 0 | VBool _ => 1 | VInt _ => 2 | VFloat _ => 2 | VStr _ => 3
  | VDatetime _ => 4 | VList _ => 5 | VTuple _ => 6 | VDict _ => 7
  | VBytes _ => 8
  end%nat.

Definition char_group (h : ascii) : nat :=
  if Ascii.eqb h "N" then 0
  else if Ascii.eqb h "T" || Ascii.eqb h "F" then 1
  else if Ascii.eqb h "d" then 4
  else if float_char h then 2
  else if Ascii.eqb h "'" || Ascii.eqb h Text.dquote then 3
  else if Ascii.eqb h "[" then 5
  else if Ascii.eqb h "(" then 6
  else if Ascii.eqb h "{" then 7
  else 9%nat.

(** The numbers [repr] shows of a datetime. *)
Definition dt_fields (d : datetime) : list Z :=
  ([year d; month d; day d; hour d; minute d] ++
   (if Z.eqb (microsecond d) 0
    then (if Z.eqb (second d) 0 then [] else [second d])
    else [second d; microsecond d]))%list.

(** An item of a shown dict: the key's [repr], a colon, the value's. *)
Definition pair_repr (kv : string * value) : string :=
  (Text.repr_str (fst kv) ++ ": " ++ py_repr (snd kv))%string.

(* ================================================================== *)
(** ** Objects, references and in-place updates

    [sort_dict] assigns into the dict it is given, and the lists, tuples and
    dicts of a Python program are shared by reference.  To tell what a
    caller sees after [data_standardization], containers live in a heap, at
    addresses; a value is a leaf or the address of a container. *)

Module Mem.

Inductive rv : Type :=
| Leaf (v : value)
| Ref (a : nat).

Inductive obj : Type :=
| OList (xs : list rv)
| OTuple (xs : list rv)
| ODict (kvs : list (string * rv)).

Definition heap := list obj.

Definition load (h : heap) (a : nat) : option obj := nth_error h a.

(** A new object gets the next free address. *)
Definition alloc (h : heap) (o : obj) : heap * nat := ((h ++ [o])%list, List.length h).

(** Overwrite the object at [a]. *)
Fixpoint store (h : heap) (a : nat) (o : obj) : heap :=
  match h, a with
  | [], _ => []
  | _ :: h', O => o :: h'
  | x :: h', S a' => x :: store h' a' o
  end.

(** [d[k] = v] for a key that [d] has. *)
Fixpoint setitem (kvs : list (string * rv)) (k : string) (v : rv) : list (string * rv) :=
  match kvs with
  | [] => []
  | (k', v') :: rest =>
      if String.eqb k' k then (k', v) :: rest else (k', v') :: setitem rest k v
  end.

(** [d[k]] *)
Fixpoint getitem (kvs : list (string * rv)) (k : string) : option rv :=
  match kvs with
  | [] => None
  | (k', v') :: rest => if String.eqb k' k then Some v' else getitem rest k
  end.

(** The value a reference stands for, read through the heap. *)
Fixpoint read (fuel : nat) (h : heap) (x : rv) : value :=
  match x with
  | Leaf v => v
  | Ref a =>
      match fuel with
      | O => VNone
      | S n =>
          match load h a with
          | Some (OList xs) => VList (map (read n h) xs)
          | Some (OTuple xs) => VTuple (map (read n h) xs)
          | Some (ODict kvs) => VDict (map (fun kv => (fst kv, read n h (snd kv))) kvs)
          | None => VNone
          end
      end
  end.

(** [isinstance(x, list) or isinstance(x, tuple)], [isinstance(x, dict)] *)
Inductive kind := KSeq (a : nat) | KDict (a : nat) | KOther.

Definition kind_of (h : heap) (x : rv) : kind :=
  match x with
  | Leaf _ => KOther
  | Ref a =>
      match load h a with
      | Some (OList _) | Some (OTuple _) => KSeq a
      | Some (ODict _) => KDict a
      | None => KOther
      end
  end.

(** [sort_list(d)] returns a new tuple; [sort_dict(d)] updates [d].  [fuel]
    stands for the recursion limit. *)
Fixpoint sort_list (fuel : nat) (h : heap) (a : nat) : heap * rv :=
  match fuel with
  | O => (h, Ref a)
  | S n =>
      match load h a with
      | Some (OList xs) | Some (OTuple xs) =>
          let d := sorted (fun x y => compare_items (read fuel h x) (read fuel h y)) xs in
          let '(h1, d1) :=
            fold_left
              (fun (st : heap * list rv) (di : rv) =>
                 let '(h0, acc) := st in
                 match kind_of h0 di with
                 | KSeq b => let '(h', t) := sort_list n h0 b in (h', (acc ++ [t])%list)
                 | KDict b => (sort_dict n h0 b, (acc ++ [di])%list)
                 | KOther => (h0, (acc ++ [di])%list)
                 end) d (h, []) in
          let '(h2, t) := alloc h1 (OTuple d1) in
          (h2, Ref t)
      | _ => (h, Ref a)
      end
  end
with sort_dict (fuel : nat) (h : heap) (a : nat) : heap :=
  match fuel with
  | O => h
  | S n =>
      match load h a with
      | Some (ODict kvs) =>
          fold_left
            (fun (h0 : heap) (k : string) =>
               match load h0 a with
               | Some (ODict cur) =>
                   match getitem cur k with
                   | Some dk =>
                       match kind_of h0 dk with
                       | KSeq b =>
                           let '(h', t) := sort_list n h0 b in
                           match load h' a with
                           | Some (ODict cur') => store h' a (ODict (setitem cur' k t))
                           | _ => h'
                           end
                       | KDict b => sort_dict n h0 b
                       | KOther => h0
                       end
                   | None => h0
                   end
               | _ => h0
               end) (map fst kvs) h
      | _ => h
      end
  end.

Definition data_standardization (fuel : nat) (h : heap) (data : rv) : heap * rv :=
  match kind_of h data with
  | KSeq a =>
      let '(h', t) := sort_list fuel h a in
      (h', Leaf (VStr (Json.dumps (read fuel h' t))))
  | KDict a =>
      let h' := sort_dict fuel h a in
      (h', Leaf (VStr (Json.dumps (read fuel h' data))))
  | KOther => (h, data)
  end.

End Mem.

Module MemId.
Import Mem.

Fixpoint lookup_memo (memo : list (nat * nat)) (a : nat) : option nat :=
  match memo with
  | [] => None
  | (a', b) :: rest => if Nat.eqb a' a then Some b else lookup_memo rest a
  end.

(** Copy the elements of a container one after the other with [copy],
    threading heap and memo. *)
Definition copy_all (copy : heap -> list (nat * nat) -> rv -> heap * list (nat * nat) * rv)
  (st : heap * list (nat * nat) * list rv) (xi : rv)
  : heap * list (nat * nat) * list rv :=
  let '(h0, m0, acc) := st in
  let '(h', m', y) := copy h0 m0 xi in
  (h', m', (acc ++ [y])%list).

(** [copy.deepcopy(x, memo)]: every container reachable from [x] is copied
    to a new object, once (the memo keeps sharing and cycles); leaves are
    returned as they are.  A list or a dict is registered in the memo before
    its elements are copied, a tuple after.  (CPython hands back a tuple
    whose elements all came back unchanged instead of the copy; tuples are
    never updated, so the difference cannot be seen here.) *)
Fixpoint deepcopy (fuel : nat) (h : heap) (memo : list (nat * nat)) (x : rv)
  : heap * list (nat * nat) * rv :=
  match x with
  | Leaf _ => (h, memo, x)
  | Ref a =>
      match lookup_memo memo a with
      | Some b => (h, memo, Ref b)
      | None =>
          match fuel with
          | O => (h, memo, Leaf VNone)
          | S n =>
              match load h a with
              | Some (OList xs) =>
                  let '(h1, b) := alloc h (OList []) in
                  let '(h2, m2, ys) :=
                    fold_left (copy_all (deepcopy n)) xs (h1, (a, b) :: memo, []) in
                  (store h2 b (OList ys), m2, Ref b)
              | Some (OTuple xs) =>
                  let '(h2, m2, ys) :=
                    fold_left (copy_all (deepcopy n)) xs (h, memo, []) in
                  let '(h3, b) := alloc h2 (OTuple ys) in
                  (h3, (a, b) :: m2, Ref b)
              | Some (ODict kvs) =>
                  let '(h1, b) := alloc h (ODict []) in
                  let '(h2, m2, ys) :=
                    fold_left (copy_all (deepcopy n)) (map snd kvs)
                              (h1, (a, b) :: memo, []) in
                  (store h2 b (ODict (combine (map fst kvs) ys)), m2, Ref b)
              | None => (h, memo, Leaf VNone)
              end
          end
      end
  end.

(** [helper.data_id.convert_data_to_id] on the heap: the data is copied,
    the copy is standardized (and updated in place), its text is hashed. *)
Definition convert_data_to_id (fuel : nat) (h : heap) (data : rv) (method : string)
  : heap * option string :=
  let '(h1, _, data_copy) := deepcopy fuel h [] data in
  let '(h2, data_std) := data_standardization fuel h1 data_copy in
  (h2, match data_std with
       | Leaf v => id_of_standardized v method
       | Ref _ => None
       end).

End MemId.

(** *** What a run may touch

    [n0] marks the caller's part of the heap: the addresses below it.
    A value or an object is above the mark when every address in it is; a
    heap is closed above the mark when every object above it is. *)
Module Frame.

Definition rv_ge (n0 : nat) (x : Mem.rv) : Prop :=
  match x with
  | Mem.Ref t => (n0 <= t)%nat
  | Mem.Leaf _ => True
  end.

Definition children (o : Mem.obj) : list Mem.rv :=
  match o with
  | Mem.OList xs | Mem.OTuple xs => xs
  | Mem.ODict kvs => map snd kvs
  end.

Definition obj_ge (n0 : nat) (o : Mem.obj) : Prop := Forall (rv_ge n0) (children o).

Definition closed (n0 : nat) (h : Mem.heap) : Prop :=
  forall b o, (n0 <= b)%nat -> Mem.load h b = Some o -> obj_ge n0 o.

(** The caller's part is as it was, and nothing was freed. *)
Definition frame (n0 : nat) (h h' : Mem.heap) : Prop :=
  (List.length h <= List.length h')%nat /\
  forall b, (b < n0)%nat -> Mem.load h' b = Mem.load h b.

Definition memo_ge (n0 : nat) (memo : list (nat * nat)) : Prop :=
  Forall (fun ab => (n0 <= snd ab)%nat) memo.

End Frame.

Module FrameInv.

(** A heap in which the caller's part ends at [n0] and nothing above the
    mark points below it. *)
Definition good (n0 : nat) (h : Mem.heap) : Prop :=
  (n0 <= List.length h)%nat /\ Frame.closed n0 h.

End FrameInv.

Module Update.

(** What a run of [sort_list] or [sort_dict] may do to the objects there
    were: a list or a tuple stays as it is, a dict stays a dict with its
    keys in their order (its values may be replaced); nothing is freed. *)
Definition kept (o o' : Mem.obj) : Prop :=
  match o with
  | Mem.ODict kvs => exists kvs', o' = Mem.ODict kvs' /\ map fst kvs' = map fst kvs
  | _ => o' = o
  end.

Definition dicts_only (h h' : Mem.heap) : Prop :=
  forall a o, Mem.load h a = Some o ->
    exists o', Mem.load h' a = Some o' /\ kept o o'.

End Update.

(* ================================================================== *)
(** ** [helper/utils.py]: [find_edges_connections]

    A table is the list of its rows, a row the list of its cells, and a
    cell an integer or nothing ([None] / [NaN], the one numeric cell
    [is_empty] accepts).  The value column of the output is float64, which
    holds the integers of magnitude up to 2^53 as they are
    ([float64_exact]); the integers here stand for such values.  The
    vertices of the graph [igraph] builds are numbered in the order of the
    sorted names, so the names stand for them here. *)

Module Edges.

Definition cell := option Z.
Definition row := list cell.

(** The function returns a table of (group_id, value) rows, or raises. *)
Inductive result : Type :=
| Table (rows : list (Z * Z))
| TypeError.

Definition zcmp (a b : Z) : Z := if a <? b then -1 else if b <? a then 1 else 0.

(** [sorted(l)] on numbers *)
Definition sort_values (l : list Z) : list Z := sorted zcmp l.

Definition mem (x : Z) (l : list Z) : bool := existsb (Z.eqb x) l.

(** Duplicates dropped, first occurrences kept. *)
Fixpoint drop_seen {A} (eqb : A -> A -> bool) (seen l : list A) : list A :=
  match l with
  | [] => []
  | x :: r =>
      if existsb (eqb x) seen then drop_seen eqb seen r
      else x :: drop_seen eqb (x :: seen) r
  end.

Definition drop_duplicates {A} (eqb : A -> A -> bool) (l : list A) : list A :=
  drop_seen eqb [] l.

Definition pair_eqb (p q : Z * Z) : bool := (fst p =? fst q) && (snd p =? snd q).

(** [sorted(set(l))] *)
Definition sorted_set (l : list Z) : list Z := sort_values (drop_duplicates Z.eqb l).

(** [df.dropna(how='all')] *)
Definition dropna_all (df : list row) : list row :=
  filter (fun r => existsb (fun c => match c with Some _ => true | None => false end) r) df.

(** [[x for x in row if not is_empty(x)]] *)
Definition present (r : row) : list Z :=
  flat_map (fun c => match c with Some x => [x] | None => [] end) r.

(** [list(itertools.combinations(e, 2))] *)
Fixpoint combinations2 (e : list Z) : list (Z * Z) :=
  match e with
  | [] => []
  | x :: r => (map (pair x) r ++ combinations2 r)%list
  end.

(** *** [Graph.components]: the connected components, numbered in the order
    of their smallest vertex, each listing its vertices in vertex order. *)

(** [v] has an edge to a vertex of [S]. *)
Definition adjacent (edges : list (Z * Z)) (S : list Z) (v : Z) : bool :=
  existsb (fun e => (mem (fst e) S && (v =? snd e)) || (mem (snd e) S && (v =? fst e)))
          edges.

Definition grow (vertices : list Z) (edges : list (Z * Z)) (S : list Z) : list Z :=
  filter (fun v => mem v S || adjacent edges S v) vertices.

Fixpoint closure (n : nat) (vertices : list Z) (edges : list (Z * Z)) (S : list Z) : list Z :=
  match n with
  | O => S
  | S n' => closure n' vertices edges (grow vertices edges S)
  end.

Definition cluster (vertices : list Z) (edges : list (Z * Z)) (v : Z) : list Z :=
  closure (List.length vertices) vertices edges [v].

Definition components (vertices : list Z) (edges : list (Z * Z)) : list (list Z) :=
  fold_left
    (fun cs v => if existsb (mem v) cs then cs else (cs ++ [cluster vertices edges v])%list)
    vertices [].

(** [itemgetter] of the ids of a component, applied to the names: a tuple
    of names, but the bare name when there is one id only, and a number
    cannot be iterated over. *)
Definition names_of (comp : list Z) : option (list Z) :=
  match comp with
  | [_] => None
  | _ => Some comp
  end.

(** The rows [{'group_id': i, 'value': x}] of all components, [i] counting
    from [i0]. *)
Fixpoint connection_rows (i0 : Z) (cs : list (list Z)) : option (list (Z * Z)) :=
  match cs with
  | [] => Some []
  | comp :: rest =>
      match names_of comp, connection_rows (i0 + 1) rest with
      | Some xs, Some rows => Some (map (pair i0) xs ++ rows)%list
      | _, _ => None
      end
  end.

(** [{'group_id': range(i0, i0 + len(l)), 'value': l}] *)
Fixpoint number_from (i0 : Z) (l : list Z) : list (Z * Z) :=
  match l with
  | [] => []
  | x :: r => (i0, x) :: number_from (i0 + 1) r
  end.

Section FindEdgesConnections.

(** [list(s)] for a set [s]: the order in which a set is iterated is the
    interpreter's business; [set_order l] is that order for the set of the
    elements of [l]. *)
Variable set_order : list Z -> list Z.

Definition find_edges_connections (df : list row) : result :=
  let df := dropna_all df in
  let edges_sets := map (fun r => sort_values (present r)) df in
  let edges_s := filter (fun e => Nat.eqb (List.length e) 1) edges_sets in
  let edges_s := sorted_set (List.concat edges_s) in
  let edges_c := map combinations2
                     (filter (fun e => Nat.ltb 1 (List.length e)) edges_sets) in
  let edges_c := List.concat edges_c in
  let vertices := sorted_set (flat_map (fun e => [fst e; snd e]) edges_c) in
  let edges := drop_duplicates pair_eqb edges_c in
  match edges with
  | [] => Table (number_from 0 edges_s)
  | _ =>
      let c := components vertices edges in
      match connection_rows 0 c with
      | None => TypeError
      | Some connections =>
          let edges_s :=
            set_order (filter (fun s => negb (mem s (map snd connections))) edges_s) in
          let next := Z.of_nat (List.length c) in
          Table (connections ++ number_from next edges_s)%list
      end
  end.

End FindEdgesConnections.

Definition rows_of (r : result) : list (Z * Z) :=
  match r with
  | Table rows => rows
  | TypeError => []
  end.

(** The rows (1, 2), (2, 3), (4, None), (5, None). *)
Definition scenario_rows : list row :=
  [[Some 1; Some 2]; [Some 2; Some 3]; [Some 4; None]; [Some 5; None]].

End Edges.

Module EdgesGraph.

(** The pairs [find_edges_connections] makes of a table (its [edges_c]),
    and the graph it hands to [igraph]. *)
Definition pairs_of (df : list Edges.row) : list (Z * Z) :=
  List.concat
    (map Edges.combinations2
       (filter (fun e => Nat.ltb 1 (List.length e))
          (map (fun r => Edges.sort_values (Edges.present r)) (Edges.dropna_all df)))).

Definition vertices_of (df : list Edges.row) : list Z :=
  Edges.sorted_set (flat_map (fun e => [fst e; snd e]) (pairs_of df)).

Definition edges_of (df : list Edges.row) : list (Z * Z) :=
  Edges.drop_duplicates Edges.pair_eqb (pairs_of df).

End EdgesGraph.

(* ================================================================== *)
(** ** Vocabulary of the properties *)

(** The eight type names the comparator ranks. *)
Definition ranked_names : list string :=
  ["int"; "str"; "float"; "datetime"; "NoneType"; "bool"; "list"; "dict"]%string.



(** An element can be read back from the front of a text: what [f] shows
    of [a], followed by a delimiter, is shown of no other element. *)
Definition elem_inj {A : Type} (f : A -> string) (Q : A -> Prop) (a : A) : Prop :=
  forall b r r', Q b -> delim r = true -> delim r' = true ->
    (f a ++ r = f b ++ r')%string -> a = b /\ r = r'.

Definition repr_inj_at (x : value) : Prop :=
  supported x = true -> elem_inj py_repr (fun y => supported y = true) x.

Definition copy_ok (n0 : nat) (h : Mem.heap)
  (r : Mem.heap * list (nat * nat) * Mem.rv) : Prop :=
  Frame.frame n0 h (fst (fst r)) /\ FrameInv.good n0 (fst (fst r)) /\
  Frame.memo_ge n0 (snd (fst r)) /\ Frame.rv_ge n0 (snd r).

Definition copies_ok (n0 : nat) (h : Mem.heap)
  (st : Mem.heap * list (nat * nat) * list Mem.rv) : Prop :=
  Frame.frame n0 h (fst (fst st)) /\ FrameInv.good n0 (fst (fst st)) /\
  Frame.memo_ge n0 (snd (fst st)) /\ Forall (Frame.rv_ge n0) (snd st).

(* ================================================================== *)
(** ** [helper/utils.py]: the small helpers

    The text these helpers look at is ASCII: beyond it [str.lower],
    [str.isdigit], [str.strip] and the classes [\d] and [\s] of [re] follow
    the interpreter's Unicode tables.  [Chars.is_ascii] says that a text
    stays within ASCII. *)

Module Chars.

Definition code (c : ascii) : Z := Text.ascii_z c.

Definition is_ascii_char (c : ascii) : bool := code c <? 128.
Definition is_upper (c : ascii) : bool := (65 <=? code c) && (code c <=? 90).
Definition is_lower (c : ascii) : bool := (97 <=? code c) && (code c <=? 122).
Definition is_digit (c : ascii) : bool := (48 <=? code c) && (code c <=? 57).

(** The ASCII characters [str.isspace] accepts, which are those [\s]
    matches and [str.strip] removes: tab to carriage return, the four
    separators 0x1c to 0x1f, and the space. *)
Definition is_space (c : ascii) : bool :=
  ((9 <=? code c) && (code c <=? 13)) || ((28 <=? code c) && (code c <=? 32)).

Definition lower_char (c : ascii) : ascii :=
  if is_upper c then Text.z_ascii (code c + 32) else c.

Fixpoint all_chars (p : ascii -> bool) (s : string) : bool :=
  match s with
  | EmptyString => true
  | String c s' => p c && all_chars p s'
  end.

Fixpoint keep (p : ascii -> bool) (s : string) : string :=
  match s with
  | EmptyString => EmptyString
  | String c s' => if p c then String c (keep p s') else keep p s'
  end.

Fixpoint map_chars (f : ascii -> ascii) (s : string) : string :=
  match s with
  | EmptyString => EmptyString
  | String c s' => String (f c) (map_chars f s')
  end.

Definition is_ascii (s : string) : bool := all_chars is_ascii_char s.

(** [s.lower()] *)
Definition lower (s : string) : string := map_chars lower_char s.

(** [s.isdigit()] *)
Definition isdigit (s : string) : bool :=
  match s with
  | EmptyString => false
  | _ => all_chars is_digit s
  end.

(** [s.lstrip(c)] for a one-character [c] *)
Fixpoint lstrip_char (c : ascii) (s : string) : string :=
  match s with
  | EmptyString => EmptyString
  | String a s' => if Ascii.eqb a c then lstrip_char c s' else s
  end.

(** [int(d)] for a digit [d] *)
Definition int_of_digit (d : ascii) : Z := code d - 48.

End Chars.

Module Utils.

(** [isinstance(value, int)] holds of a [bool] too. *)
Definition is_integer (value : value) : bool :=
  match value with
  | VInt _ | VBool _ => true
  | VStr s => Chars.isdigit (Chars.lstrip_char "-" s)
  | _ => false
  end.

Definition default_empty_values : list string :=
  [""; "brak"; "brakdanych"; "brakwartosci"; "bd";
   "none"; "null"; "nan"; "nat";
   "empty"; "missing"; "na"; "novalue"; "notapplicable"]%string.

(** [re.sub(r'[^a-z\d]+', '', s)] *)
Definition sub_non_alnum (s : string) : string :=
  Chars.keep (fun c => Chars.is_lower c || Chars.is_digit c) s.

(** [list_to_flatten] is a list of lists. *)
Definition list_flatten {A : Type} (list_to_flatten : list (list A)) : list A :=
  flat_map (fun s => s) list_to_flatten.

(** [d[key]] and [d.get(key, default)] on the items of a dict *)
Fixpoint lookup {V : Type} (d : list (string * V)) (key : string) : option V :=
  match d with
  | [] => None
  | (k, v) :: r => if String.eqb k key then Some v else lookup r key
  end.

Definition get {V : Type} (d : list (string * V)) (key : string) (default : V) : V :=
  match lookup d key with
  | Some v => v
  | None => default
  end.

Section Equality.

(** The elements are of a type [A] on which [==] is [eqb]. *)
Context {A : Type} (eqb : A -> A -> bool).

(** [x in l] *)
Definition contains (l : list A) (x : A) : bool := existsb (fun y => eqb y x) l.

Definition drop_duplicates_from_list (elements : list A) : list A :=
  fold_left
    (fun elements_temp i =>
       if negb (contains elements_temp i) then (elements_temp ++ [i])%list
       else elements_temp)
    elements [].

End Equality.

(** What a call of [remove_duplicates_by_key] comes to: the list returned,
    or the exception raised. *)
Inductive deduplicated (A : Type) : Type :=
| Returned (dict_list : list (list (string * A)))
| KeyError
| TypeError.

Arguments Returned {A} dict_list.
Arguments KeyError {A}.
Arguments TypeError {A}.

Section ByKey.

(** The values the dicts hold under the key are objects of a type [A], on
    which [==] is [eqb] and [hashable] says which of them have a hash (a
    list or a dict has none).  Python's set objects are not among them:
    the membership test of a set looks a set up as a frozenset. *)
Context {A : Type} (eqb : A -> A -> bool) (hashable : A -> bool).

(** The comprehension of [remove_duplicates_by_key], from the dict it has
    reached on, with the ids seen so far.  [d[key]] raises [KeyError] when
    the key is missing, and the membership test of the set [seen_ids]
    raises [TypeError] when the value has no hash. *)
Fixpoint remove_duplicates_from (seen_ids : list A) (dict_list : list (list (string * A)))
    (key : string) : deduplicated A :=
  match dict_list with
  | [] => Returned []
  | d :: rest =>
      match lookup d key with
      | None => KeyError
      | Some id =>
          if negb (hashable id) then TypeError
          else if negb (contains eqb seen_ids id) then
            match remove_duplicates_from (id :: seen_ids) rest key with
            | Returned out => Returned (d :: out)
            | raised => raised
            end
          else remove_duplicates_from seen_ids rest key
      end
  end.

Definition remove_duplicates_by_key (dict_list : list (list (string * A))) (key : string)
    : deduplicated A :=
  remove_duplicates_from [] dict_list key.

End ByKey.

Section Diacritics.

(** [helper.data_format.remove_diacritics], which goes through the
    interpreter's Unicode tables ([unicodedata]). *)
Variable remove_diacritics : string -> string.

Definition is_empty (value : value) (fast_check : bool)
    (list_of_empty_values : option (list string)) : bool :=
  let list_of_empty_values :=
    match list_of_empty_values with
    | None => default_empty_values
    | Some l => l
    end in
  let value2 := Chars.lower (py_str value) in
  let value2 := if negb fast_check then remove_diacritics value2 else value2 in
  let value2 := sub_non_alnum value2 in
  existsb (String.eqb value2) list_of_empty_values.

Definition join_selected_value_in_list_of_dicts
    (list_of_dicts : list (list (string * value))) (key : string) (sep : string) : string :=
  Text.join sep
    (map (fun x => py_str (get x key (VStr "")))
       (filter (fun x => negb (is_empty (get x key (VStr "")) true None)) list_of_dicts)).

End Diacritics.

End Utils.

(* ================================================================== *)
(** ** [helper/data_format.py]: [convert_to_gtin] *)

Module Gtin.

(** What a call comes to: the code returned, [None] returned, or the
    exception raised. *)
Inductive outcome : Type :=
| Code (code : string)
| NoCode
| AttributeError
| IndexError.

Fixpoint skip (n : nat) (s : string) : string :=
  match n, s with
  | O, _ => s
  | S n', String _ s' => skip n' s'
  | S _, EmptyString => EmptyString
  end.

(** [s[start:]] *)
Definition slice_from (start : Z) (s : string) : string :=
  let len := Z.of_nat (String.length s) in
  let start := if start <? 0 then Z.max 0 (len + start) else Z.min start len in
  skip (Z.to_nat start) s.

Definition zeros (n : nat) : string := string_of_list_ascii (repeat "0"%char n).

(** [s.zfill(width)]: zeros on the left, behind a leading sign. *)
Definition zfill (width : Z) (s : string) : string :=
  let fill := Z.to_nat (width - Z.of_nat (String.length s)) in
  match s with
  | String c s' =>
      if Ascii.eqb c "+" || Ascii.eqb c "-" then String c (zeros fill ++ s')
      else (zeros fill ++ s)%string
  | EmptyString => zeros fill
  end.

(** [s[:-1]] and [s[-1]]; the latter is missing on the empty text. *)
Fixpoint but_last (s : string) : string :=
  match s with
  | EmptyString => EmptyString
  | String c EmptyString => EmptyString
  | String c s' => String c (but_last s')
  end.

Fixpoint last_char (s : string) : option ascii :=
  match s with
  | EmptyString => None
  | String c EmptyString => Some c
  | String c s' => last_char s'
  end.

(** [sum(int(digit) * (3 if i % 2 == 0 else 1) for i, digit in
    enumerate(digits))], [i] counting from [i0]. *)
Fixpoint weighted_sum (i0 : nat) (digits : list ascii) : Z :=
  match digits with
  | [] => 0
  | digit :: r =>
      Chars.int_of_digit digit * (if Nat.even i0 then 3 else 1) + weighted_sum (S i0) r
  end.

Section Diacritics.

Variable remove_diacritics : string -> string.

Definition convert_to_gtin (code : option string) (gtin_length : Z) : outcome :=
  match code with
  | None =>
      if Utils.is_empty remove_diacritics VNone true None then NoCode else AttributeError
  | Some code =>
      if Utils.is_empty remove_diacritics (VStr code) true None
         || negb (Chars.isdigit code)
         || Nat.ltb 14 (String.length code) || Nat.ltb (String.length code) 8
      then NoCode
      else
        let code := slice_from (- gtin_length) code in
        let code := zfill gtin_length code in
        let checksum := weighted_sum 0 (rev (list_ascii_of_string (but_last code))) in
        let checksum := (10 - (checksum mod 10)) mod 10 in
        match last_char code with
        | None => IndexError
        | Some c => if negb (Chars.int_of_digit c =? checksum) then NoCode else Code code
        end
  end.

End Diacritics.

End Gtin.

(* ================================================================== *)
(** ** [helper/data_format.py]: [camel_to_snake] *)

Module Snake.

Definition underscore : ascii := "_"%char.

Definition newline : ascii := Eval cbv in ascii_of_nat 10.

(** [re.sub('(.)([A-Z][a-z]+)', r'\1_\2', s)], read from the left.  A
    match is one character other than a newline, an upper-case letter and
    the longest run of lower-case letters behind it, one at least; the
    search goes on behind the match.  [in_run] says that the text read so
    far ends inside the run of a match, whose letters are copied. *)
Fixpoint sub_word (in_run : bool) (s : string) : string :=
  match s with
  | EmptyString => EmptyString
  | String c s' =>
      if in_run && Chars.is_lower c then String c (sub_word true s')
      else
        match s' with
        | String u (String l s'') =>
            if negb (Ascii.eqb c newline) && Chars.is_upper u && Chars.is_lower l
            then String c (String underscore (String u (String l (sub_word true s''))))
            else String c (sub_word false s')
        | _ => String c (sub_word false s')
        end
  end.

(** [re.sub('([a-z0-9])([A-Z])', r'\1_\2', s)] *)
Fixpoint sub_hump (s : string) : string :=
  match s with
  | EmptyString => EmptyString
  | String c s' =>
      match s' with
      | String u s'' =>
          if (Chars.is_lower c || Chars.is_digit c) && Chars.is_upper u
          then String c (String underscore (String u (sub_hump s'')))
          else String c (sub_hump s')
      | EmptyString => String c EmptyString
      end
  end.

Definition camel_to_snake (name : string) : string :=
  let s := sub_word false name in
  Chars.lower (sub_hump s).

End Snake.

(* ================================================================== *)
(** ** [helper/data_id.py]: [convert_text_to_key] *)

Module Key.

Inductive outcome : Type :=
| Key (key : string)
| NoKey
| AttributeError.

(** [re.sub(p+, r, s)] for a class [p] of characters and a one-character
    [r]: every longest run of characters of the class becomes one [r]. *)
Fixpoint sub_runs (p : ascii -> bool) (r : ascii) (in_run : bool) (s : string) : string :=
  match s with
  | EmptyString => EmptyString
  | String c s' =>
      if p c then (if in_run then sub_runs p r true s' else String r (sub_runs p r true s'))
      else String c (sub_runs p r false s')
  end.

Fixpoint lstrip (s : string) : string :=
  match s with
  | EmptyString => EmptyString
  | String c s' => if Chars.is_space c then lstrip s' else s
  end.

Fixpoint rstrip (s : string) : string :=
  match s with
  | EmptyString => EmptyString
  | String c s' =>
      match rstrip s' with
      | EmptyString => if Chars.is_space c then EmptyString else String c EmptyString
      | t => String c t
      end
  end.

(** [s.strip()] *)
Definition strip (s : string) : string := rstrip (lstrip s).

Definition is_key_char (c : ascii) : bool :=
  Chars.is_lower c || Chars.is_digit c || Chars.is_space c.

Section Diacritics.

Variable remove_diacritics : string -> string.

Definition convert_text_to_key (input_str : option string) : outcome :=
  match input_str with
  | None =>
      if Utils.is_empty remove_diacritics VNone true None then NoKey else AttributeError
  | Some input_str =>
      if Utils.is_empty remove_diacritics (VStr input_str) true None then NoKey
      else
        let output_str := remove_diacritics input_str in
        let output_str :=
          sub_runs (fun c => negb (is_key_char c)) " " false
            (strip (Chars.lower output_str)) in
        let output_str := sub_runs Chars.is_space Snake.underscore false (strip output_str) in
        Key output_str
  end.

End Diacritics.

End Key.

(** [n] minus signs *)
Definition minus_signs (n : nat) : string := string_of_list_ascii (repeat "-"%char n).

(** A letter or a digit of ASCII. *)
Definition is_alnum (c : ascii) : bool :=
  Chars.is_upper c || Chars.is_lower c || Chars.is_digit c.

(** The digits of a GTIN weighted 1, 3, 1, 3, ... from the last one on:
    [alternating w digits] weighs the first of [digits] with [w]. *)
Fixpoint alternating (w : Z) (digits : list ascii) : Z :=
  match digits with
  | [] => 0
  | d :: r => Chars.int_of_digit d * w + alternating (4 - w) r
  end.

Definition gtin_total (code : string) : Z :=
  alternating 1 (rev (list_ascii_of_string code)).

(** What [convert_to_gtin] does with the padded code. *)
Definition gtin_check (code : string) : Gtin.outcome :=
  match Gtin.last_char code with
  | None => Gtin.IndexError
  | Some c =>
      if negb (Chars.int_of_digit c =?
               (10 - (Gtin.weighted_sum 0 (rev (list_ascii_of_string (Gtin.but_last code)))
                      mod 10)) mod 10)
      then Gtin.NoCode else Gtin.Code code
  end.

(** The guards of [convert_to_gtin] let a text through. *)
Definition gtin_input (code : string) : bool :=
  Chars.isdigit code && Nat.leb 8 (String.length code) && Nat.leb (String.length code) 14.

(** No upper-case letter of ASCII in a text. *)
Definition no_upper (s : string) : bool :=
  Chars.all_chars (fun c => negb (Chars.is_upper c)) s.

Definition not_underscore (c : ascii) : bool := negb (Ascii.eqb c Snake.underscore).

(** The code handed to [convert_to_gtin], or the text handed to
    [convert_text_to_key], is [None] or ASCII text. *)
Definition ascii_or_none (code : option string) : bool :=
  match code with
  | Some s => Chars.is_ascii s
  | None => true
  end.

(** The characters of a key: lower-case letters, digits and the
    underscore. *)
Definition is_out_char (c : ascii) : bool :=
  Chars.is_lower c || Chars.is_digit c || Ascii.eqb c Snake.underscore.

Definition starts_with (c : ascii) (s : string) : bool :=
  match s with
  | String a _ => Ascii.eqb a c
  | EmptyString => false
  end.

Definition ends_with (c : ascii) (s : string) : bool :=
  match Gtin.last_char s with
  | Some a => Ascii.eqb a c
  | None => false
  end.

(** Two [c] in a row somewhere in a text. *)
Fixpoint has_double (c : ascii) (s : string) : bool :=
  match s with
  | EmptyString => false
  | String a s' => (Ascii.eqb a c && starts_with c s') || has_double c s'
  end.

(** A lower-case hexadecimal digit. *)
Definition is_hex (c : ascii) : bool :=
  Chars.is_digit c || ((97 <=? Chars.code c) && (Chars.code c <=? 102)).

(** A chain of edges leads from one vertex to another. *)
Inductive connected (V : list Z) (E : list (Z * Z)) : Z -> Z -> Prop :=
| connected_refl v : connected V E v v
| connected_step u v w :
    connected V E u v -> In w V -> In (v, w) E \/ In (w, v) E -> connected V E u w.

(** Two values are linked in a table when a chain of rows leads from one
    to the other, each row holding two neighbours of the chain. *)
Inductive linked (df : list Edges.row) : Z -> Z -> Prop :=
| linked_refl x : linked df x x
| linked_step x y z :
    linked df x y ->
    (exists r, In r df /\ In (Some y) r /\ In (Some z) r) ->
    linked df x z.

(** A key with a space for each underscore: what the first substitution
    of [convert_text_to_key] makes of a key. *)
Definition underscore_to_space (c : ascii) : ascii :=
  if Ascii.eqb c Snake.underscore then " "%char else c.

(** The integers a float64 holds exactly: when the values of the output
    are made floats, as [pd.concat] with an empty frame of singletons makes
    them, these are not changed. *)
Definition float64_exact (x : Z) : bool := Z.abs x <=? 2 ^ 53.

Definition exact_table (df : list Edges.row) : Prop :=
  forall r x, In r df -> In (Some x) r -> float64_exact x = true.

(* ================================================================== *)
(** ** [helper/data_id.py]: [convert_data_to_id] and the text it cannot encode

    A [str] may hold a lone surrogate (U+D800 to U+DFFF), which UTF-8 has
    no encoding for.  Such a code point is held here as the three bytes
    0xED, 0xA0-0xBF, 0x80-0xBF of the generalised form; in the encoding of
    every other character the byte 0xED is followed by a byte below 0xA0,
    and the order of the bytes is still the order of the code points. *)

Module WithErrors.

Fixpoint has_surrogate (s : string) : bool :=
  match s with
  | String c s' =>
      match s' with
      | String c' _ =>
          ((Text.ascii_z c =? 237) && (160 <=? Text.ascii_z c')) || has_surrogate s'
      | EmptyString => false
      end
  | EmptyString => false
  end.

(** [s.encode('utf-8')]; [None] is its [UnicodeEncodeError]. *)
Definition encode (s : string) : option (list byte) :=
  if has_surrogate s then None else Some (encode_utf8 s).

(** What a call of [convert_data_to_id] comes to. *)
Inductive outcome : Type :=
| Identifier (id : string)
| Absent
| UnicodeEncodeError.

Definition convert_data_to_id (data : value) (method : string) : outcome :=
  let data_std := data_standardization data in
  match
    match data_std with
    | VBytes b => Some (Some b)
    | VStr s => Some (encode s)
    | _ => None
    end
  with
  | None => Absent
  | Some None => UnicodeEncodeError
  | Some (Some data_std_b) =>
      let hexdigest := Sha256.hexdigest data_std_b in
      if String.eqb method "uuid" then
        Identifier (convert_text_to_uuid ("sha256=" ++ hexdigest))
      else if String.eqb method "sha256" then
        Identifier hexdigest
      else Absent
  end.

End WithErrors.



(* ================================================================== *)
(** ** CPython's [set] of numbers: the order of [list(set(a) - set(b))]

    A set is an open-addressing hash table ([Objects/setobject.c]): a
    power of two of slots, 8 at first, each unused, a dummy left by a
    removal, or holding a key.  A key is looked for from the slot
    [hash & mask] on, in runs of up to ten neighbouring slots (one slot
    when the run would pass the end of the table), the runs starting at
    [i = 5 i + 1 + perturb], with [perturb], the hash at first, shifted
    right by 5 before each.  [fuel] bounds the number of runs. *)

Module PySet.

Inductive slot : Type :=
| Unused
| Dummy
| Key (x : Z).

Record set := mk_set { table : list slot; fill : Z; used : Z }.

Definition mask (so : set) : Z := Z.of_nat (List.length (table so)) - 1.

(** [hash(x)] for an [int], and for a [float] that is a whole number. *)
Definition hash (x : Z) : Z :=
  let h := Z.sgn x * (Z.abs x mod (2 ^ 61 - 1)) in
  if h =? -1 then -2 else h.

Definition PySet_MINSIZE : Z := 8.
Definition LINEAR_PROBES : Z := 9.
Definition PERTURB_SHIFT : Z := 5.

Definition empty : set := mk_set (repeat Unused 8) 0 0.

Definition slot_at (t : list slot) (i : Z) : slot := nth (Z.to_nat i) t Unused.

Fixpoint put (t : list slot) (i : nat) (s : slot) : list slot :=
  match t, i with
  | [], _ => []
  | _ :: t', O => s :: t'
  | x :: t', S i' => x :: put t' i' s
  end.

(** Where a search ends. *)
Inductive found : Type :=
| Active (i : Z)
| Free (i : Z) (freeslot : option Z)
| Lost.

(** One run of [set_add_entry] and [set_lookkey]: the slots [i], ...,
    [i + probes]. *)
Fixpoint run (t : list slot) (x : Z) (i : Z) (probes : nat) (freeslot : option Z)
    : found + option Z :=
  match slot_at t i with
  | Unused => inl (Free i freeslot)
  | Key y =>
      if (hash y =? hash x) && (y =? x) then inl (Active i)
      else
        match probes with
        | O => inr freeslot
        | S p => run t x (i + 1) p freeslot
        end
  | Dummy =>
      match probes with
      | O => inr (Some i)
      | S p => run t x (i + 1) p (Some i)
      end
  end.

Fixpoint search (fuel : nat) (t : list slot) (m : Z) (x : Z) (i perturb : Z)
    (freeslot : option Z) : found :=
  match fuel with
  | O => Lost
  | S n =>
      let probes := if i + LINEAR_PROBES <=? m then Z.to_nat LINEAR_PROBES else O in
      match run t x i probes freeslot with
      | inl f => f
      | inr freeslot' =>
          let perturb := Z.shiftr perturb PERTURB_SHIFT in
          search n t m x (Z.land (i * 5 + 1 + perturb) m) perturb freeslot'
      end
  end.

Definition lookkey (so : set) (x : Z) : found :=
  search (2 * List.length (table so) + 64) (table so) (mask so) x
         (Z.land (hash x) (mask so)) (hash x mod 2 ^ 64) None.

Definition contains (so : set) (x : Z) : bool :=
  match lookkey so x with
  | Active _ => true
  | _ => false
  end.

(** [set_insert_clean]: a key that is not in a table without dummies. *)
Definition insert_clean (t : list slot) (x : Z) : list slot :=
  let m := Z.of_nat (List.length t) - 1 in
  match search (2 * List.length t + 64) t m x (Z.land (hash x) m) (hash x mod 2 ^ 64) None
  with
  | Free i _ => put t (Z.to_nat i) (Key x)
  | _ => t
  end.

Definition keys (t : list slot) : list Z :=
  flat_map (fun s => match s with Key x => [x] | _ => [] end) t.

(** The smallest table size above [minused]. *)
Fixpoint table_size (fuel : nat) (newsize minused : Z) : Z :=
  match fuel with
  | O => newsize
  | S n => if newsize <=? minused then table_size n (newsize * 2) minused else newsize
  end.

Definition table_resize (so : set) (minused : Z) : set :=
  let newsize := table_size 64 PySet_MINSIZE minused in
  let t := fold_left insert_clean (keys (table so)) (repeat Unused (Z.to_nat newsize)) in
  mk_set t (used so) (used so).

Definition grown (u : Z) : Z := if 50000 <? u then u * 2 else u * 4.

Definition add_entry (so : set) (x : Z) : set :=
  match lookkey so x with
  | Active _ => so
  | Free _ (Some j) => mk_set (put (table so) (Z.to_nat j) (Key x)) (fill so) (used so + 1)
  | Free i None =>
      let so' := mk_set (put (table so) (Z.to_nat i) (Key x)) (fill so + 1) (used so + 1) in
      if fill so' * 5 <? mask so * 3 then so' else table_resize so' (grown (used so'))
  | Lost => so
  end.

Definition discard_entry (so : set) (x : Z) : set :=
  match lookkey so x with
  | Active i => mk_set (put (table so) (Z.to_nat i) Dummy) (fill so) (used so - 1)
  | _ => so
  end.

(** [set(l)] for a list *)
Definition of_list (l : list Z) : set := fold_left add_entry l empty.

(** [list(so)] *)
Definition to_list (so : set) : list Z := keys (table so).

(** [set_merge] into a new, empty set: [set_copy]. *)
Definition copy (other : set) : set :=
  if used other =? 0 then empty
  else
    let so :=
      if (fill empty + used other) * 5 >=? mask empty * 3
      then table_resize empty ((used empty + used other) * 2) else empty in
    if (mask so =? mask other) && (fill other =? used other)
    then mk_set (table other) (fill other) (used other)
    else mk_set (fold_left insert_clean (keys (table other)) (table so))
                (used other) (used other).

Definition difference_update (so other : set) : set :=
  let so := fold_left discard_entry (to_list other) so in
  if fill so - used so <=? mask so / 4 then so else table_resize so (grown (used so)).

(** [so - other], both sets *)
Definition difference (so other : set) : set :=
  if Z.shiftr (used so) 2 >? used other then difference_update (copy so) other
  else
    fold_left (fun result x => if contains other x then result else add_entry result x)
              (to_list so) empty.

(** [list(set(a) - set(b))] *)
Definition list_difference (a b : list Z) : list Z :=
  to_list (difference (of_list a) (of_list b)).

End PySet.

(* ================================================================== *)
(** ** [find_edges_connections] with the sets of CPython

    The same function, with [list(set(edges_s) - set(connections['value']))]
    as an operation [list_difference] on the two lists the sets are made
    of; [Edges.find_edges_connections] is the case of an operation that
    looks at the elements left only. *)

Module EdgesPy.
Import Edges.

Definition find_edges_connections_by (list_difference : list Z -> list Z -> list Z)
    (df : list row) : result :=
  let df := dropna_all df in
  let edges_sets := map (fun r => sort_values (present r)) df in
  let edges_s := filter (fun e => Nat.eqb (List.length e) 1) edges_sets in
  let edges_s := sorted_set (List.concat edges_s) in
  let edges_c := map combinations2
                     (filter (fun e => Nat.ltb 1 (List.length e)) edges_sets) in
  let edges_c := List.concat edges_c in
  let vertices := sorted_set (flat_map (fun e => [fst e; snd e]) edges_c) in
  let edges := drop_duplicates pair_eqb edges_c in
  match edges with
  | [] => Table (number_from 0 edges_s)
  | _ =>
      let c := components vertices edges in
      match connection_rows 0 c with
      | None => TypeError
      | Some connections =>
          let edges_s := list_difference edges_s (map snd connections) in
          let next := Z.of_nat (List.length c) in
          Table (connections ++ number_from next edges_s)%list
      end
  end.

Definition find_edges_connections (df : list row) : result :=
  find_edges_connections_by PySet.list_difference df.

(** The rows (1, 2), (3, None), (8, None). *)
Definition rows_3_8 : list row := [[Some 1; Some 2]; [Some 3; None]; [Some 8; None]].

End EdgesPy.

(* ================================================================== *)
(** ** Data without shared containers

    [sort_dict] updates the dict it is given, so what [data_standardization]
    returns can depend on which other parts of the data hold the same dict
    object.  Data is unshared when every container reached from it is
    reached along one path only, so that it is the tree its [read] shows. *)

Module Shape.
Import Mem.

(** A leaf holds no container: containers live at addresses. *)
Definition atom (v : value) : bool :=
  match v with
  | VList _ | VTuple _ | VDict _ => false
  | _ => true
  end.

Fixpoint distinct (l : list nat) : bool :=
  match l with
  | [] => true
  | a :: l' => negb (existsb (Nat.eqb a) l') && distinct l'
  end.

(** The keys of a dict are different from one another. *)
Fixpoint distinct_keys (l : list string) : bool :=
  match l with
  | [] => true
  | k :: l' => negb (existsb (String.eqb k) l') && distinct_keys l'
  end.

(** The addresses of the containers met on the way down from [x], one
    entry for every path. *)
Fixpoint cells (fuel : nat) (h : heap) (x : rv) : list nat :=
  match x with
  | Leaf _ => []
  | Ref a =>
      match fuel with
      | O => [a]
      | S n =>
          a :: match load h a with
               | Some o => flat_map (cells n h) (Frame.children o)
               | None => []
               end
      end
  end.

(** Every address met holds an object, every leaf is an atom, every dict
    has distinct keys, and the nesting ends within [fuel] levels. *)
Fixpoint proper (fuel : nat) (h : heap) (x : rv) : bool :=
  match x with
  | Leaf v => atom v
  | Ref a =>
      match fuel with
      | O => false
      | S n =>
          match load h a with
          | Some o =>
              forallb (proper n h) (Frame.children o) &&
              match o with
              | ODict kvs => distinct_keys (map fst kvs)
              | _ => true
              end
          | None => false
          end
      end
  end.

Definition unshared (fuel : nat) (h : heap) (x : rv) : bool :=
  proper fuel h x && distinct (cells fuel h x).

End Shape.

Module Track.
Import Mem.

(** What the loops of [sort_list] and [sort_dict] do with one element [x]:
    the heap afterwards and what stands in its place. *)
Definition item (n : nat) (h : heap) (x : rv) : heap * rv :=
  match kind_of h x with
  | KSeq b => sort_list n h b
  | KDict b => (sort_dict n h b, x)
  | KOther => (h, x)
  end.

(** A run from [h0] to [h1] that frees nothing, writes at the addresses [F]
    and at new ones only, and whose outcome [P] rests on the addresses [S]
    and on the new ones only: [P] holds in every heap that holds there what
    [h1] holds. *)
Definition effect (F S : list nat) (h0 h1 : heap) (P : heap -> Prop) : Prop :=
  (List.length h0 <= List.length h1)%nat /\
  (forall b, (b < List.length h0)%nat -> ~ In b F -> load h1 b = load h0 b) /\
  (forall h2,
     (forall b, In b S \/ (List.length h0 <= b < List.length h1)%nat ->
                load h2 b = load h1 b) -> P h2).

End Track.

Module Refine.

(** The loop bodies of [sort_list] and of [sort_dict], as they stand in
    the two functions. *)
Definition list_step (n : nat) (st : Mem.heap * list Mem.rv) (di : Mem.rv) : Mem.heap * list Mem.rv :=
  let '(h0, acc) := st in
  match Mem.kind_of h0 di with
  | Mem.KSeq b => let '(h', t) := Mem.sort_list n h0 b in (h', (acc ++ [t])%list)
  | Mem.KDict b => (Mem.sort_dict n h0 b, (acc ++ [di])%list)
  | Mem.KOther => (h0, (acc ++ [di])%list)
  end.

Definition dict_step (n a : nat) (h0 : Mem.heap) (k : string) : Mem.heap :=
  match Mem.load h0 a with
  | Some (Mem.ODict cur) =>
      match Mem.getitem cur k with
      | Some dk =>
          match Mem.kind_of h0 dk with
          | Mem.KSeq b =>
              let '(h', t) := Mem.sort_list n h0 b in
              match Mem.load h' a with
              | Some (Mem.ODict cur') => Mem.store h' a (Mem.ODict (Mem.setitem cur' k t))
              | _ => h'
              end
          | Mem.KDict b => Mem.sort_dict n h0 b
          | Mem.KOther => h0
          end
      | None => h0
      end
  | _ => h0
  end.

(** On unshared data an element ends up as the function on values says:
    [std_item] of what it was. *)
Definition item_ok (n : nat) : Prop :=
  forall h x,
    Shape.proper n h x = true -> NoDup (Shape.cells n h x) ->
    Track.effect (Shape.cells n h x) (Shape.cells n h x) h (fst (Track.item n h x))
      (fun h2 => Mem.read n h2 (snd (Track.item n h x)) = std_item (Mem.read n h x)).

Definition list_ok (n : nat) : Prop :=
  forall h a xs,
    Mem.load h a = Some (Mem.OList xs) \/ Mem.load h a = Some (Mem.OTuple xs) ->
    forallb (Shape.proper n h) xs = true ->
    NoDup (flat_map (Shape.cells n h) xs) ->
    Track.effect (flat_map (Shape.cells n h) xs) (flat_map (Shape.cells n h) xs)
      h (fst (Mem.sort_list (S n) h a))
      (fun h2 => Mem.read (S n) h2 (snd (Mem.sort_list (S n) h a))
                 = sort_list (map (Mem.read n h) xs)).

Definition dict_ok (n : nat) : Prop :=
  forall h a kvs,
    Mem.load h a = Some (Mem.ODict kvs) ->
    NoDup (map fst kvs) ->
    forallb (Shape.proper n h) (map snd kvs) = true ->
    NoDup (a :: flat_map (Shape.cells n h) (map snd kvs)) ->
    Track.effect (a :: flat_map (Shape.cells n h) (map snd kvs))
      (a :: flat_map (Shape.cells n h) (map snd kvs))
      h (Mem.sort_dict (S n) h a)
      (fun h2 => Mem.read (S n) h2 (Mem.Ref a)
                 = VDict (sort_dict (map (fun kv => (fst kv, Mem.read n h (snd kv))) kvs))).

End Refine.

Module Copy.

(** What a deep copy of unshared data gives: nothing there was is written,
    the memo gains entries for the cells of the data only, and the copy is
    unshared data in new cells that reads as the original. *)
Definition copied (n : nat) (h : Mem.heap) (memo : list (nat * nat)) (xs : list Mem.rv)
  (r : Mem.heap * list (nat * nat) * list Mem.rv) : Prop :=
  let '(h', memo', ys) := r in
  (List.length h <= List.length h')%nat /\
  (forall b, (b < List.length h)%nat -> Mem.load h' b = Mem.load h b) /\
  (forall b, ~ In b (flat_map (Shape.cells n h) xs) ->
             MemId.lookup_memo memo' b = MemId.lookup_memo memo b) /\
  forallb (Shape.proper n h') ys = true /\
  (forall b, In b (flat_map (Shape.cells n h') ys) ->
             (List.length h <= b < List.length h')%nat) /\
  NoDup (flat_map (Shape.cells n h') ys) /\
  map (Mem.read n h') ys = map (Mem.read n h) xs.

Definition faithful (n : nat) : Prop :=
  forall h memo x,
    Shape.proper n h x = true -> NoDup (Shape.cells n h x) ->
    (forall b, In b (Shape.cells n h x) -> MemId.lookup_memo memo b = None) ->
    let '(h', memo', x') := MemId.deepcopy n h memo x in
    copied n h memo [x] (h', memo', [x']).

End Copy.

(** Two lists that share a dict object.  With d = {'a': [2, 1]} (at 1),
    P = [{'a': [2, 1]}, {'a': 5}, [d]] (at 10) and
    Q = [d, {'a': 5}, [{'a': [2, 1]}]] (at 11); [P, Q] is at 12 and
    [Q, P] at 13. *)
Module Shared.

Definition two_one : Mem.obj := Mem.OList [Mem.Leaf (VInt 2); Mem.Leaf (VInt 1)].

Definition heap : Mem.heap :=
  [two_one; Mem.ODict [("a"%string, Mem.Ref 0)];
   two_one; Mem.ODict [("a"%string, Mem.Ref 2)];
   two_one; Mem.ODict [("a"%string, Mem.Ref 4)];
   Mem.ODict [("a"%string, Mem.Leaf (VInt 5))];
   Mem.ODict [("a"%string, Mem.Leaf (VInt 5))];
   Mem.OList [Mem.Ref 1];
   Mem.OList [Mem.Ref 5];
   Mem.OList [Mem.Ref 3; Mem.Ref 6; Mem.Ref 8];
   Mem.OList [Mem.Ref 1; Mem.Ref 7; Mem.Ref 9];
   Mem.OList [Mem.Ref 10; Mem.Ref 11];
   Mem.OList [Mem.Ref 11; Mem.Ref 10]].

Definition P_Q : Mem.rv := Mem.Ref 12.
Definition Q_P : Mem.rv := Mem.Ref 13.

(** The same two lists without sharing: Q holds a dict of its own (at 14
    and 15) where P holds d; [P, Q] is at 17 and [Q, P] at 18. *)
Definition apart : Mem.heap :=
  (heap ++
   [two_one; Mem.ODict [("a"%string, Mem.Ref 14)];
    Mem.OList [Mem.Ref 15; Mem.Ref 7; Mem.Ref 9];
    Mem.OList [Mem.Ref 10; Mem.Ref 16];
    Mem.OList [Mem.Ref 16; Mem.Ref 10]])%list.

End Shared.

(** The dicts {'a': 1, 'b': [2, 1]} (at 1) and {'b': [2, 1], 'a': 1}
    (at 3), each with a list of its own. *)
Module Dicts.

Definition heap : Mem.heap :=
  [Mem.OList [Mem.Leaf (VInt 2); Mem.Leaf (VInt 1)];
   Mem.ODict [("a"%string, Mem.Leaf (VInt 1)); ("b"%string, Mem.Ref 0)];
   Mem.OList [Mem.Leaf (VInt 2); Mem.Leaf (VInt 1)];
   Mem.ODict [("b"%string, Mem.Ref 2); ("a"%string, Mem.Leaf (VInt 1))]].

End Dicts.

(* ================================================================== *)
(** * Properties *)

(** ** Test vectors of the hash functions *)

Example sha256_empty :
  Sha256.hexdigest [] =
  "e3b0c44298fc1c149afbf4c8996fb92427ae41e4649b934ca495991b7852b855"%string.
Proof. vm_compute. reflexivity. Qed.

Example sha256_abc :
  Sha256.hexdigest (list_byte_of_string "abc") =
  "ba7816bf8f01cfea414140de5dae2223b00361a396177a9cb410ff61f20015ad"%string.
Proof. vm_compute. reflexivity. Qed.

Example md5_empty :
  Word.hex_of_bytes (Md5.digest []) = "d41d8cd98f00b204e9800998ecf8427e"%string.
Proof. vm_compute. reflexivity. Qed.

Example md5_abc :
  Word.hex_of_bytes (Md5.digest [97; 98; 99]) = "900150983cd24fb0d6963f7d28e17f72"%string.
Proof. vm_compute. reflexivity. Qed.

(* ================================================================== *)
(** ** The repository's own tests, on the embedding *)

(** [tests/test_data_format.py]: [test_list], [test_dict], [test_nested],
    [test_non_json_serializable_types], [test_empty_structures],
    [test_mixed_types], and the scalars that pass through. *)
Example test_data_standardization :
  data_standardization (VList [VInt 3; VInt 2; VInt 1]) = VStr "[1, 2, 3]" /\
  Json.dumps (VDict [("b", VInt 1); ("a", VInt 2)]%string) =
    Json.dumps (VDict [("a", VInt 2); ("b", VInt 1)]%string) /\
  data_standardization
    (VDict [("list", VList [VInt 3; VInt 2; VInt 1]); ("int", VInt 1)]%string) =
    VStr (Json.dumps (VDict [("int", VInt 1);
                             ("list", VList [VInt 1; VInt 2; VInt 3])]%string)) /\
  data_standardization
    (VDict [("date"%string, VDatetime (mk_datetime 2021 9 1 0 0 0 0))]) =
    VStr (Json.dumps (VDict [("date", VStr "2021-09-01 00:00:00")]%string)) /\
  data_standardization (VList []) = VStr "[]" /\
  data_standardization (VDict []) = VStr "{}" /\
  data_standardization
    (VList [VBool true; VInt 42; VNone; VStr "string"; VList [VInt 1; VInt 2];
            VDict [("key", VStr "value")]%string]) =
    VStr (Json.dumps
            (VList [VInt 42; VNone; VBool true; VList [VInt 1; VInt 2];
                    VStr "string"; VDict [("key", VStr "value")]%string])) /\
  data_standardization (VInt 42) = VInt 42 /\
  data_standardization VNone = VNone.
Proof. vm_compute. repeat split; reflexivity. Qed.

(** [tests/test_data_format.py]: [test_data_standardization_dummy_comparison]. *)
Example test_dummy_comparison :
  data_standardization
    (VDict [("b", VDict [("x", VList [VInt 1; VInt 2; VInt 3]); ("y", VNone)]);
            ("a", VList [VStr "None"; VStr "a"])]%string) =
  data_standardization
    (VDict [("a", VList [VStr "None"; VStr "a"]);
            ("b", VDict [("y", VNone); ("x", VList [VInt 2; VInt 3; VInt 1])])]%string) /\
  data_standardization (VList [VInt 1; VNone; VStr "a"; VStr "1"]) =
  data_standardization (VList [VStr "1"; VNone; VStr "a"; VInt 1]).
Proof. vm_compute. split; reflexivity. Qed.

(** [tests/test_utils.py]: [test_empty_dataframe], [test_singletons],
    [test_pairs], [test_multiple_groups] (none of them depends on the order
    in which a set is iterated). *)
Example test_find_edges_connections (set_order : list Z -> list Z) :
  Edges.find_edges_connections set_order [] = Edges.Table [] /\
  Edges.find_edges_connections set_order
    [[Some 1; None]; [Some 2; None]; [Some 3; None]]
    = Edges.Table [(0, 1); (1, 2); (2, 3)] /\
  Edges.find_edges_connections set_order
    [[Some 1; Some 2]; [Some 2; Some 3]; [Some 3; Some 4]]
    = Edges.Table (([(0, 1); (0, 2); (0, 3); (0, 4)]
                    ++ Edges.number_from 1 (set_order []))%list) /\
  Edges.find_edges_connections set_order
    [[Some 1; Some 2]; [Some 2; Some 3]; [Some 3; None];
     [Some 4; Some 5]; [Some 5; Some 6]; [Some 6; None]]
    = Edges.Table (([(0, 1); (0, 2); (0, 3); (1, 4); (1, 5); (1, 6)]
                    ++ Edges.number_from 2 (set_order []))%list).
Proof. repeat split; vm_compute; reflexivity. Qed.

(** The heap model and the model on plain values agree where nothing is
    shared: the canonical string and the identifier are the same. *)
Example heap_and_values_agree :
  let g := [Mem.OList [Mem.Ref 1; Mem.Leaf (VInt 0)];
            Mem.ODict [("k"%string, Mem.Ref 2)];
            Mem.OList [Mem.Leaf (VInt 3); Mem.Leaf (VInt 1)]] in
  snd (Mem.data_standardization 5 g (Mem.Ref 0)) =
    Mem.Leaf (data_standardization (Mem.read 5 g (Mem.Ref 0))) /\
  snd (MemId.convert_data_to_id 5 g (Mem.Ref 0) "uuid") =
    convert_data_to_id (Mem.read 5 g (Mem.Ref 0)) "uuid".
Proof. vm_compute. split; reflexivity. Qed.

(* ================================================================== *)
(** ** The comparator *)

Lemma compare_items_str_neq x y :
  py_str x <> py_str y ->
  compare_items x y =
  match String.compare (py_str x) (py_str y) with Gt => 1 | _ => -1 end.
Proof.
  intros H. unfold compare_items, str_gt.
  apply String.eqb_neq in H. rewrite H. simpl.
  destruct (String.compare (py_str x) (py_str y)); reflexivity.
Qed.

Lemma compare_items_str_eq x y :
  py_str x = py_str y ->
  compare_items x y =
  if String.eqb (type_name x) (type_name y) then 0
  else if type_order (type_name x) >? type_order (type_name y) then 1 else -1.
Proof.
  intros H. unfold compare_items. rewrite H, String.eqb_refl. simpl.
  destruct (String.eqb (type_name x) (type_name y)); reflexivity.
Qed.

(** C4. Two values are ordered by their string forms, compared
    lexicographically; when the string forms are equal, by the rank of their
    types, int(1) < str(2) < float(3) < datetime(4) < NoneType(5) < bool(6)
    < list(7) < dict(8); when string form and type coincide they compare
    equal.  So 1 and "1" are ordered by rank alone, the integer first. *)
Theorem compare_items_contract :
  (forall x y, py_str x <> py_str y ->
     compare_items x y =
     match String.compare (py_str x) (py_str y) with Gt => 1 | _ => -1 end) /\
  (forall x y, py_str x = py_str y -> type_name x <> type_name y ->
     compare_items x y =
     if type_order (type_name x) >? type_order (type_name y) then 1 else -1) /\
  (forall x y, py_str x = py_str y -> type_name x = type_name y ->
     compare_items x y = 0) /\
  map type_order ranked_names = [1; 2; 3; 4; 5; 6; 7; 8] /\
  compare_items (VInt 1) (VStr "1") = -1 /\
  compare_items (VStr "1") (VInt 1) = 1.
Proof.
  split; [exact compare_items_str_neq |].
  split.
  { intros x y Hs Ht. rewrite (compare_items_str_eq _ _ Hs).
    apply String.eqb_neq in Ht. rewrite Ht. reflexivity. }
  split.
  { intros x y Hs Ht. rewrite (compare_items_str_eq _ _ Hs), Ht.
    rewrite String.eqb_refl. reflexivity. }
  repeat split; reflexivity.
Qed.

(** C4, at 1 and "1", and at two texts that differ: the three parts of the
    contract applied to concrete values. *)
Lemma compare_items_contract_witness :
  compare_items (VStr "b") (VInt 10) = 1 /\
  compare_items (VBool true) (VStr "True") = 1 /\
  compare_items (VInt 7) (VInt 7) = 0.
Proof.
  destruct compare_items_contract as (H1 & H2 & H3 & _).
  split; [| split].
  - rewrite (H1 (VStr "b") (VInt 10)); [reflexivity | discriminate].
  - rewrite (H2 (VBool true) (VStr "True")); [reflexivity | reflexivity | discriminate].
  - apply (H3 (VInt 7) (VInt 7)); reflexivity.
Defined.

Lemma type_order_default name :
  ~ In name ranked_names -> type_order name = 0.
Proof.
  intros H. unfold type_order.
  repeat match goal with
  | |- context [String.eqb name ?s] =>
      destruct (String.eqb_spec name s) as [-> | _];
      [exfalso; apply H; simpl; tauto |]
  end.
  reflexivity.
Qed.

Lemma type_order_ranked name :
  In name ranked_names -> 1 <= type_order name.
Proof.
  simpl. intros H.
  repeat (destruct H as [<- | H]; [vm_compute; discriminate |]).
  contradiction.
Qed.

(** C9. A value whose type is outside the rank table does not make the
    comparison fail: its type gets rank 0, so when the string forms are
    equal it sorts before a value of any ranked type, integers included. *)
Theorem unknown_type_sorts_first x y :
  ~ In (type_name x) ranked_names ->
  In (type_name y) ranked_names ->
  py_str x = py_str y ->
  type_order (type_name x) = 0 /\
  compare_items x y = -1 /\ compare_items y x = 1.
Proof.
  intros Hx Hy Hs.
  pose proof (type_order_default _ Hx) as H0.
  pose proof (type_order_ranked _ Hy) as H1.
  assert (Hne : type_name x <> type_name y) by (intros E; apply Hx; rewrite E; exact Hy).
  split; [exact H0 |].
  rewrite (compare_items_str_eq _ _ Hs), (compare_items_str_eq y x (eq_sym Hs)).
  destruct (String.eqb_spec (type_name x) (type_name y)); [contradiction |].
  destruct (String.eqb_spec (type_name y) (type_name x)); [congruence |].
  rewrite H0.
  destruct (0 >? type_order (type_name y)) eqn:E1;
    destruct (type_order (type_name y) >? 0) eqn:E2; auto; lia.
Qed.

(** C9 at the tuple (1, 2) against the text "(1, 2)": [tuple] is not in the
    table. *)
Lemma unknown_type_sorts_first_witness :
  type_order (type_name (VTuple [VInt 1; VInt 2])) = 0 /\
  compare_items (VTuple [VInt 1; VInt 2]) (VStr "(1, 2)") = -1 /\
  compare_items (VStr "(1, 2)") (VTuple [VInt 1; VInt 2]) = 1.
Proof.
  apply (unknown_type_sorts_first (VTuple [VInt 1; VInt 2]) (VStr "(1, 2)")).
  - simpl. intros H. repeat (destruct H as [H | H]; [discriminate H |]). exact H.
  - simpl. tauto.
  - reflexivity.
Defined.

(* ================================================================== *)
(** ** Identifiers *)






(** C5, as stated, fails: empty bytes and the empty text get one and the
    same compact identifier, so the four constants are not four distinct
    values. *)
Lemma empty_bytes_and_empty_text_share_id :
  convert_data_to_id (VBytes []) "uuid" = convert_data_to_id (VStr "") "uuid".
Proof. reflexivity. Qed.

(** C5, amended. The four empty inputs have fixed compact identifiers (the
    ones [tests/test_data_id.py] expects); empty bytes and the empty text
    share theirs, and the three values are pairwise different. *)
Theorem empty_input_identifiers :
  convert_data_to_id (VBytes []) "uuid" = Some "5150bdd9-c6ab-3d68-a915-e58d5ac56d50"%string /\
  convert_data_to_id (VStr "") "uuid" = Some "5150bdd9-c6ab-3d68-a915-e58d5ac56d50"%string /\
  convert_data_to_id (VList []) "uuid" = Some "2061443b-712a-3816-bbf6-0e31a077be9f"%string /\
  convert_data_to_id (VDict []) "uuid" = Some "46369ab4-05ab-36da-bb30-49738a5110c9"%string /\
  convert_data_to_id (VBytes []) "uuid" <> convert_data_to_id (VList []) "uuid" /\
  convert_data_to_id (VBytes []) "uuid" <> convert_data_to_id (VDict []) "uuid" /\
  convert_data_to_id (VList []) "uuid" <> convert_data_to_id (VDict []) "uuid".
Proof.
  assert (H1 : convert_data_to_id (VBytes []) "uuid"
               = Some "5150bdd9-c6ab-3d68-a915-e58d5ac56d50"%string)
    by (vm_compute; reflexivity).
  assert (H2 : convert_data_to_id (VList []) "uuid"
               = Some "2061443b-712a-3816-bbf6-0e31a077be9f"%string)
    by (vm_compute; reflexivity).
  assert (H3 : convert_data_to_id (VDict []) "uuid"
               = Some "46369ab4-05ab-36da-bb30-49738a5110c9"%string)
    by (vm_compute; reflexivity).
  rewrite H1, H2, H3.
  repeat split; try reflexivity; try exact H1; discriminate.
Qed.

(** C1 fails on nested sequences.  [[2, 1], [1, 3]] and [[1, 2], [1, 3]]
    differ only in the order of the elements of one inner list, yet they
    get different canonical strings and different identifiers under both
    methods: [sort_list] orders the outer list by the string forms of the
    inner lists as they came, and sorts the inner lists only afterwards.
    Normalising the elements first, as the specification words it, gives
    the two inputs one canonical form. *)
Theorem nested_reordering_changes_id :
  let x1 := VList [VList [VInt 2; VInt 1]; VList [VInt 1; VInt 3]] in
  let x2 := VList [VList [VInt 1; VInt 2]; VList [VInt 1; VInt 3]] in
  data_standardization x1 = VStr "[[1, 3], [1, 2]]" /\
  data_standardization x2 = VStr "[[1, 2], [1, 3]]" /\
  convert_data_to_id x1 "uuid" = Some "3f56c608-3b46-30ab-9f73-9627960d89b1"%string /\
  convert_data_to_id x2 "uuid" = Some "717e6a03-ca49-3dae-829d-81336e5c29de"%string /\
  convert_data_to_id x1 "sha256" =
    Some "d2f28a1ed9409d53a8a443ca5407a95ee5bb3d816e21253281ebafc5360eaed0"%string /\
  convert_data_to_id x2 "sha256" =
    Some "031c632f29195050fe2f9980e9e07d575e81888ed23fd70b2e352d76e9b60959"%string /\
  Json.dumps (spec_normalize x1) = "[[1, 2], [1, 3]]"%string /\
  Json.dumps (spec_normalize x2) = "[[1, 2], [1, 3]]"%string.
Proof. vm_compute. repeat split; reflexivity. Qed.

(* ================================================================== *)
(** ** [sorted]: a stable sort by a consistent comparator forgets the
       order of its input *)

Section SortedFacts.
Context {A : Type} (cmp : A -> A -> Z).
Variable D : A -> Prop.

Let lt (a b : A) : Prop := key_lt cmp a b = true.

Hypothesis lt_asym : forall a b, D a -> D b -> lt a b -> ~ lt b a.
Hypothesis lt_trans : forall a b c, D a -> D b -> D c -> lt a b -> lt b c -> lt a c.
Hypothesis lt_total : forall a b, D a -> D b -> ~ lt a b -> ~ lt b a -> a = b.

(** [le a b]: [b] is not before [a]. *)
Let le (a b : A) : Prop := ~ lt b a.

Lemma insert_perm x l : Permutation (x :: l) (insert cmp x l).
Proof.
  induction l as [| y l IH]; simpl; [reflexivity |].
  destruct (key_lt cmp x y); [reflexivity |].
  rewrite perm_swap. constructor. exact IH.
Qed.

Lemma sorted_acc_perm l acc :
  Permutation (acc ++ l) (fold_left (fun acc x => insert cmp x acc) l acc).
Proof.
  revert acc. induction l as [| x l IH]; intros acc; simpl.
  - rewrite app_nil_r. reflexivity.
  - rewrite <- IH. rewrite <- insert_perm.
    symmetry. apply Permutation_middle.
Qed.

Lemma sorted_perm l : Permutation l (sorted cmp l).
Proof. exact (sorted_acc_perm l []). Qed.

Lemma insert_sorted x l :
  D x -> Forall D l ->
  StronglySorted le l -> StronglySorted le (insert cmp x l).
Proof.
  intros Dx Dl Hs. induction Hs as [| y l Hs IH Hy]; simpl.
  - repeat constructor.
  - inversion Dl as [| ? ? Dy Dl']; subst.
    destruct (key_lt cmp x y) eqn:E.
    + constructor; [constructor; assumption |].
      constructor.
      * apply lt_asym; assumption.
      * rewrite Forall_forall in *. intros z Hz Hzx.
        apply (Hy z Hz). apply (lt_trans z x y); auto.
    + constructor; [apply IH; assumption |].
      rewrite Forall_forall in *. intros z Hz.
      apply (Permutation_in _ (Permutation_sym (insert_perm x l))) in Hz.
      destruct Hz as [<- | Hz]; [| apply Hy; exact Hz].
      unfold le, lt. rewrite E. discriminate.
Qed.

Lemma sorted_acc_sorted l acc :
  Forall D l -> Forall D acc -> StronglySorted le acc ->
  StronglySorted le (fold_left (fun acc x => insert cmp x acc) l acc).
Proof.
  revert acc. induction l as [| x l IH]; intros acc Dl Dacc Hs; simpl; [exact Hs |].
  inversion Dl; subst.
  apply IH; [assumption | | apply insert_sorted; assumption].
  rewrite Forall_forall in *. intros z Hz.
  apply (Permutation_in _ (Permutation_sym (insert_perm x acc))) in Hz.
  destruct Hz as [<- | Hz]; auto.
Qed.

Lemma sorted_sorted l : Forall D l -> StronglySorted le (sorted cmp l).
Proof. intros Dl. apply sorted_acc_sorted; [exact Dl | constructor | constructor]. Qed.

Lemma strongly_sorted_unique l1 l2 :
  Forall D l1 -> Permutation l1 l2 ->
  StronglySorted le l1 -> StronglySorted le l2 -> l1 = l2.
Proof.
  intros Dl1 Hp H1. revert l2 Hp.
  induction H1 as [| x l1 H1 IH Hx]; intros l2 Hp H2.
  - apply Permutation_nil in Hp. subst. reflexivity.
  - destruct H2 as [| y l2 H2 Hy].
    + symmetry in Hp. apply Permutation_nil in Hp. discriminate.
    + inversion Dl1 as [| ? ? Dx Dl1']; subst.
      assert (Dl2 : Forall D (y :: l2)).
      { rewrite Forall_forall in *. intros z Hz.
        apply Dl1. apply (Permutation_in _ (Permutation_sym Hp)). exact Hz. }
      inversion Dl2 as [| ? ? Dy Dl2']; subst.
      assert (Exy : x = y).
      { rewrite Forall_forall in Hx, Hy.
        assert (Hin1 : In x (y :: l2)) by (apply (Permutation_in _ Hp); left; reflexivity).
        assert (Hin2 : In y (x :: l1))
          by (apply (Permutation_in _ (Permutation_sym Hp)); left; reflexivity).
        destruct Hin1 as [E | Hin1]; [congruence |].
        destruct Hin2 as [E | Hin2]; [congruence |].
        apply lt_total; auto.
        - apply (Hy x Hin1).
        - apply (Hx y Hin2). }
      subst y. f_equal. apply IH; [assumption | | assumption].
      apply Permutation_cons_inv with (a := x). exact Hp.
Qed.

Lemma sorted_perm_invariant l l' :
  Forall D l -> Permutation l l' -> sorted cmp l = sorted cmp l'.
Proof.
  intros Dl Hp.
  assert (Dl' : Forall D l').
  { rewrite Forall_forall in *. intros z Hz. apply Dl.
    apply (Permutation_in _ (Permutation_sym Hp)). exact Hz. }
  apply strongly_sorted_unique.
  - rewrite Forall_forall in *. intros z Hz. apply Dl.
    apply (Permutation_in _ (Permutation_sym (sorted_perm l))). exact Hz.
  - rewrite <- (sorted_perm l), <- (sorted_perm l'). exact Hp.
  - apply sorted_sorted; assumption.
  - apply sorted_sorted; assumption.
Qed.

End SortedFacts.

(** Sorting by a key: the keys of the sorted list are the sorted keys. *)
Lemma insert_map {A B} (cmp : B -> B -> Z) (f : A -> B) x l :
  map f (insert (fun a b => cmp (f a) (f b)) x l) = insert cmp (f x) (map f l).
Proof.
  induction l as [| y l IH]; simpl; [reflexivity |].
  unfold key_lt. destruct (cmp (f x) (f y) <? 0); simpl; congruence.
Qed.

Lemma sorted_acc_map {A B} (cmp : B -> B -> Z) (f : A -> B) l acc :
  map f (fold_left (fun acc x => insert (fun a b => cmp (f a) (f b)) x acc) l acc) =
  fold_left (fun acc x => insert cmp x acc) (map f l) (map f acc).
Proof.
  revert acc. induction l as [| x l IH]; intros acc; simpl; [reflexivity |].
  rewrite IH, insert_map. reflexivity.
Qed.

Lemma sorted_map {A B} (cmp : B -> B -> Z) (f : A -> B) l :
  map f (sorted (fun a b => cmp (f a) (f b)) l) = sorted cmp (map f l).
Proof. exact (sorted_acc_map cmp f l []). Qed.

(* ================================================================== *)
(** ** The comparator is a strict order on string form and type name *)

Lemma str_compare_refl s : String.compare s s = Eq.
Proof.
  induction s as [| c s IH]; simpl; [reflexivity |].
  unfold Ascii.compare. rewrite N.compare_refl. exact IH.
Qed.

Lemma str_compare_eq s1 s2 : String.compare s1 s2 = Eq <-> s1 = s2.
Proof.
  split; [apply String.compare_eq_iff | intros ->; apply str_compare_refl].
Qed.

Lemma str_compare_trans a b c :
  String.compare a b = Lt -> String.compare b c = Lt -> String.compare a c = Lt.
Proof.
  revert b c. induction a as [| x a IH]; intros [| y b] [| z c]; simpl;
    try discriminate; try reflexivity.
  unfold Ascii.compare.
  destruct (N.compare_spec (N_of_ascii x) (N_of_ascii y)) as [E1 | L1 | G1];
    destruct (N.compare_spec (N_of_ascii y) (N_of_ascii z)) as [E2 | L2 | G2];
    try discriminate; intros H1 H2.
  - rewrite E1, E2, N.compare_refl. eapply IH; eassumption.
  - rewrite E1. apply N.compare_lt_iff in L2. rewrite L2. reflexivity.
  - rewrite <- E2. apply N.compare_lt_iff in L1. rewrite L1. reflexivity.
  - assert (L : (N_of_ascii x < N_of_ascii z)%N) by lia.
    apply N.compare_lt_iff in L. rewrite L. reflexivity.
Qed.

Lemma str_compare_lt_gt a b : String.compare a b = Lt <-> String.compare b a = Gt.
Proof.
  rewrite (String.compare_antisym a b).
  destruct (String.compare b a); simpl; split; congruence.
Qed.

Lemma compare_items_key x y : compare_items x y = cmp_key (item_key x) (item_key y).
Proof. reflexivity. Qed.

Lemma tuple_str_starts l : exists r, py_str (VTuple l) = String "(" r.
Proof. destruct l as [| a [| b l]]; simpl; eauto. Qed.

(** Two values with one string form and types of one rank have one type:
    the eight ranks differ, and of the two unranked types of the model,
    [bytes] shows with a leading b and [tuple] with a parenthesis. *)
Lemma rank_separates_types x y :
  py_str x = py_str y ->
  type_order (type_name x) = type_order (type_name y) ->
  type_name x = type_name y.
Proof.
  intros Hs Hr.
  destruct x, y; try reflexivity; try (vm_compute in Hr; discriminate Hr);
    exfalso.
  - destruct (tuple_str_starts l) as [r E]. rewrite E in Hs. discriminate Hs.
  - destruct (tuple_str_starts l) as [r E]. rewrite E in Hs. discriminate Hs.
Qed.

Lemma key_lt_iff k1 k2 :
  key_ok k1 -> key_ok k2 ->
  key_lt cmp_key k1 k2 = true <->
  String.compare (fst k1) (fst k2) = Lt \/
  (fst k1 = fst k2 /\ type_order (snd k1) < type_order (snd k2)).
Proof.
  intros [x ->] [y ->]. unfold key_lt, cmp_key, item_key, str_gt. simpl.
  destruct (String.eqb_spec (py_str x) (py_str y)) as [Es | Ns]; simpl.
  - rewrite Es, str_compare_refl.
    destruct (String.eqb_spec (type_name x) (type_name y)) as [Et | Nt]; simpl.
    + rewrite Et. split; [discriminate | intros [H | [_ H]]; [discriminate | lia]].
    + assert (Hr : type_order (type_name x) <> type_order (type_name y))
        by (intros Hr; apply Nt; apply rank_separates_types; assumption).
      destruct (type_order (type_name x) >? type_order (type_name y)) eqn:E;
        split; intros H; try discriminate; try (right; split; [reflexivity | lia]);
        try reflexivity.
      destruct H as [H | [_ H]]; [discriminate | lia].
  - destruct (String.compare (py_str x) (py_str y)) eqn:E.
    + apply str_compare_eq in E. contradiction.
    + split; [intros _; left; reflexivity | reflexivity].
    + split; [discriminate | intros [H | [H _]]; [discriminate | contradiction]].
Qed.

Lemma key_lt_asym k1 k2 :
  key_ok k1 -> key_ok k2 ->
  key_lt cmp_key k1 k2 = true -> ~ key_lt cmp_key k2 k1 = true.
Proof.
  intros O1 O2 H1 H2.
  apply (key_lt_iff _ _ O1 O2) in H1. apply (key_lt_iff _ _ O2 O1) in H2.
  destruct H1 as [H1 | [E1 H1]], H2 as [H2 | [E2 H2]].
  - apply str_compare_lt_gt in H1. congruence.
  - rewrite E2, str_compare_refl in H1. discriminate.
  - rewrite E1, str_compare_refl in H2. discriminate.
  - lia.
Qed.

Lemma key_lt_trans k1 k2 k3 :
  key_ok k1 -> key_ok k2 -> key_ok k3 ->
  key_lt cmp_key k1 k2 = true -> key_lt cmp_key k2 k3 = true ->
  key_lt cmp_key k1 k3 = true.
Proof.
  intros O1 O2 O3 H1 H2.
  apply (key_lt_iff _ _ O1 O2) in H1. apply (key_lt_iff _ _ O2 O3) in H2.
  apply (key_lt_iff _ _ O1 O3).
  destruct H1 as [H1 | [E1 H1]], H2 as [H2 | [E2 H2]].
  - left. eapply str_compare_trans; eassumption.
  - left. rewrite <- E2. exact H1.
  - left. rewrite E1. exact H2.
  - right. split; [congruence | lia].
Qed.

Lemma key_lt_total k1 k2 :
  key_ok k1 -> key_ok k2 ->
  ~ key_lt cmp_key k1 k2 = true -> ~ key_lt cmp_key k2 k1 = true -> k1 = k2.
Proof.
  intros O1 O2 H1 H2.
  rewrite (key_lt_iff _ _ O1 O2) in H1. rewrite (key_lt_iff _ _ O2 O1) in H2.
  assert (Es : fst k1 = fst k2).
  { destruct (String.compare (fst k1) (fst k2)) eqn:E.
    - apply str_compare_eq. exact E.
    - exfalso. apply H1. left. reflexivity.
    - exfalso. apply H2. left. apply str_compare_lt_gt. exact E. }
  assert (Er : type_order (snd k1) = type_order (snd k2)).
  { destruct (Z.lt_trichotomy (type_order (snd k1)) (type_order (snd k2))) as [L | [E | G]].
    - exfalso. apply H1. right. split; assumption.
    - exact E.
    - exfalso. apply H2. right. split; [congruence | lia]. }
  destruct O1 as [x ->], O2 as [y ->]. unfold item_key in *. simpl in *.
  f_equal; [exact Es | apply rank_separates_types; assumption].
Qed.

(** The keys of the sorted list do not depend on the order of the list. *)
Lemma sorted_keys_perm_invariant l l' :
  Permutation l l' ->
  map item_key (sorted compare_items l) = map item_key (sorted compare_items l').
Proof.
  intros Hp.
  change compare_items with (fun a b => cmp_key (item_key a) (item_key b)).
  rewrite !sorted_map.
  apply (sorted_perm_invariant cmp_key key_ok).
  - exact key_lt_asym.
  - exact key_lt_trans.
  - exact key_lt_total.
  - rewrite Forall_forall. intros k Hk. apply in_map_iff in Hk.
    destruct Hk as [x [<- _]]. exists x. reflexivity.
  - apply Permutation_map. exact Hp.
Qed.

(* ================================================================== *)
(** ** The recursion of [sort_list] and [sort_dict] *)

Lemma depth_in_list a l : In a l -> (depth a <= list_depth l)%nat.
Proof.
  induction l as [| b l IH]; simpl; [contradiction |].
  intros [-> | H]; [lia | specialize (IH H); lia].
Qed.

Lemma depth_in_dict kv d : In kv d -> (depth (snd kv) <= dict_depth d)%nat.
Proof.
  induction d as [| b d IH]; simpl; [contradiction |].
  intros [-> | H]; [lia | specialize (IH H); lia].
Qed.

(** Fuel beyond the nesting depth changes nothing. *)
Lemma fuel_irrelevant n :
  (forall l m, (S (list_depth l) <= n)%nat -> (n <= m)%nat ->
     sort_list_fuel m l = sort_list_fuel n l) /\
  (forall d m, (S (dict_depth d) <= n)%nat -> (n <= m)%nat ->
     sort_dict_fuel m d = sort_dict_fuel n d).
Proof.
  induction n as [| n [IHl IHd]]; [split; intros; lia |].
  split.
  - intros l [| m] Hd Hm; [lia |]. simpl. f_equal.
    apply map_ext_in. intros a Ha.
    apply (Permutation_in _ (Permutation_sym (sorted_perm compare_items l))) in Ha.
    apply depth_in_list in Ha.
    destruct a; try reflexivity; simpl in Ha.
    + apply IHl; unfold list_depth; lia.
    + apply IHl; unfold list_depth; lia.
    + f_equal. apply IHd; unfold dict_depth; lia.
  - intros d [| m] Hd Hm; [lia |]. simpl.
    apply map_ext_in. intros [k a] Ha.
    apply depth_in_dict in Ha. simpl in *.
    destruct a; try reflexivity; simpl in Ha.
    + f_equal. apply IHl; unfold list_depth; lia.
    + f_equal. apply IHl; unfold list_depth; lia.
    + do 2 f_equal. apply IHd; unfold dict_depth; lia.
Qed.

Lemma depth_list l : depth (VList l) = S (list_depth l).
Proof. reflexivity. Qed.

Lemma depth_tuple l : depth (VTuple l) = S (list_depth l).
Proof. reflexivity. Qed.

Lemma depth_dict d : depth (VDict d) = S (dict_depth d).
Proof. reflexivity. Qed.

Lemma sort_list_fuel_S n d :
  sort_list_fuel (S n) d =
  VTuple (map (fun di =>
                 match di with
                 | VList l | VTuple l => sort_list_fuel n l
                 | VDict m => VDict (sort_dict_fuel n m)
                 | _ => di
                 end) (sorted compare_items d)).
Proof. reflexivity. Qed.

Lemma sort_dict_fuel_S n d :
  sort_dict_fuel (S n) d =
  map (fun kv =>
         match snd kv with
         | VList l | VTuple l => (fst kv, sort_list_fuel n l)
         | VDict m => (fst kv, VDict (sort_dict_fuel n m))
         | _ => kv
         end) d.
Proof. reflexivity. Qed.

(** [sort_list]: sort, then standardize every element, then make a tuple. *)
Lemma sort_list_eq d :
  sort_list d = VTuple (map std_item (sorted compare_items d)).
Proof.
  unfold sort_list. rewrite depth_list, sort_list_fuel_S. f_equal.
  apply map_ext_in. intros a Ha.
  apply (Permutation_in _ (Permutation_sym (sorted_perm compare_items d))) in Ha.
  apply depth_in_list in Ha.
  destruct a; try reflexivity; unfold std_item, sort_list, sort_dict.
  - rewrite depth_list in *. apply (proj1 (fuel_irrelevant _)); lia.
  - rewrite depth_list. rewrite depth_tuple in Ha. apply (proj1 (fuel_irrelevant _)); lia.
  - rewrite depth_dict in *. f_equal. apply (proj2 (fuel_irrelevant _)); lia.
Qed.

(** [sort_dict]: every value standardized, keys and their order kept. *)
Lemma sort_dict_eq d :
  sort_dict d = map (fun kv => (fst kv, std_item (snd kv))) d.
Proof.
  unfold sort_dict. rewrite depth_dict, sort_dict_fuel_S.
  apply map_ext_in. intros [k a] Ha.
  apply depth_in_dict in Ha. cbn [fst snd] in *.
  destruct a; try reflexivity; unfold std_item, sort_list, sort_dict.
  - rewrite depth_list in *. f_equal. apply (proj1 (fuel_irrelevant _)); lia.
  - rewrite depth_list. rewrite depth_tuple in Ha. f_equal. apply (proj1 (fuel_irrelevant _)); lia.
  - rewrite depth_dict in *. do 2 f_equal. apply (proj2 (fuel_irrelevant _)); lia.
Qed.

(* ================================================================== *)
(** ** Order independence of [sort_list], given that equal keys mean
       equal output *)

Lemma map_eq_transfer {A B C} (f : A -> B) (g : A -> C) (P : A -> Prop) l l' :
  (forall x y, P x -> P y -> f x = f y -> g x = g y) ->
  Forall P l -> Forall P l' ->
  map f l = map f l' -> map g l = map g l'.
Proof.
  intros H. revert l'. induction l as [| a l IH]; intros [| b l'] Pl Pl' E;
    simpl in *; try discriminate; [reflexivity |].
  inversion Pl; inversion Pl'; subst. injection E as E1 E2.
  f_equal; [apply H; assumption | apply IH; assumption].
Qed.

Lemma sort_list_perm_by_keys (P : value -> Prop) l l' :
  (forall x y, P x -> P y -> item_key x = item_key y -> item_out x = item_out y) ->
  Forall P l -> Permutation l l' ->
  Json.dumps (sort_list l) = Json.dumps (sort_list l').
Proof.
  intros H Pl Hp.
  rewrite !sort_list_eq.
  change (Json.dumps (VTuple ?x)) with ("[" ++ Text.join ", " (map Json.dumps x) ++ "]")%string.
  rewrite !map_map. do 2 f_equal. f_equal.
  change (fun x => Json.dumps (std_item x)) with item_out.
  apply (map_eq_transfer item_key item_out P).
  - exact H.
  - rewrite Forall_forall in *. intros x Hx. apply Pl.
    apply (Permutation_in _ (Permutation_sym (sorted_perm compare_items l))). exact Hx.
  - rewrite Forall_forall in *. intros x Hx. apply Pl.
    apply (Permutation_in _ (Permutation_sym Hp)).
    apply (Permutation_in _ (Permutation_sym (sorted_perm compare_items l'))). exact Hx.
  - apply sorted_keys_perm_invariant. exact Hp.
Qed.

(* ================================================================== *)
(** ** [repr] can be read back: equal string forms mean equal values *)

Lemma quote_cases s : Text.repr_quote s = "'"%char \/ Text.repr_quote s = Text.dquote.
Proof.
  unfold Text.repr_quote.
  destruct (Text.contains "'" s && negb (Text.contains Text.dquote s)); auto.
Qed.

Lemma unrepr_repr_char q c u :
  q = "'"%char \/ q = Text.dquote ->
  unrepr_char (Text.repr_char q c ++ u) = Some (c, u).
Proof.
  intros [-> | ->];
    destruct c as [[] [] [] [] [] [] [] []]; reflexivity.
Qed.

Lemma repr_char_head q c :
  q = "'"%char \/ q = Text.dquote ->
  exists h t, Text.repr_char q c = String h t /\ h <> q.
Proof.
  intros [-> | ->];
    destruct c as [[] [] [] [] [] [] [] []];
    (eexists; eexists; split; [reflexivity | discriminate]).
Qed.

Lemma string_app_assoc (a b c : string) : ((a ++ b) ++ c = a ++ (b ++ c))%string.
Proof. induction a as [| x a IH]; simpl; [reflexivity | rewrite IH; reflexivity]. Qed.

Lemma repr_body_inj q :
  q = "'"%char \/ q = Text.dquote ->
  forall s s' r r',
    (Text.repr_body q s ++ String q r = Text.repr_body q s' ++ String q r')%string ->
    s = s' /\ r = r'.
Proof.
  intros Hq. induction s as [| c s IH]; intros [| c' s'] r r' E; simpl in E.
  - injection E as ->. auto.
  - exfalso. destruct (repr_char_head q c' Hq) as (h & t & Eh & Nh).
    rewrite Eh in E. simpl in E. injection E as E _. congruence.
  - exfalso. destruct (repr_char_head q c Hq) as (h & t & Eh & Nh).
    rewrite Eh in E. simpl in E. injection E as E _. congruence.
  - rewrite !string_app_assoc in E.
    pose proof (f_equal unrepr_char E) as D.
    rewrite !unrepr_repr_char in D by exact Hq.
    injection D as -> D. destruct (IH _ _ _ D) as [-> ->]. auto.
Qed.

(** No [repr] of a text is the beginning of another. *)
Lemma repr_str_inj s s' r r' :
  (Text.repr_str s ++ r = Text.repr_str s' ++ r')%string -> s = s' /\ r = r'.
Proof.
  unfold Text.repr_str. simpl. intros E. injection E as Eq E.
  rewrite <- Eq in E. rewrite !string_app_assoc in E. simpl in E.
  apply (repr_body_inj _ (quote_cases s)) in E. exact E.
Qed.

(** Tokens: maximal runs of token characters are read back whole. *)
Lemma token_split t t' r r' :
  all_tok t = true -> all_tok t' = true ->
  delim r = true -> delim r' = true ->
  (t ++ r = t' ++ r')%string -> t = t' /\ r = r'.
Proof.
  unfold all_tok. revert t'. induction t as [| c t IH]; intros [| c' t'] Ht Ht' Dr Dr' E;
    simpl in *.
  - auto.
  - exfalso. subst r. simpl in Dr. apply andb_prop in Ht'. destruct Ht' as [Hc _].
    rewrite Hc in Dr. discriminate.
  - exfalso. subst r'. simpl in Dr'. apply andb_prop in Ht. destruct Ht as [Hc _].
    rewrite Hc in Dr'. discriminate.
  - injection E as -> E. apply andb_prop in Ht. apply andb_prop in Ht'.
    destruct (IH t' (proj2 Ht) (proj2 Ht') Dr Dr' E) as [-> ->]. auto.
Qed.

(** *** Decimal integers *)

Lemma uint_chars d :
  forallb int_char (list_ascii_of_string (NilEmpty.string_of_uint d)) = true.
Proof. induction d; simpl; try reflexivity; exact IHd. Qed.

Lemma dec_chars z : forallb int_char (list_ascii_of_string (Text.dec z)) = true.
Proof.
  unfold Text.dec.
  destruct (Z.to_int z) as [d | d]; simpl; unfold NilZero.string_of_uint;
    destruct d; try reflexivity; apply (uint_chars (_ d)) || apply uint_chars.
Qed.

Lemma dec_nonempty z : exists c t, Text.dec z = String c t.
Proof.
  unfold Text.dec.
  destruct (Z.to_int z) as [d | d]; simpl; unfold NilZero.string_of_uint;
    destruct d; simpl; eauto.
Qed.

Lemma to_int_proper z : Z.to_int z <> Decimal.Pos Decimal.Nil /\ Z.to_int z <> Decimal.Neg Decimal.Nil.
Proof.
  destruct z; simpl; split; try discriminate; intros H; injection H as H;
    exact (DecimalPos.Unsigned.to_uint_nonnil _ H).
Qed.

Lemma dec_inj z z' : Text.dec z = Text.dec z' -> z = z'.
Proof.
  unfold Text.dec. intros E.
  apply DecimalZ.to_int_inj.
  destruct (to_int_proper z) as [A B], (to_int_proper z') as [A' B'].
  pose proof (NilZero.isi _ A B) as I. pose proof (NilZero.isi _ A' B') as I'.
  rewrite E in I. congruence.
Qed.

Lemma int_char_tok c : int_char c = true -> tok c = true.
Proof.
  unfold int_char, tok. intros H.
  apply orb_prop in H. destruct H as [H | H]; rewrite H; simpl;
    rewrite ?orb_true_r; reflexivity.
Qed.

Lemma forallb_impl {A} (p q : A -> bool) l :
  (forall a, p a = true -> q a = true) -> forallb p l = true -> forallb q l = true.
Proof.
  intros H. induction l as [| a l IH]; simpl; [reflexivity |].
  intros E. apply andb_prop in E. destruct E as [E1 E2].
  rewrite (H _ E1), (IH E2). reflexivity.
Qed.

Lemma dec_tok z : all_tok (Text.dec z) = true.
Proof. apply (forallb_impl int_char tok); [exact int_char_tok | apply dec_chars]. Qed.

(** *** Sequences of elements *)

Lemma join_body {A} (f : A -> string) l :
  Text.join ", " (map f l) = seq_body f l.
Proof.
  destruct l as [| a l]; [reflexivity |]. simpl.
  revert a. induction l as [| b l IH]; intros a; simpl.
  - assert (E : forall s : string, s = (s ++ "")%string)
      by (induction s as [| x s IHs]; simpl; congruence).
    apply E.
  - rewrite IH. reflexivity.
Qed.

Section SeqInjective.
Context {A : Type} (f : A -> string) (Q : A -> Prop) (c : ascii).
Hypothesis c_not_tok : tok c = false.
Hypothesis c_not_comma : c <> ","%char.
Hypothesis head : forall b, Q b -> exists h t, f b = String h t /\ h <> c.

Lemma seq_rest_delim l r : delim (seq_rest f l ++ String c r) = true.
Proof. destruct l; simpl; [rewrite c_not_tok |]; reflexivity. Qed.

Lemma seq_rest_inj l :
  Forall (elem_inj f Q) l ->
  forall l' r r', Forall Q l' ->
    (seq_rest f l ++ String c r = seq_rest f l' ++ String c r')%string ->
    l = l' /\ r = r'.
Proof.
  induction 1 as [| a l Ha Hl IH]; intros [| b l'] r r' Ql' E; simpl in E.
  - injection E as ->. auto.
  - exfalso. injection E as E _. contradiction.
  - exfalso. injection E as E _. symmetry in E. contradiction.
  - injection E as E. rewrite !string_app_assoc in E.
    inversion Ql' as [| ? ? Qb Ql'']; subst.
    destruct (Ha b _ _ Qb (seq_rest_delim _ _) (seq_rest_delim _ _) E) as [-> E'].
    destruct (IH _ _ _ Ql'' E') as [-> ->]. auto.
Qed.

Lemma seq_body_inj l :
  Forall Q l -> Forall (elem_inj f Q) l ->
  forall l' r r', Forall Q l' ->
    (seq_body f l ++ String c r = seq_body f l' ++ String c r')%string ->
    l = l' /\ r = r'.
Proof.
  intros Ql Hl l' r r' Ql' E.
  destruct Hl as [| a l Ha Hl]; destruct l' as [| b l']; simpl in E.
  - injection E as ->. auto.
  - exfalso. inversion Ql' as [| ? ? Qb _]; subst.
    destruct (head b Qb) as (h & t & Eh & Nh). rewrite Eh in E. simpl in E.
    injection E as E _. congruence.
  - exfalso. inversion Ql as [| ? ? Qa _]; subst.
    destruct (head a Qa) as (h & t & Eh & Nh). rewrite Eh in E. simpl in E.
    injection E as E _. congruence.
  - rewrite !string_app_assoc in E.
    inversion Ql' as [| ? ? Qb Ql'']; subst.
    destruct (Ha b _ _ Qb (seq_rest_delim _ _) (seq_rest_delim _ _) E) as [-> E'].
    destruct (seq_rest_inj _ Hl _ _ _ Ql'' E') as [-> ->]. auto.
Qed.

End SeqInjective.

(** *** The first character of a [repr] *)

Lemma int_char_float_char c : int_char c = true -> float_char c = true.
Proof. destruct c as [[] [] [] [] [] [] [] []]; simpl; intros H; (reflexivity || discriminate H). Qed.

Lemma float_char_tok c : float_char c = true -> tok c = true.
Proof. destruct c as [[] [] [] [] [] [] [] []]; simpl; intros H; (reflexivity || discriminate H). Qed.

Lemma float_char_group c : float_char c = true -> char_group c = 2%nat.
Proof. destruct c as [[] [] [] [] [] [] [] []]; simpl; intros H; (reflexivity || discriminate H). Qed.

Lemma group_not_closer c : char_group c <> 9%nat -> closer c = false.
Proof. destruct c as [[] [] [] [] [] [] [] []]; simpl; intros H; (reflexivity || (exfalso; apply H; reflexivity)). Qed.

Lemma float_ok_head r :
  float_repr_ok r = true -> exists h t, r = String h t /\ float_char h = true.
Proof.
  unfold float_repr_ok. destruct r as [| h t]; simpl; [discriminate |].
  intros H. apply andb_prop in H. destruct H as [H _].
  apply andb_prop in H. destruct H as [H _]. eauto.
Qed.

Lemma repr_head x :
  supported x = true ->
  exists h t, py_repr x = String h t /\ char_group h = group x.
Proof.
  destruct x; simpl; intros S; try discriminate S.
  - eauto.
  - destruct b; eauto.
  - destruct (dec_nonempty z) as (h & t & E).
    pose proof (dec_chars z) as C. rewrite E in C. simpl in C.
    apply andb_prop in C. destruct C as [C _].
    exists h, t. split; [exact E |].
    apply float_char_group, int_char_float_char, C.
  - destruct (float_ok_head r S) as (h & t & E & C).
    exists h, t. split; [exact E | apply float_char_group, C].
  - unfold Text.repr_str. destruct (quote_cases s) as [-> | ->];
      (do 2 eexists; split; reflexivity).
  - do 2 eexists; split; reflexivity.
  - do 2 eexists; split; reflexivity.
  - destruct l as [| a [| b l]]; simpl; (do 2 eexists; split; reflexivity).
  - do 2 eexists; split; reflexivity.
Qed.

Lemma repr_same_group x y r r' :
  supported x = true -> supported y = true ->
  (py_repr x ++ r = py_repr y ++ r')%string -> group x = group y.
Proof.
  intros Sx Sy E.
  destruct (repr_head x Sx) as (h & t & Ex & Gx).
  destruct (repr_head y Sy) as (h' & t' & Ey & Gy).
  rewrite Ex, Ey in E. simpl in E. injection E as -> _. congruence.
Qed.

Lemma repr_head_not c x :
  closer c = true -> supported x = true ->
  exists h t, py_repr x = String h t /\ h <> c.
Proof.
  intros Hc S. destruct (repr_head x S) as (h & t & E & G).
  exists h, t. split; [exact E |]. intros ->.
  rewrite group_not_closer in Hc; [discriminate |].
  rewrite G. destruct x; simpl; discriminate.
Qed.

(** *** Datetimes *)

Lemma dt_fields_inj d d' : dt_fields d = dt_fields d' -> d = d'.
Proof.
  destruct d as [y mo da h mi s us], d' as [y' mo' da' h' mi' s' us'].
  unfold dt_fields. simpl.
  destruct (Z.eqb_spec us 0), (Z.eqb_spec us' 0);
    destruct (Z.eqb_spec s 0), (Z.eqb_spec s' 0);
    intros E; injection E; intros; subst; try reflexivity; congruence.
Qed.

Lemma dec_elem_inj z : elem_inj Text.dec (fun _ => True) z.
Proof.
  intros z' r r' _ Dr Dr' E.
  destruct (token_split _ _ _ _ (dec_tok z) (dec_tok z') Dr Dr' E) as [Ez ->].
  split; [apply dec_inj; exact Ez | reflexivity].
Qed.

Lemma dec_head_not c z :
  closer c = true -> exists h t, Text.dec z = String h t /\ h <> c.
Proof.
  intros Hc. exact (repr_head_not c (VInt z) Hc eq_refl).
Qed.

Lemma repr_datetime_inj d d' r r' :
  (Text.repr_datetime d ++ r = Text.repr_datetime d' ++ r')%string ->
  d = d' /\ r = r'.
Proof.
  unfold Text.repr_datetime. fold (dt_fields d) (dt_fields d').
  rewrite !join_body.
  remember (seq_body Text.dec (dt_fields d)) as B eqn:EB.
  remember (seq_body Text.dec (dt_fields d')) as B' eqn:EB'.
  rewrite !string_app_assoc. simpl. intros E. injection E as E. subst B B'.
  apply (seq_body_inj Text.dec (fun _ => True) ")") in E.
  - destruct E as [E ->]. split; [apply dt_fields_inj; exact E | reflexivity].
  - reflexivity.
  - discriminate.
  - intros z _. apply dec_head_not. reflexivity.
  - apply Forall_forall. auto.
  - apply Forall_forall. intros z _. apply dec_elem_inj.
  - apply Forall_forall. auto.
Qed.

(** *** Containers *)

Lemma string_cons_app a x r : (String a x ++ r = String a (x ++ r))%string.
Proof. reflexivity. Qed.

Lemma py_repr_list l :
  py_repr (VList l) = String "[" (seq_body py_repr l ++ String "]" "").
Proof. simpl. rewrite join_body. reflexivity. Qed.

Lemma py_repr_tuple l :
  py_repr (VTuple l) =
  String "(" (match l with
              | [a] => py_repr a ++ String "," (String ")" "")
              | _ => seq_body py_repr l ++ String ")" ""
              end).
Proof.
  destruct l as [| a [| b l]]; [reflexivity | reflexivity |].
  change (py_repr (VTuple (a :: b :: l)))
    with ("(" ++ Text.join ", " (map py_repr (a :: b :: l)) ++ ")")%string.
  rewrite join_body. reflexivity.
Qed.

Lemma py_repr_dict d :
  py_repr (VDict d) = String "{" (seq_body pair_repr d ++ String "}" "").
Proof.
  simpl. change (fun kv : string * value =>
                   (Text.repr_str (fst kv) ++ ": " ++ py_repr (snd kv))%string)
    with pair_repr.
  rewrite join_body. reflexivity.
Qed.

Lemma int_not_float z : float_repr_ok (Text.dec z) = false.
Proof.
  unfold float_repr_ok. apply andb_false_iff. right.
  pose proof (dec_chars z) as C.
  induction (list_ascii_of_string (Text.dec z)) as [| c cs IH]; [reflexivity |].
  simpl in C. apply andb_prop in C. destruct C as [Cc Ccs].
  change (existsb _ (c :: cs)) with
    (existsb (Ascii.eqb c) ["."; "e"; "n"]%char ||
     existsb (fun c => existsb (Ascii.eqb c) ["."; "e"; "n"]%char) cs).
  rewrite (IH Ccs), orb_false_r.
  destruct c as [[] [] [] [] [] [] [] []]; try reflexivity; discriminate Cc.
Qed.

Lemma float_ok_tok r : float_repr_ok r = true -> all_tok r = true.
Proof.
  unfold float_repr_ok, all_tok. intros H. apply andb_prop in H.
  apply (forallb_impl float_char tok); [exact float_char_tok | apply H].
Qed.

Lemma elems_inj l :
  Forall repr_inj_at l -> forallb supported l = true ->
  Forall (fun y => supported y = true) l /\
  Forall (elem_inj py_repr (fun y => supported y = true)) l.
Proof.
  intros IH S. rewrite forallb_forall in S. rewrite Forall_forall in IH.
  split; apply Forall_forall; intros a Ha; [apply S | apply IH]; auto.
Qed.

Ltac repr_inj_start :=
  let Sx := fresh "Sx" in let Sy := fresh "Sy" in
  let G := fresh "G" in
  intros Sx y r1 r2 Sy Dr Dr' E;
  pose proof (repr_same_group _ _ _ _ Sx Sy E) as G;
  destruct y; try discriminate G; simpl in Sx, Sy.

Lemma repr_inj_none : repr_inj_at VNone.
Proof. repr_inj_start. simpl in E. injection E as ->. auto. Qed.

Lemma repr_inj_bool b : repr_inj_at (VBool b).
Proof.
  repr_inj_start.
  destruct b, b0; simpl in E; try discriminate E; injection E as ->; auto.
Qed.

Lemma repr_inj_int z : repr_inj_at (VInt z).
Proof.
  repr_inj_start.
  - destruct (token_split _ _ _ _ (dec_tok z) (dec_tok z0) Dr Dr' E) as [Ez ->].
    apply dec_inj in Ez. subst. auto.
  - exfalso. simpl in E.
    destruct (token_split _ _ _ _ (dec_tok z) (float_ok_tok _ Sy) Dr Dr' E) as [Ez _].
    rewrite <- Ez, int_not_float in Sy. discriminate.
Qed.

Lemma repr_inj_float r : repr_inj_at (VFloat r).
Proof.
  repr_inj_start.
  - exfalso. simpl in E.
    destruct (token_split _ _ _ _ (float_ok_tok _ Sx) (dec_tok z) Dr Dr' E) as [Ez _].
    rewrite Ez, int_not_float in Sx. discriminate.
  - simpl in E.
    destruct (token_split _ _ _ _ (float_ok_tok _ Sx) (float_ok_tok _ Sy) Dr Dr' E)
      as [-> ->]. auto.
Qed.

Lemma repr_inj_str s : repr_inj_at (VStr s).
Proof.
  repr_inj_start. simpl in E. apply repr_str_inj in E. destruct E as [-> ->]. auto.
Qed.

Lemma repr_inj_datetime d : repr_inj_at (VDatetime d).
Proof.
  repr_inj_start. simpl in E. apply repr_datetime_inj in E.
  destruct E as [-> ->]. auto.
Qed.

Lemma repr_inj_list l : Forall repr_inj_at l -> repr_inj_at (VList l).
Proof.
  intros IH. repr_inj_start.
  destruct (elems_inj l IH Sx) as [Ql Il].
  rewrite !py_repr_list, !string_cons_app, !string_app_assoc in E.
  injection E as E.
  apply (seq_body_inj py_repr (fun y => supported y = true) "]") in E;
    try assumption; try reflexivity; try discriminate.
  - destruct E as [-> ->]. auto.
  - intros b Sb. apply repr_head_not; [reflexivity | exact Sb].
  - apply Forall_forall. apply forallb_forall. exact Sy.
Qed.

Lemma repr_inj_dict d :
  Forall (fun kv => repr_inj_at (snd kv)) d -> repr_inj_at (VDict d).
Proof.
  intros IH. repr_inj_start.
  rewrite !py_repr_dict, !string_cons_app, !string_app_assoc in E.
  injection E as E.
  apply (seq_body_inj pair_repr (fun kv => supported (snd kv) = true) "}") in E;
    try reflexivity; try discriminate.
  - destruct E as [-> ->]. auto.
  - intros [k v] _. unfold pair_repr, Text.repr_str. simpl.
    destruct (quote_cases k) as [-> | ->];
      (do 2 eexists; split; [reflexivity | discriminate]).
  - apply Forall_forall. apply forallb_forall. exact Sx.
  - rewrite forallb_forall in Sx. rewrite Forall_forall in IH.
    apply Forall_forall. intros [k v] Hkv [k' v'] r r' Sv' Dr1 Dr1' E1.
    unfold pair_repr in E1. cbn [fst snd] in E1. rewrite !string_app_assoc in E1.
    apply repr_str_inj in E1. destruct E1 as [-> E1].
    simpl in E1. injection E1 as E1.
    destruct (IH _ Hkv (Sx _ Hkv) v' _ _ Sv' Dr1 Dr1' E1) as [E2 ->].
    simpl in E2. subst. auto.
  - apply Forall_forall. apply forallb_forall. exact Sy.
Qed.

Lemma repr_inj_tuple l : Forall repr_inj_at l -> repr_inj_at (VTuple l).
Proof.
  intros IH. repr_inj_start.
  destruct (elems_inj l IH Sx) as [Ql Il].
  assert (Ql0 : Forall (fun y => supported y = true) l0)
    by (apply Forall_forall; apply forallb_forall; exact Sy).
  assert (Hhead : forall b, supported b = true ->
                    exists h t, py_repr b = String h t /\ h <> ")"%char)
    by (intros b Sb; apply repr_head_not; [reflexivity | exact Sb]).
  assert (General :
    (seq_body py_repr l ++ String ")" r1 = seq_body py_repr l0 ++ String ")" r2)%string ->
    VTuple l = VTuple l0 /\ r1 = r2).
  { intros E'.
    apply (seq_body_inj py_repr (fun y => supported y = true) ")") in E';
      try assumption; try reflexivity; try discriminate.
    destruct E' as [-> ->]. auto. }
  rewrite !py_repr_tuple, !string_cons_app in E. injection E as E.
  destruct l as [| a [| a2 l]]; destruct l0 as [| b [| b2 l0]];
    rewrite !string_app_assoc in E;
    try (apply General; exact E).
  - (* () against (b,) *)
    exfalso. inversion Ql0; subst.
    destruct (Hhead b) as (h & t & Eh & Nh); [assumption |].
    simpl in E. rewrite Eh in E. simpl in E. injection E as E _. congruence.
  - (* (a,) against () *)
    exfalso. inversion Ql; subst.
    destruct (Hhead a) as (h & t & Eh & Nh); [assumption |].
    simpl in E. rewrite Eh in E. simpl in E. injection E as E _. congruence.
  - (* (a,) against (b,) *)
    inversion Il as [| ? ? Ia _]; inversion Ql0 as [| ? ? Sb _]; subst.
    apply (Ia b) in E; [| exact Sb | reflexivity | reflexivity].
    destruct E as [-> E']. injection E' as ->. auto.
  - (* (a,) against (b, b2, ...) *)
    exfalso.
    inversion Il as [| ? ? Ia _]; inversion Ql0 as [| ? ? Sb _]; subst.
    change (seq_body py_repr (b :: b2 :: l0))
      with (py_repr b ++ seq_rest py_repr (b2 :: l0))%string in E.
    rewrite string_app_assoc in E.
    apply (Ia b) in E; [| exact Sb | reflexivity | reflexivity].
    destruct E as [_ E']. simpl in E'. discriminate E'.
  - (* (a, a2, ...) against (b,) *)
    exfalso.
    inversion Il as [| ? ? Ia _]; inversion Ql0 as [| ? ? Sb _]; subst.
    change (seq_body py_repr (a :: a2 :: l))
      with (py_repr a ++ seq_rest py_repr (a2 :: l))%string in E.
    rewrite string_app_assoc in E.
    apply (Ia b) in E; [| exact Sb | reflexivity | reflexivity].
    destruct E as [_ E']. simpl in E'. discriminate E'.
Qed.

(** A supported value can be read back from its [repr], whatever closing
    bracket or comma follows it. *)
Lemma repr_inj x : repr_inj_at x.
Proof.
  induction x using value_induction.
  - apply repr_inj_none.
  - apply repr_inj_bool.
  - apply repr_inj_int.
  - apply repr_inj_float.
  - apply repr_inj_str.
  - intros S. discriminate S.
  - apply repr_inj_datetime.
  - apply repr_inj_list. assumption.
  - apply repr_inj_tuple. assumption.
  - apply repr_inj_dict. assumption.
Qed.

(* ================================================================== *)
(** ** Order independence at the top level *)

Lemma string_app_nil (s : string) : (s ++ "")%string = s.
Proof. induction s as [| c s IH]; simpl; congruence. Qed.

Lemma repr_eq_inj x y :
  supported x = true -> supported y = true -> py_repr x = py_repr y -> x = y.
Proof.
  intros Sx Sy E.
  apply (repr_inj x Sx y ""%string ""%string Sy eq_refl eq_refl).
  rewrite !string_app_nil. exact E.
Qed.

(** Two supported values that the comparator cannot tell apart end up as
    the same JSON text. *)
Lemma key_determines_out x y :
  supported x = true -> supported y = true ->
  item_key x = item_key y -> item_out x = item_out y.
Proof.
  intros Sx Sy K. unfold item_key in K. injection K as Ks Kt.
  destruct x, y; try discriminate Kt; try discriminate Sx;
    unfold item_out; simpl in Ks.
  - reflexivity.
  - destruct b, b0; try discriminate Ks; reflexivity.
  - simpl. rewrite Ks. reflexivity.
  - subst. reflexivity.
  - subst. reflexivity.
  - simpl. rewrite Ks. reflexivity.
  - rewrite (repr_eq_inj (VList l) (VList l0) Sx Sy Ks). reflexivity.
  - rewrite (repr_eq_inj (VTuple l) (VTuple l0) Sx Sy Ks). reflexivity.
  - rewrite (repr_eq_inj (VDict d) (VDict d0) Sx Sy Ks). reflexivity.
Qed.

(** On values, that is on data in which no container object is shared:
    for every sequence of supported values (a list or a tuple) and every
    permutation of it, [data_standardization] returns the same canonical
    string. *)
Lemma data_standardization_order_independent s s' :
  forallb supported s = true ->
  Permutation s s' ->
  data_standardization (VList s) = data_standardization (VList s') /\
  data_standardization (VTuple s) = data_standardization (VTuple s') /\
  data_standardization (VList s) = data_standardization (VTuple s').
Proof.
  intros S Hp.
  assert (E : Json.dumps (sort_list s) = Json.dumps (sort_list s')).
  { apply (sort_list_perm_by_keys (fun x => supported x = true)).
    - exact key_determines_out.
    - apply Forall_forall. apply forallb_forall. exact S.
    - exact Hp. }
  unfold data_standardization. rewrite E. auto.
Qed.

(** The lists [3, "1", 1, [2, 1], 1.5] and [[2, 1], 1, 1.5, 3, "1"]. *)
Example data_standardization_reordered :
  data_standardization
    (VList [VInt 3; VStr "1"; VInt 1; VList [VInt 2; VInt 1]; VFloat "1.5"]) =
  data_standardization
    (VList [VList [VInt 2; VInt 1]; VInt 1; VFloat "1.5"; VInt 3; VStr "1"]).
Proof.
  apply (data_standardization_order_independent
           [VInt 3; VStr "1"; VInt 1; VList [VInt 2; VInt 1]; VFloat "1.5"]
           [VList [VInt 2; VInt 1]; VInt 1; VFloat "1.5"; VInt 3; VStr "1"]).
  - reflexivity.
  - apply (Permutation_trans (l' :=
             [VStr "1"; VInt 1; VList [VInt 2; VInt 1]; VFloat "1.5"; VInt 3])).
    + apply (Permutation_cons_append [_; _; _; _] (VInt 3)).
    + apply (Permutation_trans (l' :=
               [VInt 1; VList [VInt 2; VInt 1]; VFloat "1.5"; VInt 3; VStr "1"])).
      * apply (Permutation_cons_append [_; _; _; _] (VStr "1")).
      * apply (Permutation_trans (l' :=
               [VList [VInt 2; VInt 1]; VFloat "1.5"; VInt 3; VStr "1"; VInt 1])).
        -- apply (Permutation_cons_append [_; _; _; _] (VInt 1)).
        -- constructor. symmetry.
           apply (Permutation_trans (l' := [VFloat "1.5"; VInt 3; VStr "1"; VInt 1])).
           ++ apply (Permutation_cons_append [_; _; _] (VInt 1)).
           ++ reflexivity.
Defined.

(* ================================================================== *)
(** ** In-place updates and the caller's data *)

Lemma frame_refl n0 h : Frame.frame n0 h h.
Proof. split; auto. Qed.

Lemma frame_trans n0 h1 h2 h3 :
  Frame.frame n0 h1 h2 -> Frame.frame n0 h2 h3 -> Frame.frame n0 h1 h3.
Proof.
  intros [L1 F1] [L2 F2]. split; [lia |].
  intros b Hb. rewrite F2, F1; auto.
Qed.

Lemma load_alloc_old h o b :
  (b < List.length h)%nat -> Mem.load (h ++ [o]) b = Mem.load h b.
Proof. intros Hb. unfold Mem.load. apply nth_error_app1. exact Hb. Qed.

Lemma load_alloc_new h o : Mem.load (h ++ [o]) (List.length h) = Some o.
Proof.
  unfold Mem.load. rewrite nth_error_app2 by lia.
  rewrite Nat.sub_diag. reflexivity.
Qed.

Lemma load_bound h b o : Mem.load h b = Some o -> (b < List.length h)%nat.
Proof. unfold Mem.load. intros H. apply nth_error_Some. congruence. Qed.

Lemma length_store h a o : List.length (Mem.store h a o) = List.length h.
Proof.
  revert a. induction h as [| x h IH]; intros [| a]; simpl; auto.
Qed.

Lemma load_store_other h a o b :
  a <> b -> Mem.load (Mem.store h a o) b = Mem.load h b.
Proof.
  unfold Mem.load. revert a b.
  induction h as [| x h IH]; intros [| a] [| b] Hne; simpl; auto; try congruence.
Qed.

Lemma load_store_same h a o o' :
  Mem.load h a = Some o' -> Mem.load (Mem.store h a o) a = Some o.
Proof.
  unfold Mem.load. revert a.
  induction h as [| x h IH]; intros [| a]; simpl; try discriminate; auto.
Qed.

Lemma frame_alloc n0 h o :
  (n0 <= List.length h)%nat -> Frame.frame n0 h (h ++ [o]).
Proof.
  intros Hn. split; [rewrite length_app; simpl; lia |].
  intros b Hb. apply load_alloc_old. lia.
Qed.

Lemma frame_store n0 h a o :
  (n0 <= a)%nat -> Frame.frame n0 h (Mem.store h a o).
Proof.
  intros Ha. split; [rewrite length_store; lia |].
  intros b Hb. apply load_store_other. lia.
Qed.

Lemma closed_alloc n0 h o :
  Frame.closed n0 h -> Frame.obj_ge n0 o -> Frame.closed n0 (h ++ [o]).
Proof.
  intros C Ho b o' Hb L.
  destruct (Nat.lt_ge_cases b (List.length h)) as [Lt | Ge].
  - rewrite load_alloc_old in L by exact Lt. eapply C; eassumption.
  - pose proof (load_bound _ _ _ L) as B. rewrite length_app in B. simpl in B.
    assert (b = List.length h) by lia. subst b.
    rewrite load_alloc_new in L. injection L as <-. exact Ho.
Qed.

Lemma closed_store n0 h a o :
  Frame.closed n0 h -> Frame.obj_ge n0 o -> Frame.closed n0 (Mem.store h a o).
Proof.
  intros C Ho b o' Hb L.
  destruct (Nat.eq_dec a b) as [-> | N].
  - destruct (Mem.load h b) as [o0 |] eqn:E.
    + rewrite (load_store_same _ _ _ _ E) in L. injection L as <-. exact Ho.
    + pose proof (load_bound _ _ _ L) as B. rewrite length_store in B.
      unfold Mem.load in E. apply nth_error_None in E. lia.
  - rewrite load_store_other in L by exact N. eapply C; eassumption.
Qed.

Lemma kind_seq_ge n0 h x b :
  Frame.rv_ge n0 x -> Mem.kind_of h x = Mem.KSeq b -> (n0 <= b)%nat.
Proof.
  destruct x as [v | a]; simpl; [discriminate |].
  intros G. destruct (Mem.load h a) as [[| |] |]; intros E; try discriminate;
    injection E as <-; exact G.
Qed.

Lemma kind_dict_ge n0 h x b :
  Frame.rv_ge n0 x -> Mem.kind_of h x = Mem.KDict b -> (n0 <= b)%nat.
Proof.
  destruct x as [v | a]; simpl; [discriminate |].
  intros G. destruct (Mem.load h a) as [[| |] |]; intros E; try discriminate;
    injection E as <-; exact G.
Qed.

Lemma getitem_in kvs k v : Mem.getitem kvs k = Some v -> In v (map snd kvs).
Proof.
  induction kvs as [| [k' v'] kvs IH]; simpl; [discriminate |].
  destruct (String.eqb k' k); [intros E; injection E as ->; auto | auto].
Qed.

Lemma setitem_ge n0 kvs k t :
  Forall (Frame.rv_ge n0) (map snd kvs) -> Frame.rv_ge n0 t ->
  Forall (Frame.rv_ge n0) (map snd (Mem.setitem kvs k t)).
Proof.
  intros H Ht. induction kvs as [| [k' v'] kvs IH]; simpl; [constructor |].
  simpl in H. inversion H; subst.
  destruct (String.eqb k' k); simpl; constructor; auto.
Qed.

Lemma frame_good_alloc n0 h0 h o :
  Frame.frame n0 h0 h -> FrameInv.good n0 h -> Frame.obj_ge n0 o ->
  Frame.frame n0 h0 (h ++ [o]) /\ FrameInv.good n0 (h ++ [o]).
Proof.
  intros F [L C] Ho. split; [| split].
  - eapply frame_trans; [exact F | apply frame_alloc; exact L].
  - rewrite length_app. lia.
  - apply closed_alloc; assumption.
Qed.

(** Below the mark nothing changes when [sort_list] or [sort_dict] starts
    above it in a closed heap. *)
Lemma sort_frame n0 n :
  (forall h a, FrameInv.good n0 h -> (n0 <= a)%nat ->
     Frame.frame n0 h (fst (Mem.sort_list n h a)) /\
     FrameInv.good n0 (fst (Mem.sort_list n h a)) /\
     Frame.rv_ge n0 (snd (Mem.sort_list n h a))) /\
  (forall h a, FrameInv.good n0 h -> (n0 <= a)%nat ->
     Frame.frame n0 h (Mem.sort_dict n h a) /\
     FrameInv.good n0 (Mem.sort_dict n h a)).
Proof.
  induction n as [| n [IHl IHd]].
  { split; intros h a G Ha; simpl; [split; [apply frame_refl | split; [exact G | exact Ha]] | split; [apply frame_refl | exact G]]. }
  assert (Seq : forall h a xs,
    FrameInv.good n0 h -> (n0 <= a)%nat -> Forall (Frame.rv_ge n0) xs ->
    forall d st,
      Forall (Frame.rv_ge n0) d ->
      (Frame.frame n0 h (fst st) /\ FrameInv.good n0 (fst st) /\
       Forall (Frame.rv_ge n0) (snd st)) ->
      let st' :=
        fold_left
          (fun (st : Mem.heap * list Mem.rv) (di : Mem.rv) =>
             let '(h0, acc) := st in
             match Mem.kind_of h0 di with
             | Mem.KSeq b => let '(h', t) := Mem.sort_list n h0 b in (h', (acc ++ [t])%list)
             | Mem.KDict b => (Mem.sort_dict n h0 b, (acc ++ [di])%list)
             | Mem.KOther => (h0, (acc ++ [di])%list)
             end) d st in
      Frame.frame n0 h (fst st') /\ FrameInv.good n0 (fst st') /\
      Forall (Frame.rv_ge n0) (snd st')).
  { intros h a xs G Ha Hxs d. induction d as [| di d IHd']; intros [h0 acc] Hd I; simpl.
    - exact I.
    - inversion Hd as [| ? ? Hdi Hd']; subst. apply IHd'; [exact Hd' |].
      destruct I as (F & G0 & A). simpl in F, G0, A.
      destruct (Mem.kind_of h0 di) eqn:K.
      + pose proof (kind_seq_ge _ _ _ _ Hdi K) as Hb.
        destruct (IHl h0 a0 G0 Hb) as (F1 & G1 & T1).
        destruct (Mem.sort_list n h0 a0) as [h' t]. simpl in *.
        split; [eapply frame_trans; eassumption | split; [exact G1 |]].
        apply Forall_app. split; [exact A | constructor; [exact T1 | constructor]].
      + pose proof (kind_dict_ge _ _ _ _ Hdi K) as Hb.
        destruct (IHd h0 a0 G0 Hb) as (F1 & G1). simpl.
        split; [eapply frame_trans; eassumption | split; [exact G1 |]].
        apply Forall_app. split; [exact A | constructor; [exact Hdi | constructor]].
      + simpl. split; [exact F | split; [exact G0 |]].
        apply Forall_app. split; [exact A | constructor; [exact Hdi | constructor]]. }
  split.
  - intros h a G Ha. cbn [Mem.sort_list].
    destruct (Mem.load h a) as [o |] eqn:L;
      [| simpl; split; [apply frame_refl | split; [exact G | exact Ha]]].
    assert (Ho : Frame.obj_ge n0 o) by (eapply (proj2 G); eassumption).
    assert (Main : forall xs, Forall (Frame.rv_ge n0) xs ->
      let r :=
        (let d := sorted (fun x y => compare_items (Mem.read (S n) h x) (Mem.read (S n) h y)) xs in
         let '(h1, d1) :=
           fold_left
             (fun (st : Mem.heap * list Mem.rv) (di : Mem.rv) =>
                let '(h0, acc) := st in
                match Mem.kind_of h0 di with
                | Mem.KSeq b => let '(h', t) := Mem.sort_list n h0 b in (h', (acc ++ [t])%list)
                | Mem.KDict b => (Mem.sort_dict n h0 b, (acc ++ [di])%list)
                | Mem.KOther => (h0, (acc ++ [di])%list)
                end) d (h, []) in
         let '(h2, t) := Mem.alloc h1 (Mem.OTuple d1) in (h2, Mem.Ref t)) in
      Frame.frame n0 h (fst r) /\ FrameInv.good n0 (fst r) /\ Frame.rv_ge n0 (snd r)).
    { intros xs Hxs. cbv zeta.
      match goal with |- context [sorted ?f xs] => set (d := sorted f xs) end.
      assert (Hd : Forall (Frame.rv_ge n0) d).
      { rewrite Forall_forall in Hxs. apply Forall_forall. intros x Hx. apply Hxs.
        unfold d in Hx.
        eapply Permutation_in; [apply Permutation_sym, sorted_perm | exact Hx]. }
      pose proof (Seq h a xs G Ha Hxs d (h, []) Hd) as S.
      cbv zeta in S.
      destruct (fold_left _ d (h, [])) as [h1 d1].
      destruct S as (F1 & G1 & A1).
      { simpl. split; [apply frame_refl | split; [exact G | constructor]]. }
      simpl in F1, G1, A1. unfold Mem.alloc. simpl.
      destruct (frame_good_alloc n0 h h1 (Mem.OTuple d1) F1 G1 A1) as [F2 G2].
      split; [exact F2 | split; [exact G2 | apply G1]]. }
    destruct o as [xs | xs | kvs].
    + apply (Main xs Ho).
    + apply (Main xs Ho).
    + simpl. split; [apply frame_refl | split; [exact G | exact Ha]].
  - intros h a G Ha. cbn [Mem.sort_dict].
    destruct (Mem.load h a) as [[xs | xs | kvs] |] eqn:L;
      try (split; [apply frame_refl | exact G]).
    generalize (map fst kvs). intros ks.
    assert (Inv : forall h0, Frame.frame n0 h h0 /\ FrameInv.good n0 h0 ->
      let h' :=
        fold_left
          (fun (h0 : Mem.heap) (k : string) =>
             match Mem.load h0 a with
             | Some (Mem.ODict cur) =>
                 match Mem.getitem cur k with
                 | Some dk =>
                     match Mem.kind_of h0 dk with
                     | Mem.KSeq b =>
                         let '(h', t) := Mem.sort_list n h0 b in
                         match Mem.load h' a with
                         | Some (Mem.ODict cur') =>
                             Mem.store h' a (Mem.ODict (Mem.setitem cur' k t))
                         | _ => h'
                         end
                     | Mem.KDict b => Mem.sort_dict n h0 b
                     | Mem.KOther => h0
                     end
                 | None => h0
                 end
             | _ => h0
             end) ks h0 in
      Frame.frame n0 h h' /\ FrameInv.good n0 h').
    { induction ks as [| k ks IHks]; intros h0 I; simpl; [exact I |].
      apply IHks. destruct I as [F0 G0].
      destruct (Mem.load h0 a) as [[ys | ys | cur] |] eqn:L0; try (split; assumption).
      destruct (Mem.getitem cur k) as [dk |] eqn:Gk; [| split; assumption].
      assert (Hdk : Frame.rv_ge n0 dk).
      { pose proof (proj2 G0 a _ Ha L0) as Hc. unfold Frame.obj_ge in Hc. simpl in Hc.
        rewrite Forall_forall in Hc. apply Hc. eapply getitem_in. exact Gk. }
      destruct (Mem.kind_of h0 dk) eqn:K; [| | split; assumption].
      - pose proof (kind_seq_ge _ _ _ _ Hdk K) as Hb.
        destruct (IHl h0 a0 G0 Hb) as (F1 & G1 & T1).
        destruct (Mem.sort_list n h0 a0) as [h' t]. simpl in F1, G1, T1.
        destruct (Mem.load h' a) as [[zs | zs | cur'] |] eqn:L';
          try (split; [eapply frame_trans; eassumption | exact G1]).
        split; [| split].
        + eapply frame_trans; [exact F0 |].
          eapply frame_trans; [exact F1 | apply frame_store; exact Ha].
        + rewrite length_store. apply G1.
        + apply closed_store; [apply G1 |].
          unfold Frame.obj_ge. simpl. apply setitem_ge; [| exact T1].
          exact (proj2 G1 a _ Ha L').
      - pose proof (kind_dict_ge _ _ _ _ Hdk K) as Hb.
        destruct (IHd h0 a0 G0 Hb) as (F1 & G1).
        split; [eapply frame_trans; eassumption | exact G1]. }
    apply Inv. split; [apply frame_refl | exact G].
Qed.

(** *** The deep copy *)

Lemma lookup_memo_ge n0 memo a b :
  Frame.memo_ge n0 memo -> MemId.lookup_memo memo a = Some b -> (n0 <= b)%nat.
Proof.
  induction 1 as [| [a' b'] memo Hab Hm IH]; simpl; [discriminate |].
  destruct (Nat.eqb a' a); [intros E; injection E as <-; exact Hab | exact IH].
Qed.

Lemma copy_all_ok n0 copy h :
  (forall h0 m0 x, FrameInv.good n0 h0 -> Frame.memo_ge n0 m0 ->
     copy_ok n0 h0 (copy h0 m0 x)) ->
  forall xs st, copies_ok n0 h st ->
    copies_ok n0 h (fold_left (MemId.copy_all copy) xs st).
Proof.
  intros Hc. induction xs as [| x xs IH]; intros st I; simpl; [exact I |].
  apply IH. destruct st as [[h0 m0] acc]. destruct I as (F & G & M & A).
  simpl in F, G, M, A. unfold MemId.copy_all.
  pose proof (Hc h0 m0 x G M) as C.
  destruct (copy h0 m0 x) as [[h' m'] y]. destruct C as (F' & G' & M' & Y').
  simpl in *. split; [eapply frame_trans; eassumption |].
  split; [exact G' |]. split; [exact M' |].
  apply Forall_app. split; [exact A | constructor; [exact Y' | constructor]].
Qed.

Lemma combine_snd_ge n0 (ks : list string) ys :
  Forall (Frame.rv_ge n0) ys -> Forall (Frame.rv_ge n0) (map snd (combine ks ys)).
Proof.
  intros H. revert ks. induction H as [| y ys Hy Hys IH]; intros [| k ks]; simpl;
    constructor; auto.
Qed.

(** The deep copy writes above the mark only, and what it returns points
    above the mark. *)
Lemma deepcopy_ok n0 n :
  forall h memo x, FrameInv.good n0 h -> Frame.memo_ge n0 memo ->
    copy_ok n0 h (MemId.deepcopy n h memo x).
Proof.
  assert (Base : forall h memo x, FrameInv.good n0 h -> Frame.memo_ge n0 memo ->
                   Frame.rv_ge n0 x -> copy_ok n0 h (h, memo, x)).
  { intros h memo x G M X. split; [apply frame_refl | auto]. }
  induction n as [| n IH]; intros h memo x G M.
  - destruct x as [v | a]; simpl; [apply Base; simpl; auto |].
    destruct (MemId.lookup_memo memo a) as [b |] eqn:L;
      apply Base; simpl; auto. eapply lookup_memo_ge; eassumption.
  - destruct x as [v | a]; cbn [MemId.deepcopy]; [apply Base; simpl; auto |].
    destruct (MemId.lookup_memo memo a) as [b |] eqn:L;
      [apply Base; simpl; auto; eapply lookup_memo_ge; eassumption |].
    destruct (Mem.load h a) as [[xs | xs | kvs] |] eqn:E;
      [| | | apply Base; simpl; auto].
    + (* list *)
      unfold Mem.alloc.
      assert (I : copies_ok n0 h (h ++ [Mem.OList []], (a, List.length h) :: memo, [])%list).
      { destruct (frame_good_alloc n0 h h (Mem.OList []) (frame_refl _ _) G) as [F1 G1];
          [constructor |].
        split; [exact F1 | split; [exact G1 | split; [| constructor]]].
        constructor; [simpl; apply G | exact M]. }
      pose proof (copy_all_ok n0 (MemId.deepcopy n) h IH xs _ I) as C.
      destruct (fold_left _ xs _) as [[h2 m2] ys].
      destruct C as (F2 & G2 & M2 & Y2). simpl in F2, G2, M2, Y2.
      split; [| split; [| split]]; simpl.
      * eapply frame_trans; [exact F2 | apply frame_store; apply G].
      * split; [rewrite length_store; apply G2 |].
        apply closed_store; [apply G2 | exact Y2].
      * exact M2.
      * apply G.
    + (* tuple *)
      assert (I : copies_ok n0 h (h, memo, [])).
      { split; [apply frame_refl | split; [exact G | split; [exact M | constructor]]]. }
      pose proof (copy_all_ok n0 (MemId.deepcopy n) h IH xs _ I) as C.
      destruct (fold_left _ xs _) as [[h2 m2] ys].
      destruct C as (F2 & G2 & M2 & Y2). simpl in F2, G2, M2, Y2.
      unfold Mem.alloc.
      destruct (frame_good_alloc n0 h h2 (Mem.OTuple ys) F2 G2 Y2) as [F3 G3].
      split; [exact F3 | split; [exact G3 | split]]; simpl.
      * constructor; [simpl; apply G2 | exact M2].
      * apply G2.
    + (* dict *)
      unfold Mem.alloc.
      assert (I : copies_ok n0 h (h ++ [Mem.ODict []], (a, List.length h) :: memo, [])%list).
      { destruct (frame_good_alloc n0 h h (Mem.ODict []) (frame_refl _ _) G) as [F1 G1];
          [constructor |].
        split; [exact F1 | split; [exact G1 | split; [| constructor]]].
        constructor; [simpl; apply G | exact M]. }
      pose proof (copy_all_ok n0 (MemId.deepcopy n) h IH (map snd kvs) _ I) as C.
      destruct (fold_left _ (map snd kvs) _) as [[h2 m2] ys].
      destruct C as (F2 & G2 & M2 & Y2). simpl in F2, G2, M2, Y2.
      split; [| split; [| split]]; simpl.
      * eapply frame_trans; [exact F2 | apply frame_store; apply G].
      * split; [rewrite length_store; apply G2 |].
        apply closed_store; [apply G2 |].
        unfold Frame.obj_ge. simpl. apply combine_snd_ge. exact Y2.
      * exact M2.
      * apply G.
Qed.

(** *** Only dicts are updated *)

Lemma kept_refl o : Update.kept o o.
Proof. destruct o; simpl; eauto. Qed.

Lemma kept_trans o1 o2 o3 : Update.kept o1 o2 -> Update.kept o2 o3 -> Update.kept o1 o3.
Proof.
  destruct o1; simpl; try (intros ->; auto).
  intros (k2 & -> & E2). simpl. intros (k3 & -> & E3).
  exists k3. split; [reflexivity | congruence].
Qed.

Lemma dicts_only_refl h : Update.dicts_only h h.
Proof. intros a o L. exists o. split; [exact L | apply kept_refl]. Qed.

Lemma dicts_only_trans h1 h2 h3 :
  Update.dicts_only h1 h2 -> Update.dicts_only h2 h3 -> Update.dicts_only h1 h3.
Proof.
  intros H1 H2 a o L. destruct (H1 a o L) as (o2 & L2 & K2).
  destruct (H2 a o2 L2) as (o3 & L3 & K3).
  exists o3. split; [exact L3 | eapply kept_trans; eassumption].
Qed.

Lemma dicts_only_alloc h o : Update.dicts_only h (h ++ [o]).
Proof.
  intros a o' L. exists o'. split; [| apply kept_refl].
  rewrite load_alloc_old; [exact L | eapply load_bound; exact L].
Qed.

Lemma setitem_keys kvs k t : map fst (Mem.setitem kvs k t) = map fst kvs.
Proof.
  induction kvs as [| [k' v'] kvs IH]; simpl; [reflexivity |].
  destruct (String.eqb k' k); simpl; congruence.
Qed.

Lemma dicts_only_setitem h a cur k t :
  Mem.load h a = Some (Mem.ODict cur) ->
  Update.dicts_only h (Mem.store h a (Mem.ODict (Mem.setitem cur k t))).
Proof.
  intros L b o Lb. destruct (Nat.eq_dec a b) as [<- | N].
  - rewrite (load_store_same _ _ _ _ L). eexists. split; [reflexivity |].
    rewrite L in Lb. injection Lb as <-. simpl.
    eexists. split; [reflexivity | apply setitem_keys].
  - rewrite load_store_other by exact N. exists o. split; [exact Lb | apply kept_refl].
Qed.

Lemma sort_dicts_only n :
  (forall h a, Update.dicts_only h (fst (Mem.sort_list n h a))) /\
  (forall h a, Update.dicts_only h (Mem.sort_dict n h a)).
Proof.
  induction n as [| n [IHl IHd]]; [split; intros; apply dicts_only_refl |].
  split.
  - intros h a. cbn [Mem.sort_list].
    assert (Main : forall xs,
      let r :=
        (let d := sorted (fun x y => compare_items (Mem.read (S n) h x) (Mem.read (S n) h y)) xs in
         let '(h1, d1) :=
           fold_left
             (fun (st : Mem.heap * list Mem.rv) (di : Mem.rv) =>
                let '(h0, acc) := st in
                match Mem.kind_of h0 di with
                | Mem.KSeq b => let '(h', t) := Mem.sort_list n h0 b in (h', (acc ++ [t])%list)
                | Mem.KDict b => (Mem.sort_dict n h0 b, (acc ++ [di])%list)
                | Mem.KOther => (h0, (acc ++ [di])%list)
                end) d (h, []) in
         let '(h2, t) := Mem.alloc h1 (Mem.OTuple d1) in (h2, Mem.Ref t)) in
      Update.dicts_only h (fst r)).
    { intros xs. cbv zeta.
      match goal with |- context [sorted ?f xs] => generalize (sorted f xs) end.
      intros d.
      assert (Inv : forall st, Update.dicts_only h (fst st) ->
        Update.dicts_only h (fst (fold_left
             (fun (st : Mem.heap * list Mem.rv) (di : Mem.rv) =>
                let '(h0, acc) := st in
                match Mem.kind_of h0 di with
                | Mem.KSeq b => let '(h', t) := Mem.sort_list n h0 b in (h', (acc ++ [t])%list)
                | Mem.KDict b => (Mem.sort_dict n h0 b, (acc ++ [di])%list)
                | Mem.KOther => (h0, (acc ++ [di])%list)
                end) d st))).
      { induction d as [| di d IHd']; intros [h0 acc] I; simpl; [exact I |].
        apply IHd'. simpl in I.
        destruct (Mem.kind_of h0 di) as [b | b |].
        - pose proof (IHl h0 b) as H. destruct (Mem.sort_list n h0 b) as [h' t].
          simpl in *. eapply dicts_only_trans; eassumption.
        - simpl. eapply dicts_only_trans; [exact I | apply IHd].
        - exact I. }
      specialize (Inv (h, []) (dicts_only_refl h)).
      destruct (fold_left _ d (h, [])) as [h1 d1]. simpl in *.
      eapply dicts_only_trans; [exact Inv | apply dicts_only_alloc]. }
    destruct (Mem.load h a) as [[xs | xs | kvs] |];
      try apply dicts_only_refl; apply Main.
  - intros h a. cbn [Mem.sort_dict].
    destruct (Mem.load h a) as [[xs | xs | kvs] |]; try apply dicts_only_refl.
    generalize (map fst kvs). intros ks.
    assert (Inv : forall h0, Update.dicts_only h h0 ->
      Update.dicts_only h (fold_left
          (fun (h0 : Mem.heap) (k : string) =>
             match Mem.load h0 a with
             | Some (Mem.ODict cur) =>
                 match Mem.getitem cur k with
                 | Some dk =>
                     match Mem.kind_of h0 dk with
                     | Mem.KSeq b =>
                         let '(h', t) := Mem.sort_list n h0 b in
                         match Mem.load h' a with
                         | Some (Mem.ODict cur') =>
                             Mem.store h' a (Mem.ODict (Mem.setitem cur' k t))
                         | _ => h'
                         end
                     | Mem.KDict b => Mem.sort_dict n h0 b
                     | Mem.KOther => h0
                     end
                 | None => h0
                 end
             | _ => h0
             end) ks h0)).
    { induction ks as [| k ks IHks]; intros h0 I; simpl; [exact I |].
      apply IHks.
      destruct (Mem.load h0 a) as [[ys | ys | cur] |]; try exact I.
      destruct (Mem.getitem cur k) as [dk |]; [| exact I].
      destruct (Mem.kind_of h0 dk) as [b | b |]; [| | exact I].
      - pose proof (IHl h0 b) as H. destruct (Mem.sort_list n h0 b) as [h' t].
        simpl in H.
        destruct (Mem.load h' a) as [[zs | zs | cur'] |] eqn:L';
          try (eapply dicts_only_trans; eassumption).
        eapply dicts_only_trans; [exact I |].
        eapply dicts_only_trans; [exact H | apply dicts_only_setitem; exact L'].
      - eapply dicts_only_trans; [exact I | apply IHd]. }
    apply Inv. apply dicts_only_refl.
Qed.

Lemma data_standardization_dicts_only fuel h data :
  Update.dicts_only h (fst (Mem.data_standardization fuel h data)).
Proof.
  unfold Mem.data_standardization.
  destruct (Mem.kind_of h data) as [a | a |].
  - pose proof (proj1 (sort_dicts_only fuel) h a) as H.
    destruct (Mem.sort_list fuel h a) as [h' t]. exact H.
  - apply (proj2 (sort_dicts_only fuel)).
  - apply dicts_only_refl.
Qed.

Lemma convert_data_to_id_frame fuel h data method :
  Frame.frame (List.length h) h (fst (MemId.convert_data_to_id fuel h data method)).
Proof.
  set (n0 := List.length h).
  assert (G : FrameInv.good n0 h).
  { split; [apply Nat.le_refl |]. intros b o Hb L.
    apply load_bound in L. unfold n0 in Hb. lia. }
  unfold MemId.convert_data_to_id.
  pose proof (deepcopy_ok n0 fuel h [] data G (Forall_nil _)) as C.
  destruct (MemId.deepcopy fuel h [] data) as [[h1 m1] c].
  destruct C as (F1 & G1 & _ & C1). simpl in F1, G1, C1.
  unfold Mem.data_standardization.
  destruct (Mem.kind_of h1 c) as [a | a |] eqn:K.
  - pose proof (kind_seq_ge _ _ _ _ C1 K) as Ha.
    destruct (proj1 (sort_frame n0 fuel) h1 a G1 Ha) as (F2 & _).
    destruct (Mem.sort_list fuel h1 a) as [h2 t]. simpl in *.
    eapply frame_trans; eassumption.
  - pose proof (kind_dict_ge _ _ _ _ C1 K) as Ha.
    destruct (proj2 (sort_frame n0 fuel) h1 a G1 Ha) as (F2 & _).
    simpl. eapply frame_trans; eassumption.
  - simpl. exact F1.
Qed.

(** C3, as stated, fails: called on a dict whose value is the list [2, 1],
    [data_standardization] leaves the caller's dict holding the tuple
    (1, 2) in its place; called on a list that holds such a dict, it
    updates that nested dict just the same. *)
Lemma data_standardization_updates_caller_dict :
  let h := [Mem.ODict [("b"%string, Mem.Ref 1); ("a"%string, Mem.Leaf (VInt 1))];
            Mem.OList [Mem.Leaf (VInt 2); Mem.Leaf (VInt 1)]] in
  let h' := fst (Mem.data_standardization 5 h (Mem.Ref 0)) in
  let g := [Mem.OList [Mem.Ref 1; Mem.Leaf (VInt 0)];
            Mem.ODict [("k"%string, Mem.Ref 2)];
            Mem.OList [Mem.Leaf (VInt 3); Mem.Leaf (VInt 1)]] in
  let g' := fst (Mem.data_standardization 5 g (Mem.Ref 0)) in
  Mem.read 5 h (Mem.Ref 0) =
    VDict [("b"%string, VList [VInt 2; VInt 1]); ("a"%string, VInt 1)] /\
  Mem.read 5 h' (Mem.Ref 0) =
    VDict [("b"%string, VTuple [VInt 1; VInt 2]); ("a"%string, VInt 1)] /\
  Mem.read 5 g (Mem.Ref 0) =
    VList [VDict [("k"%string, VList [VInt 3; VInt 1])]; VInt 0] /\
  Mem.read 5 g' (Mem.Ref 0) =
    VList [VDict [("k"%string, VTuple [VInt 1; VInt 3])]; VInt 0].
Proof. vm_compute. repeat split; reflexivity. Qed.

(** C3, amended.  [data_standardization] updates dicts in place and nothing
    else: every list and tuple object of the caller is afterwards what it
    was, and every dict is still a dict with the same keys in the same
    order (its list and tuple values replaced by new sorted tuples).
    [convert_data_to_id], which standardizes a deep copy, leaves every
    object of the caller as it was. *)
Theorem caller_data_after_standardization fuel h data method :
  Update.dicts_only h (fst (Mem.data_standardization fuel h data)) /\
  (forall a, (a < List.length h)%nat ->
     Mem.load (fst (MemId.convert_data_to_id fuel h data method)) a = Mem.load h a).
Proof.
  split; [apply data_standardization_dicts_only |].
  apply (proj2 (convert_data_to_id_frame fuel h data method)).
Qed.

(* ================================================================== *)
(** ** Grouping: the scenarios *)

(** The function with an operation that looks at the elements left only
    is [Edges.find_edges_connections]. *)
Lemma find_edges_connections_by_order set_order df :
  EdgesPy.find_edges_connections_by
    (fun a b => set_order (filter (fun s => negb (Edges.mem s b)) a)) df
  = Edges.find_edges_connections set_order df.
Proof. reflexivity. Qed.

(** The test vectors of the set: [list(set(a) - set(b))] as CPython 3.11
    returns it, where the result is made anew, where it is a copy of the
    first set with dummies, and where the tables were grown. *)
Example list_difference_vectors :
  PySet.list_difference [4; 5] [1; 2; 3] = [4; 5] /\
  PySet.list_difference [3; 8] [1; 2] = [8; 3] /\
  PySet.list_difference [0; 8; 16; 24] [8] = [0; 16; 24] /\
  PySet.list_difference [1; 9; 17; 25; 33] [1] = [33; 25; 9; 17] /\
  PySet.list_difference [-1; -2; 7; 15] [] = [7; 15; -1; -2] /\
  PySet.list_difference [3; 11; 19; 27; 35; 43; 51; 59; 67; 75; 83; 91; 99] [11; 99]
  = [3; 35; 67; 59; 91; 43; 75; 19; 51; 83; 27].
Proof. repeat split; vm_compute; reflexivity. Qed.

(** C8. On the rows (1, 2), (2, 3), (4, None), (5, None) the output has
    five rows: the group 0 with the members 1, 2 and 3, and the singletons
    4 and 5 numbered 1 and 2, from the largest group id plus one on, in
    ascending order of their values; the group ids are 0, 1 and 2.  The
    singletons are numbered in the order in which CPython iterates the set
    of those left, which is 4, 5 for this set: the two sit in the slots 4
    and 5 of its table. *)
Theorem scenario_three_and_two_singletons :
  EdgesPy.find_edges_connections Edges.scenario_rows
    = Edges.Table [(0, 1); (0, 2); (0, 3); (1, 4); (2, 5)] /\
  List.length (Edges.rows_of (EdgesPy.find_edges_connections Edges.scenario_rows))
    = 5%nat /\
  Edges.sorted_set
    (map fst (Edges.rows_of (EdgesPy.find_edges_connections Edges.scenario_rows)))
    = [0; 1; 2] /\
  map snd (filter (fun r => fst r =? 0)
             (Edges.rows_of (EdgesPy.find_edges_connections Edges.scenario_rows)))
    = [1; 2; 3] /\
  map snd (filter (fun r => negb (fst r =? 0))
             (Edges.rows_of (EdgesPy.find_edges_connections Edges.scenario_rows)))
    = [4; 5].
Proof. repeat split; vm_compute; reflexivity. Qed.

(** The ascending order is that of this table, not a rule: of the
    singletons 3 and 8, the set yields 8 first (it sits in the slot 0), and
    8 gets the smaller group id. *)
Example singletons_in_set_order :
  EdgesPy.find_edges_connections EdgesPy.rows_3_8
  = Edges.Table [(0, 1); (0, 2); (1, 8); (2, 3)].
Proof. vm_compute. reflexivity. Qed.

(** C7 fails on a row whose two values are one and the same: the rows
    (1, 1) and (1, 1) are rows (a, b) and (b, c), the graph has the single
    vertex 1 with a loop, its component has one member, and iterating over
    what [itemgetter] returns for one index raises [TypeError].  With a
    second value in reach of 1 the same row is harmless. *)
Theorem self_pair_raises (set_order : list Z -> list Z) :
  Edges.find_edges_connections set_order [[Some 1; Some 1]] = Edges.TypeError /\
  Edges.find_edges_connections set_order [[Some 1; Some 1]; [Some 1; Some 1]]
    = Edges.TypeError /\
  Edges.find_edges_connections set_order
    [[Some 1; Some 2]; [Some 2; Some 3]; [Some 7; Some 7]] = Edges.TypeError /\
  Edges.find_edges_connections set_order [[Some 1; Some 1]; [Some 1; Some 7]]
    = Edges.Table (([(0, 1); (0, 7)] ++ Edges.number_from 1 (set_order []))%list).
Proof. repeat split; vm_compute; reflexivity. Qed.

(* ================================================================== *)
(** ** Grouping: components are closed under the edges *)

Lemma mem_In x l : Edges.mem x l = true <-> In x l.
Proof.
  unfold Edges.mem. rewrite existsb_exists. split.
  - intros (y & Hy & E). apply Z.eqb_eq in E. subst. exact Hy.
  - intros H. exists x. split; [exact H | apply Z.eqb_refl].
Qed.

Lemma filter_length_le {A} (p q : A -> bool) l :
  (forall v, In v l -> p v = true -> q v = true) ->
  (List.length (filter p l) <= List.length (filter q l))%nat /\
  (List.length (filter p l) = List.length (filter q l) -> filter p l = filter q l).
Proof.
  induction l as [| a l IH]; intros H; simpl; [auto |].
  destruct IH as [IH1 IH2]; [intros v Hv; apply H; right; exact Hv |].
  destruct (p a) eqn:Pa.
  - rewrite (H a (or_introl eq_refl) Pa). simpl. split; [lia |].
    intros E. f_equal. apply IH2. lia.
  - destruct (q a); simpl; [| auto].
    split; [lia |]. intros E. exfalso. lia.
Qed.

Lemma filter_full {A} (p : A -> bool) l :
  (List.length l <= List.length (filter p l))%nat -> filter p l = l.
Proof.
  induction l as [| a l IH]; simpl; [reflexivity |].
  destruct (p a); simpl; intros H.
  - f_equal. apply IH. lia.
  - exfalso. assert (List.length (filter p l) <= List.length l)%nat
      by (clear; induction l as [| b l IHl]; simpl; [lia | destruct (p b); simpl; lia]).
    lia.
Qed.

Section Closure.
Variable V : list Z.
Variable E : list (Z * Z).

Lemma grow_shape S :
  Edges.grow V E S = filter (fun v => Edges.mem v S || Edges.adjacent E S v) V.
Proof. reflexivity. Qed.

Lemma in_grow S v :
  In v (Edges.grow V E S) <->
  In v V /\ (In v S \/ Edges.adjacent E S v = true).
Proof.
  unfold Edges.grow. rewrite filter_In, orb_true_iff, mem_In. tauto.
Qed.

Lemma grow_fix_or_longer q :
  let S := filter q V in
  Edges.grow V E S = S \/ (List.length S < List.length (Edges.grow V E S))%nat.
Proof.
  intros S. unfold Edges.grow.
  destruct (filter_length_le q (fun v => Edges.mem v S || Edges.adjacent E S v) V)
    as [Hle Heq].
  { intros v Hv Qv. apply orb_true_iff. left. apply mem_In.
    unfold S. apply filter_In. auto. }
  fold S in Hle, Heq.
  destruct (Nat.eq_dec (List.length S)
              (List.length (filter (fun v => Edges.mem v S || Edges.adjacent E S v) V)))
    as [Eq | Ne].
  - left. symmetry. apply Heq. exact Eq.
  - right. lia.
Qed.

Lemma closure_fix n S : Edges.grow V E S = S -> Edges.closure n V E S = S.
Proof.
  intros H. induction n as [| n IH]; simpl; [reflexivity |]. rewrite H. exact IH.
Qed.

Lemma closure_stable_from n :
  forall q, (List.length V <= n + List.length (filter q V))%nat ->
    Edges.grow V E (Edges.closure n V E (filter q V)) = Edges.closure n V E (filter q V).
Proof.
  induction n as [| n IH]; intros q H; simpl.
  - rewrite (filter_full q V) by lia.
    unfold Edges.grow. apply filter_full.
    assert (Eq : filter (fun v => Edges.mem v V || Edges.adjacent E V v) V = V).
    { clear. rewrite <- (filter_ext_in (fun _ => true)); [| intros v Hv; symmetry;
        apply orb_true_iff; left; apply mem_In; exact Hv].
      induction V as [| a l IHl]; simpl; congruence. }
    rewrite Eq. lia.
  - destruct (grow_fix_or_longer q) as [Fix | Longer].
    + rewrite Fix. rewrite (closure_fix n _ Fix). exact Fix.
    + rewrite grow_shape in *. apply IH. lia.
Qed.

(** The cluster of a vertex is a fixed point of [grow]. *)
Lemma cluster_stable v0 :
  In v0 V -> Edges.grow V E (Edges.cluster V E v0) = Edges.cluster V E v0.
Proof.
  intros Hv. unfold Edges.cluster.
  destruct (List.length V) as [| n] eqn:L; [destruct V; [contradiction | discriminate] |].
  simpl. rewrite grow_shape. apply closure_stable_from.
  assert (In v0 (filter (fun v => Edges.mem v [v0] || Edges.adjacent E [v0] v) V)).
  { apply filter_In. split; [exact Hv |]. apply orb_true_iff. left.
    apply mem_In. left. reflexivity. }
  destruct (filter _ V); [contradiction | simpl; lia].
Qed.

Lemma closure_extensive n S v :
  In v V -> In v S -> In v (Edges.closure n V E S).
Proof.
  intros Hv. revert S. induction n as [| n IH]; intros S Hs; simpl; [exact Hs |].
  apply IH. apply in_grow. auto.
Qed.

Lemma cluster_self v0 : In v0 V -> In v0 (Edges.cluster V E v0).
Proof. intros Hv. apply closure_extensive; [exact Hv | left; reflexivity]. Qed.

Lemma cluster_closed v0 u v :
  In v0 V -> In u (Edges.cluster V E v0) -> In v V ->
  In (u, v) E \/ In (v, u) E ->
  In v (Edges.cluster V E v0).
Proof.
  intros Hv0 Hu Hv He.
  rewrite <- (cluster_stable v0 Hv0). apply in_grow. split; [exact Hv |].
  right. unfold Edges.adjacent. apply existsb_exists.
  destruct He as [He | He].
  - exists (u, v). split; [exact He |]. simpl. apply orb_true_iff. left.
    apply andb_true_iff. split; [apply mem_In; exact Hu | apply Z.eqb_refl].
  - exists (v, u). split; [exact He |]. simpl. apply orb_true_iff. right.
    apply andb_true_iff. split; [apply mem_In; exact Hu | apply Z.eqb_refl].
Qed.

End Closure.

(** *** The list of components *)

Section Components.
Variable V : list Z.
Variable E : list (Z * Z).

Let step (cs : list (list Z)) (v : Z) : list (list Z) :=
  if existsb (Edges.mem v) cs then cs else (cs ++ [Edges.cluster V E v])%list.

Lemma components_shape : Edges.components V E = fold_left step V [].
Proof. reflexivity. Qed.

Lemma step_keeps vs : forall cs comp, In comp cs -> In comp (fold_left step vs cs).
Proof.
  induction vs as [| v vs IH]; intros cs comp H; simpl; [exact H |].
  apply IH. unfold step. destruct (existsb (Edges.mem v) cs); [exact H |].
  apply in_or_app. left. exact H.
Qed.

Lemma step_origin vs : forall cs comp,
  In comp (fold_left step vs cs) ->
  In comp cs \/ exists v0, In v0 vs /\ comp = Edges.cluster V E v0.
Proof.
  induction vs as [| v vs IH]; intros cs comp H; simpl in H; [left; exact H |].
  destruct (IH _ _ H) as [H1 | (v0 & Hv0 & ->)].
  - unfold step in H1. destruct (existsb (Edges.mem v) cs); [left; exact H1 |].
    apply in_app_or in H1. destruct H1 as [H1 | [<- | []]]; [left; exact H1 |].
    right. exists v. split; [left; reflexivity | reflexivity].
  - right. exists v0. split; [right; exact Hv0 | reflexivity].
Qed.

Lemma step_covers vs : forall cs v,
  In v vs -> In v V -> exists comp, In comp (fold_left step vs cs) /\ In v comp.
Proof.
  induction vs as [| w vs IH]; intros cs v Hin HV; [contradiction |].
  simpl. destruct Hin as [-> | Hin]; [| apply IH; assumption].
  unfold step at 2. destruct (existsb (Edges.mem v) cs) eqn:Ex.
  - apply existsb_exists in Ex. destruct Ex as (comp & Hc & Hm).
    exists comp. split; [apply step_keeps; exact Hc | apply mem_In; exact Hm].
  - exists (Edges.cluster V E v). split; [| apply cluster_self; exact HV].
    apply step_keeps. apply in_or_app. right. left. reflexivity.
Qed.

(** Every component is the cluster of a vertex, and every vertex is in a
    component. *)
Lemma component_is_cluster comp :
  In comp (Edges.components V E) ->
  exists v0, In v0 V /\ comp = Edges.cluster V E v0.
Proof.
  rewrite components_shape. intros H.
  destruct (step_origin _ _ _ H) as [[] | H']. exact H'.
Qed.

Lemma vertex_has_component v :
  In v V -> exists comp, In comp (Edges.components V E) /\ In v comp.
Proof. intros H. rewrite components_shape. apply step_covers; exact H. Qed.

End Components.

(** *** The rows of the components *)



(** *** From the table to the graph *)

Lemma in_sort_values x l : In x (Edges.sort_values l) <-> In x l.
Proof.
  unfold Edges.sort_values. split; intros H.
  - eapply Permutation_in; [apply Permutation_sym, sorted_perm | exact H].
  - eapply Permutation_in; [apply sorted_perm | exact H].
Qed.

Lemma in_drop_seen {A} (eqb : A -> A -> bool) :
  (forall x y, eqb x y = true <-> x = y) ->
  forall l seen x, In x (Edges.drop_seen eqb seen l) <-> In x l /\ ~ In x seen.
Proof.
  intros Heq. induction l as [| y l IH]; intros seen x; simpl; [tauto |].
  destruct (existsb (eqb y) seen) eqn:Ex.
  - apply existsb_exists in Ex. destruct Ex as (z & Hz & Ez).
    apply Heq in Ez. subst z. rewrite IH. split.
    + intros [H1 H2]. auto.
    + intros [[-> | H1] H2]; [contradiction | auto].
  - assert (Ny : ~ In y seen).
    { intros Hy. assert (existsb (eqb y) seen = true); [| congruence].
      apply existsb_exists. exists y. split; [exact Hy | apply Heq; reflexivity]. }
    simpl. rewrite IH. simpl. split.
    + intros [Exy | [H1 H2]]; [subst; auto | split; [auto | tauto]].
    + intros [[Exy | H1] H2]; [left; exact Exy |].
      destruct (eqb y x) eqn:Eyx.
      * left. apply Heq. exact Eyx.
      * right. split; [exact H1 |]. intros [Exy | H3]; [| contradiction].
        apply Heq in Exy. congruence.
Qed.

Lemma in_drop_duplicates_z x l : In x (Edges.drop_duplicates Z.eqb l) <-> In x l.
Proof.
  unfold Edges.drop_duplicates. rewrite (in_drop_seen Z.eqb Z.eqb_eq). simpl. tauto.
Qed.

Lemma pair_eqb_eq p q : Edges.pair_eqb p q = true <-> p = q.
Proof.
  destruct p as [a b], q as [c d]. unfold Edges.pair_eqb. simpl.
  rewrite andb_true_iff, !Z.eqb_eq. split; [intros [-> ->]; reflexivity |].
  intros H. injection H as -> ->. auto.
Qed.

Lemma in_drop_duplicates_pair e l :
  In e (Edges.drop_duplicates Edges.pair_eqb l) <-> In e l.
Proof.
  unfold Edges.drop_duplicates. rewrite (in_drop_seen Edges.pair_eqb pair_eqb_eq).
  simpl. tauto.
Qed.

Lemma in_sorted_set x l : In x (Edges.sorted_set l) <-> In x l.
Proof. unfold Edges.sorted_set. rewrite in_sort_values. apply in_drop_duplicates_z. Qed.

Lemma in_combinations2 e : forall x y,
  In (x, y) (Edges.combinations2 e) -> In x e /\ In y e /\ (NoDup e -> x <> y).
Proof.
  induction e as [| z e IH]; intros x y H; simpl in H; [contradiction |].
  apply in_app_or in H. destruct H as [H | H].
  - apply in_map_iff in H. destruct H as (w & Ew & Hw). injection Ew as <- <-.
    split; [left; reflexivity | split; [right; exact Hw |]].
    intros N. inversion N; subst. intros ->. contradiction.
  - destruct (IH _ _ H) as (Hx & Hy & Hn).
    split; [right; exact Hx | split; [right; exact Hy |]].
    intros N. inversion N; subst. auto.
Qed.


Lemma pair_origin df x y :
  In (x, y) (EdgesGraph.pairs_of df) ->
  exists r, In r df /\ In x (Edges.present r) /\ In y (Edges.present r) /\
            (NoDup (Edges.present r) -> x <> y).
Proof.
  unfold EdgesGraph.pairs_of. intros H.
  apply in_concat in H. destruct H as (l & Hl & Hxy).
  apply in_map_iff in Hl. destruct Hl as (e & <- & He).
  apply filter_In in He. destruct He as [He _].
  apply in_map_iff in He. destruct He as (r & <- & Hr).
  apply filter_In in Hr. destruct Hr as [Hr _].
  destruct (in_combinations2 _ _ _ Hxy) as (Hx & Hy & Hn).
  exists r. split; [exact Hr |].
  split; [apply in_sort_values; exact Hx |].
  split; [apply in_sort_values; exact Hy |].
  intros N. apply Hn. unfold Edges.sort_values.
  eapply Permutation_NoDup; [apply sorted_perm | exact N].
Qed.


Lemma vertex_of_pair df x y :
  In (x, y) (EdgesGraph.pairs_of df) ->
  In x (EdgesGraph.vertices_of df) /\ In y (EdgesGraph.vertices_of df).
Proof.
  intros H. unfold EdgesGraph.vertices_of.
  split; apply in_sorted_set; apply in_flat_map; exists (x, y);
    (split; [exact H | simpl; auto]).
Qed.

Lemma vertex_has_pair df v :
  In v (EdgesGraph.vertices_of df) ->
  exists x y, In (x, y) (EdgesGraph.pairs_of df) /\ (v = x \/ v = y).
Proof.
  unfold EdgesGraph.vertices_of. intros H. rewrite in_sorted_set in H.
  apply in_flat_map in H. destruct H as ([x y] & Hxy & Hv).
  exists x, y. split; [exact Hxy |]. simpl in Hv.
  destruct Hv as [<- | [<- | []]]; auto.
Qed.

Lemma find_edges_connections_eq set_order df :
  Edges.find_edges_connections set_order df =
  let edges_s :=
    Edges.sorted_set
      (List.concat
         (filter (fun e => Nat.eqb (List.length e) 1)
            (map (fun r => Edges.sort_values (Edges.present r)) (Edges.dropna_all df)))) in
  match EdgesGraph.edges_of df with
  | [] => Edges.Table (Edges.number_from 0 edges_s)
  | _ =>
      let c := Edges.components (EdgesGraph.vertices_of df) (EdgesGraph.edges_of df) in
      match Edges.connection_rows 0 c with
      | None => Edges.TypeError
      | Some connections =>
          Edges.Table
            (connections ++
             Edges.number_from (Z.of_nat (List.length c))
               (set_order
                  (filter (fun s => negb (Edges.mem s (map snd connections))) edges_s)))%list
      end
  end.
Proof.
  unfold Edges.find_edges_connections, EdgesGraph.edges_of, EdgesGraph.vertices_of,
    EdgesGraph.pairs_of. cbv zeta.
  destruct (Edges.drop_duplicates Edges.pair_eqb _); reflexivity.
Qed.

(** *** Transitive grouping, for tables in which no row repeats a value *)




(* ================================================================== *)
(** ** The helpers of [helper/utils.py] *)

Lemma digit_not_upper c : Chars.is_digit c = true -> Chars.is_upper c = false.
Proof. unfold Chars.is_digit, Chars.is_upper. lia. Qed.

Lemma lower_digits s : Chars.all_chars Chars.is_digit s = true -> Chars.lower s = s.
Proof.
  induction s as [| c s IH]; simpl; [reflexivity |].
  intros H. apply andb_true_iff in H as [Hc Hs].
  unfold Chars.lower in *. simpl. rewrite (IH Hs). unfold Chars.lower_char.
  rewrite (digit_not_upper c Hc). reflexivity.
Qed.

Lemma keep_digits s :
  Chars.all_chars Chars.is_digit s = true -> Utils.sub_non_alnum s = s.
Proof.
  induction s as [| c s IH]; simpl; [reflexivity |].
  intros H. apply andb_true_iff in H as [Hc Hs].
  unfold Utils.sub_non_alnum in *. simpl. rewrite Hc, orb_true_r, (IH Hs). reflexivity.
Qed.

Lemma digits_not_listed s :
  Chars.isdigit s = true -> existsb (String.eqb s) Utils.default_empty_values = false.
Proof.
  destruct s as [| c t]; [discriminate |]. simpl. intros H.
  apply andb_true_iff in H as [Hc _]. revert Hc.
  destruct c as [[] [] [] [] [] [] [] []]; try discriminate; reflexivity.
Qed.

Lemma isdigit_all s : Chars.isdigit s = true -> Chars.all_chars Chars.is_digit s = true.
Proof. destruct s; [discriminate | exact (fun H => H)]. Qed.

Lemma is_empty_digits rd s :
  Chars.isdigit s = true -> Utils.is_empty rd (VStr s) true None = false.
Proof.
  intros H. unfold Utils.is_empty. simpl.
  rewrite (lower_digits s (isdigit_all s H)), (keep_digits s (isdigit_all s H)).
  exact (digits_not_listed s H).
Qed.

Lemma uint_digits d :
  Chars.all_chars Chars.is_digit (NilEmpty.string_of_uint d) = true.
Proof. induction d; simpl; try reflexivity; exact IHd. Qed.

Lemma dec_shape z :
  exists ds, Chars.isdigit ds = true /\
             (Text.dec z = ds \/ Text.dec z = String "-" ds).
Proof.
  unfold Text.dec.
  destruct (Z.to_int z) as [d | d]; simpl; unfold NilZero.string_of_uint.
  - exists (match d with Decimal.Nil => "0"%string | _ => NilEmpty.string_of_uint d end).
    split; [| left; reflexivity].
    destruct d; try reflexivity; simpl; apply uint_digits.
  - exists (match d with Decimal.Nil => "0"%string | _ => NilEmpty.string_of_uint d end).
    split; [| right; reflexivity].
    destruct d; try reflexivity; simpl; apply uint_digits.
Qed.

Lemma lstrip_digits s :
  Chars.isdigit s = true -> Chars.lstrip_char "-" s = s.
Proof.
  destruct s as [| c t]; [discriminate |]. simpl. intros H.
  apply andb_true_iff in H as [Hc _].
  destruct (Ascii.eqb_spec c "-") as [-> |]; [discriminate | reflexivity].
Qed.

(** X1. [is_integer] accepts an ASCII text exactly when it is made of any
    number of minus signs followed by one digit at least: "-12" and "12",
    but "--12" too, and neither "" nor "-". *)
Theorem is_integer_text (s : string) :
  Chars.is_ascii s = true ->
  (Utils.is_integer (VStr s) = true <->
   exists n digits, s = (minus_signs n ++ digits)%string /\ Chars.isdigit digits = true).
Proof.
  intros _. simpl. split.
  - induction s as [| c s IH]; [discriminate |].
    simpl. destruct (Ascii.eqb_spec c "-") as [-> | Hc].
    + intros H. destruct (IH H) as (n & ds & -> & Hd).
      exists (S n), ds. split; [reflexivity | exact Hd].
    + intros H. exists O, (String c s). split; [reflexivity | exact H].
  - intros (n & ds & -> & Hd).
    induction n as [| n IH]; simpl.
    + change (minus_signs 0 ++ ds)%string with ds.
      rewrite (lstrip_digits ds Hd). exact Hd.
    + exact IH.
Qed.

(** X1 at the text --12. *)
Lemma is_integer_text_witness :
  Utils.is_integer (VStr "--12") = true <->
  exists n digits, "--12"%string = (minus_signs n ++ digits)%string /\
                   Chars.isdigit digits = true.
Proof. apply (is_integer_text "--12"). reflexivity. Defined.

(** X2. The decimal text of every integer, negative ones included, is
    accepted by [is_integer], as the integer itself is. *)
Theorem is_integer_of_int (z : Z) :
  Utils.is_integer (VInt z) = true /\ Utils.is_integer (VStr (py_str (VInt z))) = true.
Proof.
  split; [reflexivity |]. simpl.
  destruct (dec_shape z) as (ds & Hd & [-> | ->]).
  - rewrite (lstrip_digits ds Hd). exact Hd.
  - simpl. rewrite (lstrip_digits ds Hd). exact Hd.
Qed.

(** X3. No integer is a missing value: [is_empty] is false on every
    [int], 0 included. *)
Theorem is_empty_int (rd : string -> string) (z : Z) :
  Utils.is_empty rd (VInt z) true None = false.
Proof.
  unfold Utils.is_empty. simpl.
  destruct (dec_shape z) as (ds & Hd & [-> | ->]).
  - rewrite (lower_digits ds (isdigit_all ds Hd)), (keep_digits ds (isdigit_all ds Hd)).
    exact (digits_not_listed ds Hd).
  - unfold Chars.lower. simpl. fold (Chars.lower ds).
    rewrite (lower_digits ds (isdigit_all ds Hd)).
    unfold Utils.sub_non_alnum. simpl. fold (Utils.sub_non_alnum ds).
    rewrite (keep_digits ds (isdigit_all ds Hd)).
    exact (digits_not_listed ds Hd).
Qed.

Lemma map_chars_app f a b :
  Chars.map_chars f (a ++ b) = (Chars.map_chars f a ++ Chars.map_chars f b)%string.
Proof. induction a as [| c a IH]; simpl; [reflexivity | rewrite IH; reflexivity]. Qed.

Lemma keep_app p a b :
  Chars.keep p (a ++ b) = (Chars.keep p a ++ Chars.keep p b)%string.
Proof.
  induction a as [| c a IH]; simpl; [reflexivity |].
  rewrite IH. destruct (p c); reflexivity.
Qed.

(** X4. A character that is neither a letter nor a digit makes no
    difference to [is_empty], wherever it stands in the text: " N/A " is
    judged as "NA" is. *)
Theorem is_empty_ignores_separators (rd : string -> string) (a b : string) (c : ascii) :
  Chars.is_ascii_char c = true ->
  is_alnum c = false ->
  Utils.is_empty rd (VStr (a ++ String c b)) true None =
  Utils.is_empty rd (VStr (a ++ b)) true None.
Proof.
  intros _ Hc. unfold Utils.is_empty. simpl.
  unfold is_alnum in Hc.
  apply orb_false_iff in Hc as [Hc Hd]. apply orb_false_iff in Hc as [Hu Hl].
  unfold Chars.lower, Utils.sub_non_alnum.
  assert (E : Chars.lower_char c = c) by (unfold Chars.lower_char; rewrite Hu; reflexivity).
  rewrite !map_chars_app, !keep_app. simpl.
  rewrite E, Hl, Hd. reflexivity.
Qed.

(** X4 at the slash of "N/A". *)
Lemma is_empty_ignores_separators_witness :
  Utils.is_empty (fun s => s) (VStr "N/A") true None =
  Utils.is_empty (fun s => s) (VStr "NA") true None.
Proof.
  apply (is_empty_ignores_separators (fun s => s) "N" "A" "/"); reflexivity.
Defined.

(** *** [drop_duplicates_from_list] and [remove_duplicates_by_key] *)

Section Duplicates.

Context {A : Type} (eqb : A -> A -> bool).
Hypothesis eqb_eq : forall x y, eqb x y = true <-> x = y.

Lemma contains_In l x : Utils.contains eqb l x = true <-> In x l.
Proof.
  unfold Utils.contains. rewrite existsb_exists. split.
  - intros (y & Hy & E). apply eqb_eq in E. subst. exact Hy.
  - intros H. exists x. split; [exact H | apply eqb_eq; reflexivity].
Qed.

Lemma contains_false l x : Utils.contains eqb l x = false <-> ~ In x l.
Proof.
  rewrite <- contains_In. destruct (Utils.contains eqb l x); split; intros H;
    congruence || (exfalso; apply H; reflexivity) || discriminate.
Qed.

Local Notation "'keep_new'" :=
  (fun elements_temp i =>
     if negb (Utils.contains eqb elements_temp i) then (elements_temp ++ [i])%list
     else elements_temp).

Lemma fold_new_in l : forall acc x,
  In x (fold_left keep_new l acc) <-> In x acc \/ In x l.
Proof.
  induction l as [| i l IH]; intros acc x; simpl; [tauto |].
  rewrite IH. cbv beta.
  destruct (Utils.contains eqb acc i) eqn:E; simpl.
  - apply contains_In in E. split; [tauto |].
    intros [H | [<- | H]]; auto.
  - rewrite in_app_iff. simpl. tauto.
Qed.

Lemma fold_new_nodup l : forall acc,
  NoDup acc -> NoDup (fold_left keep_new l acc).
Proof.
  induction l as [| i l IH]; intros acc H; simpl; [exact H |].
  apply IH. cbv beta.
  destruct (Utils.contains eqb acc i) eqn:E; simpl; [exact H |].
  apply contains_false in E.
  apply NoDup_rev in H. rewrite <- (rev_involutive (acc ++ [i])).
  apply NoDup_rev. rewrite rev_app_distr. simpl.
  constructor; [rewrite <- in_rev; exact E | exact H].
Qed.

Lemma fold_new_fixed l : forall acc,
  NoDup (acc ++ l) -> fold_left keep_new l acc = (acc ++ l)%list.
Proof.
  induction l as [| i l IH]; intros acc H; simpl; [rewrite app_nil_r; reflexivity |].
  cbv beta.
  assert (E : Utils.contains eqb acc i = false).
  { apply contains_false. intros Hin.
    apply NoDup_remove_2 in H. apply H. apply in_or_app. left. exact Hin. }
  rewrite E. simpl. rewrite IH; rewrite <- app_assoc; [reflexivity | exact H].
Qed.

(** X5. [drop_duplicates_from_list] returns a list without duplicates that
    has exactly the elements of its argument. *)
Theorem drop_duplicates_from_list_set (elements : list A) :
  NoDup (Utils.drop_duplicates_from_list eqb elements) /\
  forall x, In x (Utils.drop_duplicates_from_list eqb elements) <-> In x elements.
Proof.
  split.
  - apply (fold_new_nodup elements []). constructor.
  - intros x. unfold Utils.drop_duplicates_from_list.
    change (In x (fold_left keep_new elements []) <-> In x elements).
    rewrite fold_new_in. simpl. tauto.
Qed.

(** X6. A list without duplicates comes back from
    [drop_duplicates_from_list] as it is, in its order; so dropping the
    duplicates of any list a second time changes nothing. *)
Theorem drop_duplicates_from_list_fixed (elements : list A) :
  (NoDup elements -> Utils.drop_duplicates_from_list eqb elements = elements) /\
  Utils.drop_duplicates_from_list eqb (Utils.drop_duplicates_from_list eqb elements)
  = Utils.drop_duplicates_from_list eqb elements.
Proof.
  split; [intros H; apply (fold_new_fixed elements []); exact H |].
  apply (fold_new_fixed _ []). simpl.
  apply (fold_new_nodup elements []). constructor.
Qed.

End Duplicates.

(** X5 on the integers 1, 2, 1, 3, 2. *)
Lemma drop_duplicates_from_list_set_witness :
  NoDup (Utils.drop_duplicates_from_list Z.eqb [1; 2; 1; 3; 2]) /\
  forall x, In x (Utils.drop_duplicates_from_list Z.eqb [1; 2; 1; 3; 2])
            <-> In x [1; 2; 1; 3; 2].
Proof. exact (drop_duplicates_from_list_set Z.eqb Z.eqb_eq [1; 2; 1; 3; 2]). Defined.

(** X6 on the integers 3, 1, 2. *)
Lemma drop_duplicates_from_list_fixed_witness :
  (NoDup [3; 1; 2] -> Utils.drop_duplicates_from_list Z.eqb [3; 1; 2] = [3; 1; 2]) /\
  Utils.drop_duplicates_from_list Z.eqb (Utils.drop_duplicates_from_list Z.eqb [3; 1; 2])
  = Utils.drop_duplicates_from_list Z.eqb [3; 1; 2].
Proof. exact (drop_duplicates_from_list_fixed Z.eqb Z.eqb_eq [3; 1; 2]). Defined.

Section DuplicatesByKey.

Context {A : Type} (eqb : A -> A -> bool) (hashable : A -> bool).

(** The dicts before the first one that stops the run: each has a value
    with a hash under the key. *)
Local Notation "'passes' key before" :=
  (forall d', In d' before ->
     exists id', Utils.lookup d' key = Some id' /\ hashable id' = true)
  (at level 10, key at level 9, before at level 9).

Lemma remove_duplicates_from_first key l : forall seen,
  match Utils.remove_duplicates_from eqb hashable seen l key with
  | Utils.Returned _ => passes key l
  | Utils.KeyError =>
      exists before d after, l = (before ++ d :: after)%list /\
        Utils.lookup d key = None /\ passes key before
  | Utils.TypeError =>
      exists before d after id, l = (before ++ d :: after)%list /\
        Utils.lookup d key = Some id /\ hashable id = false /\ passes key before
  end.
Proof.
  induction l as [| d l IH]; intros seen; [intros d [] |].
  cbn [Utils.remove_duplicates_from].
  destruct (Utils.lookup d key) as [id |] eqn:L.
  - destruct (hashable id) eqn:Hh; simpl negb; cbv iota.
    + assert (Step : forall seen',
                match
                  match Utils.remove_duplicates_from eqb hashable seen' l key with
                  | Utils.Returned out => Utils.Returned (d :: out)
                  | raised => raised
                  end
                with
                | Utils.Returned _ => passes key (d :: l)
                | Utils.KeyError =>
                    exists before d0 after, (d :: l = before ++ d0 :: after)%list /\
                      Utils.lookup d0 key = None /\ passes key before
                | Utils.TypeError =>
                    exists before d0 after id0, (d :: l = before ++ d0 :: after)%list /\
                      Utils.lookup d0 key = Some id0 /\ hashable id0 = false /\
                      passes key before
                end).
      { intros seen'. specialize (IH seen').
        destruct (Utils.remove_duplicates_from eqb hashable seen' l key).
        - intros d' [<- | Hd']; [eauto | apply IH, Hd'].
        - destruct IH as (b & d0 & a & -> & L0 & Hb).
          exists (d :: b), d0, a. split; [reflexivity |]. split; [exact L0 |].
          intros d' [<- | Hd']; [eauto | apply Hb, Hd'].
        - destruct IH as (b & d0 & a & i & -> & L0 & H0 & Hb).
          exists (d :: b), d0, a, i. split; [reflexivity |]. split; [exact L0 |].
          split; [exact H0 |].
          intros d' [<- | Hd']; [eauto | apply Hb, Hd']. }
      destruct (negb (Utils.contains eqb seen id)); [apply Step |].
      specialize (Step seen).
      destruct (Utils.remove_duplicates_from eqb hashable seen l key); exact Step.
    + exists [], d, l, id. split; [reflexivity |]. split; [exact L |].
      split; [exact Hh | intros d' []].
  - exists [], d, l. split; [reflexivity |]. split; [exact L | intros d' []].
Qed.

(** The first dict that stops the run is one dict. *)
Lemma first_stop_unique key (b1 b2 a1 a2 : list (list (string * A))) d1 d2 :
  (b1 ++ d1 :: a1 = b2 ++ d2 :: a2)%list ->
  passes key b1 -> passes key b2 ->
  (forall id, Utils.lookup d1 key = Some id -> hashable id = false) ->
  (forall id, Utils.lookup d2 key = Some id -> hashable id = false) ->
  d1 = d2.
Proof.
  revert b2. induction b1 as [| x b1 IH]; intros [| y b2] E P1 P2 S1 S2;
    simpl in E; injection E as E1 E2.
  - exact E1.
  - subst y. destruct (P2 d1 (or_introl eq_refl)) as (i & Li & Hi).
    rewrite (S1 i Li) in Hi. discriminate.
  - subst x. destruct (P1 d2 (or_introl eq_refl)) as (i & Li & Hi).
    rewrite (S2 i Li) in Hi. discriminate.
  - apply (IH b2 E2); auto.
    + intros d' Hd'. apply P1. right. exact Hd'.
    + intros d' Hd'. apply P2. right. exact Hd'.
Qed.

Lemma remove_duplicates_from_raises key l seen :
  (Utils.remove_duplicates_from eqb hashable seen l key = Utils.KeyError <->
   exists before d after, l = (before ++ d :: after)%list /\
     Utils.lookup d key = None /\ passes key before) /\
  (Utils.remove_duplicates_from eqb hashable seen l key = Utils.TypeError <->
   exists before d after id, l = (before ++ d :: after)%list /\
     Utils.lookup d key = Some id /\ hashable id = false /\ passes key before).
Proof.
  pose proof (remove_duplicates_from_first key l seen) as F.
  split; split.
  - intros E. rewrite E in F. exact F.
  - intros (b & d & a & -> & L & Hb).
    destruct (Utils.remove_duplicates_from eqb hashable seen (b ++ d :: a) key).
    + destruct (F d) as (i & Li & _); [apply in_or_app; right; left; reflexivity |].
      congruence.
    + reflexivity.
    + destruct F as (b' & d' & a' & i & E & L' & H' & Hb').
      assert (d = d').
      { apply (first_stop_unique key b b' a a' d d' E Hb Hb').
        - intros i0 Li. congruence.
        - intros i0 Li. congruence. }
      congruence.
  - intros E. rewrite E in F. exact F.
  - intros (b & d & a & i & -> & L & H & Hb).
    destruct (Utils.remove_duplicates_from eqb hashable seen (b ++ d :: a) key).
    + destruct (F d) as (i' & Li & Hi); [apply in_or_app; right; left; reflexivity |].
      congruence.
    + destruct F as (b' & d' & a' & E & L' & Hb').
      assert (d = d').
      { apply (first_stop_unique key b b' a a' d d' E Hb Hb').
        - intros i0 Li. congruence.
        - intros i0 Li. congruence. }
      congruence.
    + reflexivity.
Qed.

(** X7. [remove_duplicates_by_key] stops at the first dict of the list
    that has no value under the key or a value without a hash there: it
    raises [KeyError] exactly when that dict has no value under the key,
    and [TypeError] exactly when it has one without a hash; the dicts
    behind it do not matter. *)
Theorem remove_duplicates_by_key_error (dict_list : list (list (string * A))) (key : string) :
  (Utils.remove_duplicates_by_key eqb hashable dict_list key = Utils.KeyError <->
   exists before d after, dict_list = (before ++ d :: after)%list /\
     Utils.lookup d key = None /\
     forall d', In d' before ->
       exists id', Utils.lookup d' key = Some id' /\ hashable id' = true) /\
  (Utils.remove_duplicates_by_key eqb hashable dict_list key = Utils.TypeError <->
   exists before d after id, dict_list = (before ++ d :: after)%list /\
     Utils.lookup d key = Some id /\ hashable id = false /\
     forall d', In d' before ->
       exists id', Utils.lookup d' key = Some id' /\ hashable id' = true).
Proof. apply remove_duplicates_from_raises. Qed.

Hypothesis eqb_eq : forall x y, eqb x y = true <-> x = y.

Lemma remove_duplicates_from_some key l : forall seen out,
  Utils.remove_duplicates_from eqb hashable seen l key = Utils.Returned out ->
  (forall d, In d out ->
     In d l /\ forall id, Utils.lookup d key = Some id -> ~ In id seen) /\
  NoDup (map (fun d => Utils.lookup d key) out) /\
  (forall d, In d l -> exists id, Utils.lookup d key = Some id) /\
  (forall d id, In d l -> Utils.lookup d key = Some id ->
     In id seen \/ exists d', In d' out /\ Utils.lookup d' key = Some id).
Proof.
  induction l as [| d l IH]; intros seen out; simpl.
  - intros [= <-]. split; [intros d [] |]. split; [constructor |].
    split; [intros d [] | intros d id []].
  - destruct (Utils.lookup d key) as [id |] eqn:E; [| discriminate].
    destruct (hashable id); simpl; [| discriminate].
    destruct (Utils.contains eqb seen id) eqn:C; simpl.
    + intros R. destruct (IH _ _ R) as (I1 & I2 & I4 & I3).
      apply (contains_In eqb eqb_eq) in C.
      split; [| split; [exact I2 | split]].
      * intros d' Hd'. destruct (I1 d' Hd'). auto.
      * intros d' [<- | Hd']; [eauto | apply I4, Hd'].
      * intros d' id' [<- | Hd'] L; [left; congruence | eauto].
    + destruct (Utils.remove_duplicates_from eqb hashable (id :: seen) l key)
        as [out' | |] eqn:R; try discriminate.
      intros [= <-]. destruct (IH _ _ R) as (I1 & I2 & I4 & I3).
      apply (contains_false eqb eqb_eq) in C.
      split; [| split; [| split]].
      * intros d' [<- | Hd'].
        -- split; [auto |]. intros id' L. congruence.
        -- destruct (I1 d' Hd') as [Hin Hn]. split; [auto |].
           intros id' L Hs. apply (Hn id' L). right. exact Hs.
      * simpl. constructor; [| exact I2].
        rewrite E. intros Hin. apply in_map_iff in Hin as (d' & L & Hd').
        destruct (I1 d' Hd') as [_ Hn]. apply (Hn id L). left. reflexivity.
      * intros d' [<- | Hd']; [eauto | apply I4, Hd'].
      * intros d' id' [<- | Hd'] L.
        -- right. exists d. split; [left; reflexivity | exact L].
        -- destruct (I3 d' id' Hd' L) as [[<- | Hs] | (d2 & H2 & L2)].
           ++ right. exists d. split; [left; reflexivity | exact E].
           ++ left. exact Hs.
           ++ right. exists d2. split; [right; exact H2 | exact L2].
Qed.

(** X8. When [remove_duplicates_by_key] returns, the dicts it returns are
    dicts of the list it was given, no two of them have the same value
    under the key, and every value some dict of the list has under the key
    is the value of one that is returned. *)
Theorem remove_duplicates_by_key_distinct
    (dict_list out : list (list (string * A))) (key : string) :
  Utils.remove_duplicates_by_key eqb hashable dict_list key = Utils.Returned out ->
  (forall d, In d out -> In d dict_list) /\
  NoDup (map (fun d => Utils.lookup d key) out) /\
  (forall d, In d dict_list ->
     exists d', In d' out /\ Utils.lookup d' key = Utils.lookup d key).
Proof.
  intros R. apply remove_duplicates_from_some in R as (I1 & I2 & I4 & I3).
  split; [| split; [exact I2 |]].
  - intros d Hd. apply (I1 d Hd).
  - intros d Hd. destruct (I4 d Hd) as [id L]. rewrite L.
    destruct (I3 d id Hd L) as [[] | H]. exact H.
Qed.

End DuplicatesByKey.

(** X8 on three dicts, the third repeating the id of the first. *)
Lemma remove_duplicates_by_key_distinct_witness :
  (forall d, In d [[("id"%string, 1)]; [("id"%string, 2); ("x"%string, 5)]] ->
     In d [[("id"%string, 1)]; [("id"%string, 2); ("x"%string, 5)]; [("id"%string, 1); ("x"%string, 7)]]) /\
  NoDup (map (fun d => Utils.lookup d "id"%string) [[("id"%string, 1)]; [("id"%string, 2); ("x"%string, 5)]]) /\
  (forall d, In d [[("id"%string, 1)]; [("id"%string, 2); ("x"%string, 5)]; [("id"%string, 1); ("x"%string, 7)]] ->
     exists d', In d' [[("id"%string, 1)]; [("id"%string, 2); ("x"%string, 5)]] /\
                Utils.lookup d' "id"%string = Utils.lookup d "id"%string).
Proof.
  apply (remove_duplicates_by_key_distinct Z.eqb (fun _ => true) Z.eqb_eq
           [[("id"%string, 1)]; [("id"%string, 2); ("x"%string, 5)]; [("id"%string, 1); ("x"%string, 7)]]
           [[("id"%string, 1)]; [("id"%string, 2); ("x"%string, 5)]] "id"%string).
  reflexivity.
Defined.

(** *** [join_selected_value_in_list_of_dicts] *)

(** X9. A dict that has no entry for the key, or has [None] or the empty
    text under it, adds nothing to the joined text, not even a separator. *)
Theorem join_selected_skips_missing (rd : string -> string)
    (before after : list (list (string * value))) (d : list (string * value))
    (key sep : string) :
  Utils.lookup d key = None \/ Utils.lookup d key = Some VNone \/
  Utils.lookup d key = Some (VStr ""%string) ->
  Utils.join_selected_value_in_list_of_dicts rd (before ++ d :: after) key sep =
  Utils.join_selected_value_in_list_of_dicts rd (before ++ after) key sep.
Proof.
  intros H. unfold Utils.join_selected_value_in_list_of_dicts.
  rewrite !filter_app. simpl.
  assert (E : Utils.is_empty rd (Utils.get d key (VStr ""%string)) true None = true).
  { unfold Utils.get. destruct H as [-> | [-> | ->]]; reflexivity. }
  rewrite E. reflexivity.
Qed.

(** X9 at a dict without the key, between two that have it. *)
Lemma join_selected_skips_missing_witness :
  Utils.join_selected_value_in_list_of_dicts (fun s => s)
    ([[("a"%string, VInt 1)]] ++ [("b"%string, VInt 7)] :: [[("a"%string, VInt 2)]]) "a"%string ","%string =
  Utils.join_selected_value_in_list_of_dicts (fun s => s)
    ([[("a"%string, VInt 1)]] ++ [[("a"%string, VInt 2)]]) "a"%string ","%string.
Proof.
  apply (join_selected_skips_missing (fun s => s) [[("a"%string, VInt 1)]] [[("a"%string, VInt 2)]]
           [("b"%string, VInt 7)] "a"%string ","%string).
  left. reflexivity.
Defined.

(* ================================================================== *)
(** ** [convert_to_gtin] *)

Lemma convert_to_gtin_eq rd code gtin_length :
  Gtin.convert_to_gtin rd (Some code) gtin_length =
  if gtin_input code
  then gtin_check (Gtin.zfill gtin_length (Gtin.slice_from (- gtin_length) code))
  else Gtin.NoCode.
Proof.
  unfold Gtin.convert_to_gtin, gtin_input, gtin_check.
  destruct (Chars.isdigit code) eqn:D; simpl.
  - rewrite (is_empty_digits rd code D). simpl.
    destruct (String.length code) as [| [| [| [| [| [| [| [| n]]]]]]]]; try reflexivity.
    change (Nat.ltb (S (S (S (S (S (S (S (S n)))))))) 8) with false.
    rewrite orb_false_r.
    change (Nat.ltb 14 (S (S (S (S (S (S (S (S n))))))))) with (Nat.ltb 6 n).
    change (Nat.leb (S (S (S (S (S (S (S (S n)))))))) 14) with (Nat.leb n 6).
    destruct (Nat.leb_spec n 6) as [H | H], (Nat.ltb_spec 6 n) as [H' | H'];
      try lia; reflexivity.
  - rewrite orb_true_r. reflexivity.
Qed.

Lemma convert_to_gtin_none rd gtin_length :
  Gtin.convert_to_gtin rd None gtin_length = Gtin.NoCode.
Proof. reflexivity. Qed.

Lemma gtin_input_facts code :
  gtin_input code = true ->
  Chars.isdigit code = true /\ (8 <= String.length code <= 14)%nat.
Proof.
  unfold gtin_input. intros H.
  apply andb_true_iff in H as [H H3]. apply andb_true_iff in H as [H1 H2].
  apply Nat.leb_le in H2, H3. auto.
Qed.

Lemma all_chars_skip p n : forall s,
  Chars.all_chars p s = true -> Chars.all_chars p (Gtin.skip n s) = true.
Proof.
  induction n as [| n IH]; intros s H; [exact H |].
  destruct s as [| c s]; [exact H |]. simpl in *.
  apply andb_true_iff in H as [_ H]. apply IH. exact H.
Qed.

Lemma length_skip n : forall s,
  String.length (Gtin.skip n s) = (String.length s - n)%nat.
Proof.
  induction n as [| n IH]; intros s; simpl; [lia |].
  destruct s as [| c s]; simpl; [reflexivity | apply IH].
Qed.

Lemma length_app (a b : string) :
  String.length (a ++ b) = (String.length a + String.length b)%nat.
Proof. induction a as [| c a IH]; simpl; [reflexivity | rewrite IH; reflexivity]. Qed.

Lemma all_chars_app p a b :
  Chars.all_chars p (a ++ b) = Chars.all_chars p a && Chars.all_chars p b.
Proof.
  induction a as [| c a IH]; simpl; [reflexivity |].
  rewrite IH, andb_assoc. reflexivity.
Qed.

Lemma length_zeros n : String.length (Gtin.zeros n) = n.
Proof. induction n as [| n IH]; simpl; [reflexivity |]. unfold Gtin.zeros in IH. rewrite IH. reflexivity. Qed.

Lemma zeros_digits n : Chars.all_chars Chars.is_digit (Gtin.zeros n) = true.
Proof. induction n as [| n IH]; simpl; [reflexivity | exact IH]. Qed.

Lemma zfill_digits width s :
  Chars.all_chars Chars.is_digit s = true ->
  Gtin.zfill width s =
  (Gtin.zeros (Z.to_nat (width - Z.of_nat (String.length s))) ++ s)%string.
Proof.
  destruct s as [| c s]; intros H.
  - unfold Gtin.zfill. clear H. induction (Z.to_nat _) as [| n IH]; simpl; [reflexivity |].
    unfold Gtin.zeros in IH. simpl in IH. rewrite <- IH. reflexivity.
  - unfold Gtin.zfill. simpl in H. apply andb_true_iff in H as [Hc _].
    destruct (Ascii.eqb_spec c "+") as [-> |]; [discriminate |].
    destruct (Ascii.eqb_spec c "-") as [-> |]; [discriminate |]. reflexivity.
Qed.

Lemma last_char_none s : Gtin.last_char s = None <-> s = EmptyString.
Proof.
  split; [| intros ->; reflexivity].
  induction s as [| c s IH]; [reflexivity |].
  simpl. destruct s; [discriminate |]. intros H. discriminate (IH H).
Qed.

Lemma last_char_split s c :
  Gtin.last_char s = Some c ->
  list_ascii_of_string s = (list_ascii_of_string (Gtin.but_last s) ++ [c])%list /\
  s = (Gtin.but_last s ++ String c EmptyString)%string.
Proof.
  induction s as [| a s IH]; [discriminate |].
  destruct s as [| b s]; [intros [= <-]; split; reflexivity |].
  intros H. destruct (IH H) as [E1 E2].
  change (Gtin.but_last (String a (String b s))) with (String a (Gtin.but_last (String b s))).
  split.
  - change (a :: list_ascii_of_string (String b s) =
            a :: (list_ascii_of_string (Gtin.but_last (String b s)) ++ [c])%list).
    f_equal. exact E1.
  - change (String a (String b s) =
            String a (Gtin.but_last (String b s) ++ String c EmptyString)).
    f_equal. exact E2.
Qed.

Lemma weighted_alternating l : forall i,
  Gtin.weighted_sum i l = alternating (if Nat.even i then 3 else 1) l.
Proof.
  induction l as [| d l IH]; intros i; [reflexivity |].
  cbn [Gtin.weighted_sum alternating]. rewrite IH.
  rewrite Nat.even_succ, <- Nat.negb_even.
  destruct (Nat.even i); reflexivity.
Qed.

Lemma digit_range c : Chars.is_digit c = true -> 0 <= Chars.int_of_digit c <= 9.
Proof. unfold Chars.is_digit, Chars.int_of_digit. lia. Qed.

Lemma all_chars_last p s c :
  Chars.all_chars p s = true -> Gtin.last_char s = Some c -> p c = true.
Proof.
  intros H L. destruct (last_char_split s c L) as [_ E].
  rewrite E, all_chars_app in H. apply andb_true_iff in H as [_ H].
  simpl in H. rewrite andb_true_r in H. exact H.
Qed.

Lemma gtin_check_spec s :
  Chars.isdigit s = true ->
  gtin_check s = if gtin_total s mod 10 =? 0 then Gtin.Code s else Gtin.NoCode.
Proof.
  intros D. unfold gtin_check, gtin_total.
  destruct (Gtin.last_char s) as [c |] eqn:L.
  - destruct (last_char_split s c L) as [E _].
    pose proof (digit_range c (all_chars_last _ s c (isdigit_all s D) L)) as R.
    rewrite E. rewrite rev_app_distr. cbn [rev app alternating].
    rewrite weighted_alternating. cbn [Nat.even].
    replace (4 - 1) with 3 by reflexivity.
    set (S := alternating 3 _). clearbody S.
    destruct (Z.eqb_spec (Chars.int_of_digit c) ((10 - S mod 10) mod 10)) as [H | H];
      destruct (Z.eqb_spec ((Chars.int_of_digit c * 1 + S) mod 10) 0) as [H' | H'];
      try reflexivity; exfalso; revert H H'; Z.div_mod_to_equations; lia.
  - apply last_char_none in L. subst. discriminate.
Qed.

Lemma isdigit_intro s :
  Chars.all_chars Chars.is_digit s = true -> (1 <= String.length s)%nat ->
  Chars.isdigit s = true.
Proof. destruct s; simpl; [lia | auto]. Qed.

Lemma slice_from_skip start s :
  Gtin.slice_from start s =
  Gtin.skip
    (Z.to_nat (if start <? 0 then Z.max 0 (Z.of_nat (String.length s) + start)
               else Z.min start (Z.of_nat (String.length s)))) s.
Proof. reflexivity. Qed.

(** The padded code of a text the guards let through, for a positive
    length: digits, as many as asked for. *)
Lemma padded_code s g :
  gtin_input s = true -> 1 <= g ->
  Chars.isdigit (Gtin.zfill g (Gtin.slice_from (- g) s)) = true /\
  String.length (Gtin.zfill g (Gtin.slice_from (- g) s)) = Z.to_nat g.
Proof.
  intros G Hg. destruct (gtin_input_facts s G) as [D [L1 L2]].
  rewrite slice_from_skip.
  destruct (Z.ltb_spec (- g) 0) as [_ | ?]; [| lia].
  set (k := Z.to_nat _).
  assert (Dk : Chars.all_chars Chars.is_digit (Gtin.skip k s) = true)
    by (apply all_chars_skip, isdigit_all, D).
  rewrite (zfill_digits g _ Dk).
  assert (Len : String.length
                  (Gtin.zeros (Z.to_nat (g - Z.of_nat (String.length (Gtin.skip k s))))
                   ++ Gtin.skip k s) = Z.to_nat g).
  { rewrite length_app, length_zeros, length_skip. unfold k. lia. }
  split; [| exact Len].
  apply isdigit_intro; [| rewrite Len; lia].
  rewrite all_chars_app, zeros_digits, Dk. reflexivity.
Qed.

Lemma zfill_full s g :
  Chars.all_chars Chars.is_digit s = true -> g <= Z.of_nat (String.length s) ->
  Gtin.zfill g s = s.
Proof.
  intros D H. rewrite (zfill_digits g s D).
  replace (Z.to_nat (g - Z.of_nat (String.length s))) with O by lia. reflexivity.
Qed.

Lemma slice_from_whole s g :
  0 <= g -> Z.of_nat (String.length s) <= g -> Gtin.slice_from (- g) s = s.
Proof.
  intros H0 H. rewrite slice_from_skip.
  destruct (Z.ltb_spec (- g) 0) as [? | ?].
  - replace (Z.to_nat _) with O by lia. reflexivity.
  - replace (Z.to_nat _) with O by lia. reflexivity.
Qed.

(** X10. For a positive [gtin_length], a code that [convert_to_gtin]
    returns for an ASCII text has exactly that many characters, all of them digits, and its
    check digit is right: the digits weighted 1, 3, 1, 3, ... from the last
    one on sum to a multiple of 10. *)
Theorem convert_to_gtin_format (rd : string -> string) (code : option string)
    (gtin_length : Z) (r : string) :
  ascii_or_none code = true ->
  1 <= gtin_length ->
  Gtin.convert_to_gtin rd code gtin_length = Gtin.Code r ->
  String.length r = Z.to_nat gtin_length /\
  Chars.all_chars Chars.is_digit r = true /\
  gtin_total r mod 10 = 0.
Proof.
  intros _ Hg H. destruct code as [s |]; [| discriminate].
  rewrite convert_to_gtin_eq in H.
  destruct (gtin_input s) eqn:G; [| discriminate].
  destruct (padded_code s gtin_length G Hg) as [D L].
  rewrite (gtin_check_spec _ D) in H.
  destruct (Z.eqb_spec (gtin_total (Gtin.zfill gtin_length
                                      (Gtin.slice_from (- gtin_length) s)) mod 10) 0)
    as [T | T]; [| discriminate].
  injection H as <-. split; [exact L |]. split; [apply isdigit_all, D | exact T].
Qed.

(** X10 at the 13 digits 4006381333931 and the default length 14. *)
Lemma convert_to_gtin_format_witness :
  String.length "04006381333931" = Z.to_nat 14 /\
  Chars.all_chars Chars.is_digit "04006381333931" = true /\
  gtin_total "04006381333931" mod 10 = 0.
Proof.
  apply (convert_to_gtin_format (fun s => s) (Some "4006381333931"%string) 14).
  - reflexivity.
  - lia.
  - reflexivity.
Defined.

(** X11. A code that [convert_to_gtin] returns for a length from 8 to 14
    is returned unchanged when it is converted again. *)
Theorem convert_to_gtin_idempotent (rd : string -> string) (code : option string)
    (gtin_length : Z) (r : string) :
  8 <= gtin_length <= 14 ->
  Gtin.convert_to_gtin rd code gtin_length = Gtin.Code r ->
  Gtin.convert_to_gtin rd (Some r) gtin_length = Gtin.Code r.
Proof.
  intros Hg H. destruct code as [s |]; [| discriminate].
  rewrite convert_to_gtin_eq in H.
  destruct (gtin_input s) eqn:G; [| discriminate].
  destruct (padded_code s gtin_length G ltac:(lia)) as [D L].
  assert (E : Gtin.zfill gtin_length (Gtin.slice_from (- gtin_length) s) = r).
  { rewrite (gtin_check_spec _ D) in H.
    destruct (_ =? 0); [injection H as <-; reflexivity | discriminate]. }
  rewrite E in *. rewrite convert_to_gtin_eq.
  assert (G' : gtin_input r = true).
  { unfold gtin_input. rewrite !andb_true_iff.
    split; [split; [exact D |] |]; apply Nat.leb_le; lia. }
  rewrite G'. rewrite slice_from_whole by lia.
  rewrite zfill_full by (try apply isdigit_all, D; lia). exact H.
Qed.

(** X11 at the 13 digits 4006381333931 and the default length 14. *)
Lemma convert_to_gtin_idempotent_witness :
  Gtin.convert_to_gtin (fun s => s) (Some "04006381333931"%string) 14
  = Gtin.Code "04006381333931".
Proof.
  apply (convert_to_gtin_idempotent (fun s => s) (Some "4006381333931"%string) 14).
  - lia.
  - reflexivity.
Defined.

Lemma zeros_shift n s :
  (Gtin.zeros (S n) ++ s)%string = (Gtin.zeros n ++ String "0" s)%string.
Proof.
  induction n as [| n IH]; [reflexivity |].
  change (Gtin.zeros (S (S n))) with (String "0" (Gtin.zeros (S n))).
  change (Gtin.zeros (S n)) with (String "0" (Gtin.zeros n)) at 2.
  simpl. f_equal. exact IH.
Qed.

Lemma gtin_input_intro s :
  Chars.isdigit s = true -> (8 <= String.length s <= 14)%nat -> gtin_input s = true.
Proof.
  intros D L. unfold gtin_input. rewrite !andb_true_iff.
  split; [split; [exact D |] |]; apply Nat.leb_le; lia.
Qed.

(** X12. A zero put in front of a code of 8 to 13 digits does not change
    what [convert_to_gtin] makes of it, for a length the code has not
    reached. *)
Theorem convert_to_gtin_leading_zero (rd : string -> string) (code : string)
    (gtin_length : Z) :
  Chars.isdigit code = true ->
  (8 <= String.length code <= 13)%nat ->
  Z.of_nat (String.length code) < gtin_length ->
  Gtin.convert_to_gtin rd (Some (String "0" code)) gtin_length =
  Gtin.convert_to_gtin rd (Some code) gtin_length.
Proof.
  intros D L Hg. rewrite !convert_to_gtin_eq.
  assert (D0 : Chars.isdigit (String "0" code) = true)
    by (simpl; apply isdigit_all, D).
  rewrite (gtin_input_intro code D) by lia.
  rewrite (gtin_input_intro _ D0) by (simpl; lia).
  rewrite !slice_from_whole by (simpl String.length; lia).
  rewrite (zfill_digits _ _ (isdigit_all _ D)), (zfill_digits _ _ (isdigit_all _ D0)).
  simpl String.length.
  replace (Z.to_nat (gtin_length - Z.of_nat (String.length code)))
    with (S (Z.to_nat (gtin_length - Z.of_nat (S (String.length code))))) by lia.
  rewrite zeros_shift. reflexivity.
Qed.

(** X12 at the 12 digits 012345678905 and the default length 14. *)
Lemma convert_to_gtin_leading_zero_witness :
  Gtin.convert_to_gtin (fun s => s) (Some "0012345678905"%string) 14 =
  Gtin.convert_to_gtin (fun s => s) (Some "012345678905"%string) 14.
Proof.
  apply (convert_to_gtin_leading_zero (fun s => s) "012345678905" 14).
  - reflexivity.
  - simpl. lia.
  - simpl. lia.
Defined.

Lemma list_ascii_app (a b : string) :
  list_ascii_of_string (a ++ b) = (list_ascii_of_string a ++ list_ascii_of_string b)%list.
Proof. induction a as [| c a IH]; simpl; [reflexivity | rewrite IH; reflexivity]. Qed.

Lemma alternating_change l : forall w, w = 1 \/ w = 3 ->
  exists w', (w' = 1 \/ w' = 3) /\
    forall c c' r,
      alternating w (l ++ c :: r) - alternating w (l ++ c' :: r)
      = w' * (Chars.int_of_digit c - Chars.int_of_digit c').
Proof.
  induction l as [| d l IH]; intros w Hw.
  - exists w. split; [exact Hw |]. intros c c' r. simpl. lia.
  - destruct (IH (4 - w) ltac:(lia)) as (w' & Hw' & E).
    exists w'. split; [exact Hw' |]. intros c c' r.
    cbn [app alternating]. specialize (E c c' r).
    set (x := alternating (4 - w) (l ++ c :: r)) in *.
    set (y := alternating (4 - w) (l ++ c' :: r)) in *.
    rewrite <- E. ring.
Qed.

Lemma int_of_digit_inj c c' :
  Chars.int_of_digit c = Chars.int_of_digit c' -> c = c'.
Proof.
  unfold Chars.int_of_digit, Chars.code, Text.ascii_z. intros H.
  assert (E : N_of_ascii c = N_of_ascii c') by lia.
  rewrite <- (ascii_N_embedding c), <- (ascii_N_embedding c'), E. reflexivity.
Qed.

(** X13. One wrong digit is always caught: when [convert_to_gtin] accepts
    a code, for a length that does not cut it, it rejects every code that
    differs from it in one digit only. *)
Theorem convert_to_gtin_single_digit (rd : string -> string) (a b : string)
    (c c' : ascii) (gtin_length : Z) (r : string) :
  Chars.is_digit c' = true ->
  c' <> c ->
  Z.of_nat (String.length (a ++ String c b)) <= gtin_length ->
  Gtin.convert_to_gtin rd (Some (a ++ String c b)%string) gtin_length = Gtin.Code r ->
  Gtin.convert_to_gtin rd (Some (a ++ String c' b)%string) gtin_length = Gtin.NoCode.
Proof.
  intros Dc' Hne Hg H. rewrite convert_to_gtin_eq in *.
  destruct (gtin_input (a ++ String c b)) eqn:G; [| discriminate].
  destruct (gtin_input_facts _ G) as [D [L1 L2]].
  pose proof (isdigit_all _ D) as Da. rewrite all_chars_app in Da.
  apply andb_true_iff in Da as [Da Db]. simpl in Db.
  apply andb_true_iff in Db as [Dc Db].
  assert (Len : String.length (a ++ String c' b) = String.length (a ++ String c b))
    by (rewrite !length_app; reflexivity).
  assert (D'a : Chars.all_chars Chars.is_digit (a ++ String c' b) = true)
    by (rewrite all_chars_app; simpl; rewrite Da, Dc', Db; reflexivity).
  assert (D' : Chars.isdigit (a ++ String c' b) = true)
    by (apply isdigit_intro; [exact D'a | lia]).
  rewrite (gtin_input_intro _ D') by lia.
  rewrite slice_from_whole in * by lia.
  rewrite (zfill_digits _ _ (isdigit_all _ D)) in H.
  rewrite (zfill_digits _ _ D'a), Len.
  set (z := Gtin.zeros _) in *.
  assert (Dz : Chars.all_chars Chars.is_digit z = true) by apply zeros_digits.
  rewrite gtin_check_spec in H
    by (apply isdigit_intro;
        [rewrite all_chars_app, Dz; apply isdigit_all, D | rewrite length_app; lia]).
  rewrite gtin_check_spec
    by (apply isdigit_intro;
        [rewrite all_chars_app, Dz; exact D'a | rewrite length_app; lia]).
  destruct (Z.eqb_spec (gtin_total (z ++ a ++ String c b) mod 10) 0) as [T | T];
    [| discriminate].
  destruct (Z.eqb_spec (gtin_total (z ++ a ++ String c' b) mod 10) 0) as [T' | T'];
    [| reflexivity].
  exfalso. unfold gtin_total in T, T'.
  rewrite !list_ascii_app in T, T'. simpl in T, T'.
  rewrite !rev_app_distr in T, T'. simpl in T, T'.
  rewrite <- !app_assoc in T, T'. simpl in T, T'.
  destruct (alternating_change (rev (list_ascii_of_string b)) 1 ltac:(lia))
    as (w & Hw & E).
  specialize (E c c'
    (rev (list_ascii_of_string a) ++ rev (list_ascii_of_string z))%list).
  pose proof (digit_range c Dc). pose proof (digit_range c' Dc').
  assert (Chars.int_of_digit c <> Chars.int_of_digit c')
    by (intros X; apply Hne; symmetry; apply int_of_digit_inj; exact X).
  revert T T' E. Z.div_mod_to_equations. lia.
Qed.

(** X13 at the 13 digits 4006381333931, the fifth of them changed. *)
Lemma convert_to_gtin_single_digit_witness :
  Gtin.convert_to_gtin (fun s => s) (Some ("4006" ++ String "5" "81333931")%string) 14
  = Gtin.NoCode.
Proof.
  apply (convert_to_gtin_single_digit (fun s => s) "4006" "81333931" "3" "5" 14
           "04006381333931").
  - reflexivity.
  - discriminate.
  - simpl. lia.
  - reflexivity.
Defined.

Lemma length_zero_empty (s : string) : String.length s = O -> s = EmptyString.
Proof. destruct s; [reflexivity | discriminate]. Qed.

Lemma gtin_check_index_error p : gtin_check p = Gtin.IndexError <-> p = EmptyString.
Proof.
  unfold gtin_check. split.
  - destruct (Gtin.last_char p) eqn:L; [| intros _; apply last_char_none, L].
    destruct (negb _); discriminate.
  - intros ->. reflexivity.
Qed.

(** X14. [convert_to_gtin] raises [IndexError], instead of returning
    [None], exactly when the code passes its guards (8 to 14 digits) and
    [gtin_length] is minus the number of its digits or less: the slice then
    leaves nothing of the code.  For every other ASCII code and length it
    returns. *)
Theorem convert_to_gtin_index_error (rd : string -> string) (code : option string)
    (gtin_length : Z) :
  ascii_or_none code = true ->
  (Gtin.convert_to_gtin rd code gtin_length = Gtin.IndexError <->
   exists s, code = Some s /\ gtin_input s = true /\
             gtin_length <= - Z.of_nat (String.length s)).
Proof.
  intros _. split.
  - destruct code as [s |]; [| discriminate].
    rewrite convert_to_gtin_eq.
    destruct (gtin_input s) eqn:G; [| discriminate].
    intros H. exists s. split; [reflexivity |]. split; [exact G |].
    destruct (gtin_input_facts s G) as [D [L1 L2]].
    apply gtin_check_index_error in H.
    rewrite slice_from_skip in H. set (k := Z.to_nat _) in H.
    assert (Dk : Chars.all_chars Chars.is_digit (Gtin.skip k s) = true)
      by (apply all_chars_skip, isdigit_all, D).
    rewrite (zfill_digits _ _ Dk) in H.
    apply (f_equal String.length) in H.
    rewrite length_app, length_zeros, length_skip in H. simpl in H.
    unfold k in H. destruct (Z.ltb_spec (- gtin_length) 0); lia.
  - intros (s & -> & G & Hg).
    rewrite convert_to_gtin_eq, G.
    destruct (gtin_input_facts s G) as [D [L1 L2]].
    apply gtin_check_index_error.
    rewrite slice_from_skip.
    destruct (Z.ltb_spec (- gtin_length) 0); [lia |].
    replace (Z.to_nat _) with (String.length s) by lia.
    assert (E : Gtin.skip (String.length s) s = EmptyString)
      by (apply length_zero_empty; rewrite length_skip; lia).
    rewrite E. unfold Gtin.zfill. simpl.
    replace (Z.to_nat (gtin_length - 0)) with O by lia. reflexivity.
Qed.

(* ================================================================== *)
(** ** [camel_to_snake] *)

Lemma sub_word_no_upper s : forall in_run,
  no_upper s = true -> Snake.sub_word in_run s = s.
Proof.
  induction s as [| c s IH]; intros in_run H; [reflexivity |].
  unfold no_upper in *. simpl in H. apply andb_true_iff in H as [_ H].
  cbn [Snake.sub_word].
  destruct (in_run && Chars.is_lower c); [rewrite (IH true H); reflexivity |].
  destruct s as [| u [| l s'']]; try (rewrite (IH false H); reflexivity).
  simpl in H. apply andb_true_iff in H as [Hu H'].
  apply negb_true_iff in Hu. rewrite Hu, andb_false_r. simpl andb. cbv iota.
  rewrite (IH false); [reflexivity |].
  simpl. rewrite Hu. exact H'.
Qed.

Lemma sub_hump_no_upper s : no_upper s = true -> Snake.sub_hump s = s.
Proof.
  induction s as [| c s IH]; intros H; [reflexivity |].
  unfold no_upper in *. simpl in H. apply andb_true_iff in H as [_ H].
  cbn [Snake.sub_hump]. destruct s as [| u s'']; [reflexivity |].
  pose proof H as H0. simpl in H. apply andb_true_iff in H as [Hu _].
  apply negb_true_iff in Hu. rewrite Hu, andb_false_r.
  rewrite (IH H0). reflexivity.
Qed.

Lemma lower_no_upper s : no_upper s = true -> Chars.lower s = s.
Proof.
  induction s as [| c s IH]; intros H; [reflexivity |].
  unfold no_upper in *. simpl in H. apply andb_true_iff in H as [Hc H].
  apply negb_true_iff in Hc.
  unfold Chars.lower in *. simpl. rewrite (IH H). unfold Chars.lower_char.
  rewrite Hc. reflexivity.
Qed.

Lemma lower_char_not_upper c : Chars.is_upper (Chars.lower_char c) = false.
Proof. destruct c as [[] [] [] [] [] [] [] []]; reflexivity. Qed.

Lemma no_upper_lower s : no_upper (Chars.lower s) = true.
Proof.
  induction s as [| c s IH]; [reflexivity |].
  unfold no_upper, Chars.lower in *. simpl.
  rewrite lower_char_not_upper, IH. reflexivity.
Qed.

Lemma camel_to_snake_fixed name :
  no_upper name = true -> Snake.camel_to_snake name = name.
Proof.
  intros H. unfold Snake.camel_to_snake.
  rewrite (sub_word_no_upper name false H), (sub_hump_no_upper name H).
  apply lower_no_upper, H.
Qed.

(** X15. [camel_to_snake] leaves an ASCII name without upper-case letters
    as it is; so it is idempotent: a converted name is converted to
    itself. *)
Theorem camel_to_snake_idempotent (name : string) :
  Chars.is_ascii name = true ->
  (no_upper name = true -> Snake.camel_to_snake name = name) /\
  Snake.camel_to_snake (Snake.camel_to_snake name) = Snake.camel_to_snake name.
Proof.
  intros _. split; [apply camel_to_snake_fixed |].
  apply camel_to_snake_fixed, no_upper_lower.
Qed.

Lemma keep_sub_word n : forall s in_run,
  (String.length s <= n)%nat ->
  Chars.keep not_underscore (Snake.sub_word in_run s) = Chars.keep not_underscore s.
Proof.
  induction n as [| n IH]; intros s in_run L.
  - destruct s; [reflexivity | simpl in L; lia].
  - destruct s as [| c s]; [reflexivity |]. simpl in L.
    cbn [Snake.sub_word].
    destruct (in_run && Chars.is_lower c).
    + simpl. rewrite (IH s true) by lia. reflexivity.
    + destruct s as [| u [| l s'']].
      * reflexivity.
      * reflexivity.
      * destruct (negb (Ascii.eqb c Snake.newline) && Chars.is_upper u && Chars.is_lower l).
        -- simpl in L. simpl. rewrite (IH s'' true) by lia. reflexivity.
        -- cbn [Chars.keep].
           rewrite (IH (String u (String l s'')) false) by (simpl in *; lia).
           reflexivity.
Qed.

Lemma keep_sub_hump n : forall s,
  (String.length s <= n)%nat ->
  Chars.keep not_underscore (Snake.sub_hump s) = Chars.keep not_underscore s.
Proof.
  induction n as [| n IH]; intros s L.
  - destruct s; [reflexivity | simpl in L; lia].
  - destruct s as [| c s]; [reflexivity |]. simpl in L.
    cbn [Snake.sub_hump]. destruct s as [| u s'']; [reflexivity |].
    destruct ((Chars.is_lower c || Chars.is_digit c) && Chars.is_upper u).
    + simpl in L. simpl. rewrite (IH s'') by lia. reflexivity.
    + cbn [Chars.keep]. rewrite (IH (String u s'')) by (simpl in *; lia). reflexivity.
Qed.

Lemma not_underscore_lower c : not_underscore (Chars.lower_char c) = not_underscore c.
Proof. destruct c as [[] [] [] [] [] [] [] []]; reflexivity. Qed.

Lemma keep_lower s :
  Chars.keep not_underscore (Chars.lower s) = Chars.lower (Chars.keep not_underscore s).
Proof.
  induction s as [| c s IH]; [reflexivity |].
  unfold Chars.lower in *. simpl. rewrite not_underscore_lower.
  destruct (not_underscore c); simpl; rewrite IH; reflexivity.
Qed.

(** X15 at the name getHTTPResponseCode. *)
Lemma camel_to_snake_idempotent_witness :
  (no_upper "getHTTPResponseCode" = true ->
   Snake.camel_to_snake "getHTTPResponseCode" = "getHTTPResponseCode"%string) /\
  Snake.camel_to_snake (Snake.camel_to_snake "getHTTPResponseCode")
  = Snake.camel_to_snake "getHTTPResponseCode".
Proof. apply (camel_to_snake_idempotent "getHTTPResponseCode"). reflexivity. Defined.

(** X16. On an ASCII name [camel_to_snake] only puts underscores in and
    lowers the case:
    with the underscores taken out, the result is the lower-cased name with
    its underscores taken out. *)
Theorem camel_to_snake_inserts_underscores (name : string) :
  Chars.is_ascii name = true ->
  Chars.keep not_underscore (Snake.camel_to_snake name) =
  Chars.lower (Chars.keep not_underscore name).
Proof.
  intros _. unfold Snake.camel_to_snake.
  rewrite keep_lower, (keep_sub_hump _ _ (le_n _)), (keep_sub_word _ _ _ (le_n _)).
  reflexivity.
Qed.

(** X16 at the name getHTTP_ResponseCode. *)
Lemma camel_to_snake_inserts_underscores_witness :
  Chars.keep not_underscore (Snake.camel_to_snake "getHTTP_ResponseCode") =
  Chars.lower (Chars.keep not_underscore "getHTTP_ResponseCode").
Proof.
  apply (camel_to_snake_inserts_underscores "getHTTP_ResponseCode"). reflexivity.
Defined.

(** X14 at the 13 digits 4006381333931 and the length -13. *)
Lemma convert_to_gtin_index_error_witness :
  Gtin.convert_to_gtin (fun s => s) (Some "4006381333931"%string) (-13) = Gtin.IndexError <->
  exists s, Some "4006381333931"%string = Some s /\ gtin_input s = true /\
            -13 <= - Z.of_nat (String.length s).
Proof.
  apply (convert_to_gtin_index_error (fun s => s) (Some "4006381333931"%string) (-13)).
  reflexivity.
Defined.

(* ================================================================== *)
(** ** [convert_text_to_key] *)

Lemma all_chars_sub_runs (p q0 q : ascii -> bool) r s : forall in_run,
  (forall c, q0 c = true -> p c = false -> q c = true) -> q r = true ->
  Chars.all_chars q0 s = true ->
  Chars.all_chars q (Key.sub_runs p r in_run s) = true.
Proof.
  induction s as [| c s IH]; intros in_run Hq Hr H; [reflexivity |].
  simpl in H. apply andb_true_iff in H as [Hc H]. simpl.
  destruct (p c) eqn:P.
  - destruct in_run; simpl; [| rewrite Hr]; apply IH; assumption.
  - simpl. rewrite (Hq c Hc P). apply IH; assumption.
Qed.

Lemma all_chars_lstrip q s :
  Chars.all_chars q s = true -> Chars.all_chars q (Key.lstrip s) = true.
Proof.
  induction s as [| c s IH]; intros H; [reflexivity |].
  simpl. destruct (Chars.is_space c); [| exact H].
  simpl in H. apply andb_true_iff in H as [_ H]. apply IH, H.
Qed.

Lemma all_chars_rstrip q s :
  Chars.all_chars q s = true -> Chars.all_chars q (Key.rstrip s) = true.
Proof.
  induction s as [| c s IH]; intros H; [reflexivity |].
  simpl in H. apply andb_true_iff in H as [Hc H]. specialize (IH H).
  simpl. destruct (Key.rstrip s) as [| a t].
  - destruct (Chars.is_space c); simpl; [reflexivity | rewrite Hc; reflexivity].
  - change (q c && Chars.all_chars q (String a t) = true). rewrite Hc. exact IH.
Qed.

Lemma all_chars_strip q s :
  Chars.all_chars q s = true -> Chars.all_chars q (Key.strip s) = true.
Proof. intros H. apply all_chars_rstrip, all_chars_lstrip, H. Qed.

Lemma all_chars_true s : Chars.all_chars (fun _ => true) s = true.
Proof. induction s; simpl; auto. Qed.

(** The text between the two substitutions of [convert_text_to_key]:
    lower-case letters, digits and white space only. *)
Lemma first_sub_key_chars s :
  Chars.all_chars Key.is_key_char
    (Key.sub_runs (fun c => negb (Key.is_key_char c)) " " false s) = true.
Proof.
  apply (all_chars_sub_runs _ (fun _ => true)); [| reflexivity | apply all_chars_true].
  intros c _ H. apply negb_false_iff in H. exact H.
Qed.

Lemma key_char_out c :
  Key.is_key_char c = true -> Chars.is_space c = false -> is_out_char c = true.
Proof.
  unfold Key.is_key_char, is_out_char. intros H S. rewrite S, orb_false_r in H.
  rewrite H. reflexivity.
Qed.

Lemma key_alphabet rd input_str k :
  Key.convert_text_to_key rd input_str = Key.Key k ->
  Chars.all_chars is_out_char k = true.
Proof.
  intros H. destruct input_str as [s |]; [| discriminate].
  unfold Key.convert_text_to_key in H.
  destruct (Utils.is_empty rd (VStr s) true None); [discriminate |].
  injection H as <-.
  apply (all_chars_sub_runs _ Key.is_key_char).
  - intros c. apply key_char_out.
  - reflexivity.
  - apply all_chars_strip, first_sub_key_chars.
Qed.

(** X17. A key that [convert_text_to_key] makes of an ASCII text holds
    lower-case letters, digits and underscores only. *)
Theorem convert_text_to_key_alphabet (rd : string -> string) (input_str : option string)
    (k : string) :
  ascii_or_none input_str = true ->
  ascii_or_none (option_map rd input_str) = true ->
  Key.convert_text_to_key rd input_str = Key.Key k ->
  Chars.all_chars is_out_char k = true.
Proof. intros _ _. apply key_alphabet. Qed.

(** X17 at the text "  Hello,  World! ". *)
Lemma convert_text_to_key_alphabet_witness :
  Chars.all_chars is_out_char "hello_world" = true.
Proof.
  apply (convert_text_to_key_alphabet (fun s => s) (Some "  Hello,  World! "%string));
    reflexivity.
Defined.

Lemma lstrip_head s :
  match Key.lstrip s with
  | String c _ => Chars.is_space c = false
  | EmptyString => True
  end.
Proof.
  induction s as [| c s IH]; simpl; [exact I |].
  destruct (Chars.is_space c) eqn:E; [exact IH | exact E].
Qed.

Lemma rstrip_head s a t : Key.rstrip s = String a t -> exists s', s = String a s'.
Proof.
  destruct s as [| c s]; [discriminate |]. simpl.
  destruct (Key.rstrip s); [destruct (Chars.is_space c); [discriminate |] |];
    intros [= -> _]; eauto.
Qed.

Lemma rstrip_last s c :
  Gtin.last_char (Key.rstrip s) = Some c -> Chars.is_space c = false.
Proof.
  induction s as [| a s IH]; [discriminate |]. simpl.
  destruct (Key.rstrip s) as [| b t].
  - destruct (Chars.is_space a) eqn:E; [discriminate |]. intros [= <-]. exact E.
  - intros H. apply IH. exact H.
Qed.

Lemma last_char_cons a s c :
  Gtin.last_char s = Some c -> Gtin.last_char (String a s) = Some c.
Proof. destruct s; [discriminate | exact (fun H => H)]. Qed.

Lemma sub_runs_cons p r in_run c s :
  Key.sub_runs p r in_run (String c s) =
  if p c then (if in_run then Key.sub_runs p r true s
               else String r (Key.sub_runs p r true s))
  else String c (Key.sub_runs p r false s).
Proof. reflexivity. Qed.

Lemma all_chars_impl (q q' : ascii -> bool) s :
  (forall c, q c = true -> q' c = true) ->
  Chars.all_chars q s = true -> Chars.all_chars q' s = true.
Proof.
  intros Hq. induction s as [| c s IH]; simpl; [auto |].
  intros H. apply andb_true_iff in H as [Hc H]. rewrite (Hq c Hc). apply IH, H.
Qed.

Lemma last_sub_runs p r s c : forall in_run,
  Gtin.last_char s = Some c -> p c = false ->
  Gtin.last_char (Key.sub_runs p r in_run s) = Some c.
Proof.
  induction s as [| a s IH]; intros in_run L P; [discriminate |].
  destruct s as [| b s'].
  - injection L as ->. simpl. rewrite P. reflexivity.
  - change (Gtin.last_char (String b s') = Some c) in L.
    rewrite sub_runs_cons. destruct (p a).
    + destruct in_run; [apply IH; assumption |].
      apply last_char_cons, IH; assumption.
    + apply last_char_cons, IH; assumption.
Qed.

Lemma no_double_sub_runs p r s : forall in_run,
  Chars.all_chars (fun c => p c || negb (Ascii.eqb c r)) s = true ->
  has_double r (Key.sub_runs p r in_run s) = false /\
  (in_run = true -> starts_with r (Key.sub_runs p r in_run s) = false).
Proof.
  induction s as [| a s IH]; intros in_run H; [split; reflexivity |].
  simpl in H. apply andb_true_iff in H as [Ha H].
  cbn [Key.sub_runs]. destruct (p a) eqn:P.
  - destruct in_run.
    + apply IH, H.
    + destruct (IH true H) as [I1 I2]. split; [| discriminate].
      simpl. rewrite (I2 eq_refl), I1, andb_false_r. reflexivity.
  - simpl in Ha. apply negb_true_iff in Ha.
    destruct (IH false H) as [I1 _]. simpl. rewrite Ha, I1. split; reflexivity.
Qed.

Lemma out_not_underscore c :
  Key.is_key_char c = true -> Chars.is_space c = false ->
  Ascii.eqb c Snake.underscore = false.
Proof.
  unfold Key.is_key_char. intros H S. rewrite S, orb_false_r in H.
  destruct (Ascii.eqb_spec c Snake.underscore) as [-> |]; [discriminate | reflexivity].
Qed.

Lemma key_shape rd input_str k :
  Key.convert_text_to_key rd input_str = Key.Key k ->
  starts_with Snake.underscore k = false /\
  ends_with Snake.underscore k = false /\
  has_double Snake.underscore k = false.
Proof.
  intros H. destruct input_str as [s |]; [| discriminate].
  unfold Key.convert_text_to_key in H.
  destruct (Utils.is_empty rd (VStr s) true None); [discriminate |].
  injection H as <-.
  set (o1 := Key.sub_runs _ " " false _).
  assert (K1 : Chars.all_chars Key.is_key_char o1 = true) by apply first_sub_key_chars.
  assert (K : Chars.all_chars Key.is_key_char (Key.strip o1) = true)
    by apply all_chars_strip, K1.
  split; [| split].
  - unfold Key.strip in *. pose proof (lstrip_head o1) as Hh.
    destruct (Key.rstrip (Key.lstrip o1)) as [| a t] eqn:E; [reflexivity |].
    destruct (rstrip_head _ _ _ E) as [s' E']. rewrite E' in Hh.
    simpl. rewrite Hh. simpl.
    simpl in K. apply andb_true_iff in K as [Ka _].
    apply out_not_underscore; assumption.
  - unfold ends_with.
    destruct (Gtin.last_char (Key.strip o1)) as [c |] eqn:L.
    + pose proof (rstrip_last _ _ L) as Sc.
      rewrite (last_sub_runs _ _ _ c false L Sc).
      apply out_not_underscore; [| exact Sc].
      apply (all_chars_last _ _ _ K L).
    + apply last_char_none in L. rewrite L. reflexivity.
  - apply (no_double_sub_runs Chars.is_space Snake.underscore _ false).
    apply (all_chars_impl Key.is_key_char); [| exact K].
    intros c Hc. destruct (Chars.is_space c) eqn:S; [reflexivity |].
    rewrite (out_not_underscore c Hc S). reflexivity.
Qed.

(** X18. A key that [convert_text_to_key] makes of an ASCII text neither
    begins nor ends with an underscore, and has no two underscores in a
    row. *)
Theorem convert_text_to_key_shape (rd : string -> string) (input_str : option string)
    (k : string) :
  ascii_or_none input_str = true ->
  ascii_or_none (option_map rd input_str) = true ->
  Key.convert_text_to_key rd input_str = Key.Key k ->
  starts_with Snake.underscore k = false /\
  ends_with Snake.underscore k = false /\
  has_double Snake.underscore k = false.
Proof. intros _ _. apply key_shape. Qed.

(** X18 at the text "  Hello,  World! ". *)
Lemma convert_text_to_key_shape_witness :
  starts_with Snake.underscore "hello_world" = false /\
  ends_with Snake.underscore "hello_world" = false /\
  has_double Snake.underscore "hello_world" = false.
Proof.
  apply (convert_text_to_key_shape (fun s => s) (Some "  Hello,  World! "%string));
    reflexivity.
Defined.

(* ================================================================== *)
(** ** The comparator is an order *)

Lemma str_gt_flip a b : a <> b -> str_gt b a = negb (str_gt a b).
Proof.
  intros H. unfold str_gt.
  destruct (String.compare a b) eqn:E.
  - apply str_compare_eq in E. contradiction.
  - apply str_compare_lt_gt in E. rewrite E. reflexivity.
  - destruct (String.compare b a) eqn:E'; [| reflexivity |].
    + apply str_compare_eq in E'. congruence.
    + apply str_compare_lt_gt in E'. congruence.
Qed.

Lemma cmp_key_ranks_tie (k1 k2 : string * string) :
  fst k1 = fst k2 -> snd k1 <> snd k2 ->
  type_order (snd k1) = type_order (snd k2) ->
  cmp_key k1 k2 = -1.
Proof.
  intros Es Nt Er. unfold cmp_key. rewrite Es, String.eqb_refl. simpl.
  apply String.eqb_neq in Nt. rewrite Nt. simpl.
  rewrite Er. destruct (Z.gtb_spec (type_order (snd k2)) (type_order (snd k2)));
    [lia | reflexivity].
Qed.

Lemma cmp_key_swap (k1 k2 : string * string) :
  ~ (fst k1 = fst k2 /\ snd k1 <> snd k2 /\
     type_order (snd k1) = type_order (snd k2)) ->
  cmp_key k2 k1 = - cmp_key k1 k2.
Proof.
  intros Hn. unfold cmp_key.
  destruct (String.eqb_spec (fst k1) (fst k2)) as [Es | Ns].
  - rewrite Es, String.eqb_refl. simpl.
    destruct (String.eqb_spec (snd k1) (snd k2)) as [Et | Nt].
    + rewrite Et, String.eqb_refl. reflexivity.
    + assert (Nt' : String.eqb (snd k2) (snd k1) = false)
        by (apply String.eqb_neq; congruence).
      rewrite Nt'. simpl.
      assert (Hr : type_order (snd k1) <> type_order (snd k2)) by tauto.
      destruct (Z.gtb_spec (type_order (snd k2)) (type_order (snd k1)));
        destruct (Z.gtb_spec (type_order (snd k1)) (type_order (snd k2)));
        try reflexivity; lia.
  - assert (Ns' : String.eqb (fst k2) (fst k1) = false)
      by (apply String.eqb_neq; congruence).
    rewrite Ns'. simpl. rewrite (str_gt_flip _ _ Ns).
    destruct (str_gt (fst k1) (fst k2)); reflexivity.
Qed.

(** X20. Swapping the arguments of [compare_items] negates the result,
    except for two objects with one string form and two different types
    of one rank, which are two types outside the table (rank 0 each): for
    them the result is -1 in both directions.  Among the values of the ten
    types [None], bool, int, float, str, bytes, datetime, list, tuple and
    dict the exception does not arise (of the two types outside the table,
    a tuple shows with a parenthesis and bytes with a b), so there the
    result is negated by the swap, and when a first value comes before a
    second and the second before a third, the first comes before the
    third. *)
Theorem compare_items_order :
  (forall k1 k2 : string * string,
     fst k1 = fst k2 -> snd k1 <> snd k2 ->
     type_order (snd k1) = type_order (snd k2) ->
     cmp_key k1 k2 = -1 /\ cmp_key k2 k1 = -1) /\
  (forall k1 k2 : string * string,
     ~ (fst k1 = fst k2 /\ snd k1 <> snd k2 /\
        type_order (snd k1) = type_order (snd k2)) ->
     cmp_key k2 k1 = - cmp_key k1 k2) /\
  (forall x y, compare_items x y = cmp_key (py_str x, type_name x) (py_str y, type_name y)) /\
  (forall x y : value, compare_items y x = - compare_items x y) /\
  (forall x y z : value, compare_items x y < 0 -> compare_items y z < 0 ->
                         compare_items x z < 0) /\
  cmp_key ("5", "Decimal")%string ("5", "int64")%string = -1 /\
  cmp_key ("5", "int64")%string ("5", "Decimal")%string = -1.
Proof.
  split; [| split; [| split; [| split; [| split; [| split; reflexivity]]]]].
  - intros k1 k2 Es Nt Er. split; apply cmp_key_ranks_tie; congruence.
  - exact cmp_key_swap.
  - reflexivity.
  - intros x y. rewrite !compare_items_key. apply cmp_key_swap.
    unfold item_key. simpl. intros (Es & Nt & Er).
    apply Nt. apply rank_separates_types; assumption.
  - intros x y z Hxy Hyz.
    rewrite compare_items_key in *.
    apply Z.ltb_lt. apply Z.ltb_lt in Hxy, Hyz.
    apply (key_lt_trans (item_key x) (item_key y) (item_key z));
      try (eexists; reflexivity); assumption.
Qed.


(* ================================================================== *)
(** ** The order of the keys of a dict *)

Lemma key_cmp_lt (a b : string * string) :
  key_lt Json.key_cmp a b = true <-> String.compare (fst a) (fst b) = Lt.
Proof.
  unfold key_lt, Json.key_cmp.
  destruct (String.compare (fst a) (fst b)); split; intros H;
    try reflexivity; discriminate.
Qed.

Lemma nodup_fst_inj {A B : Type} (l : list (A * B)) (a b : A * B) :
  NoDup (map fst l) -> In a l -> In b l -> fst a = fst b -> a = b.
Proof.
  induction l as [| x l IH]; intros H Ha Hb E; [destruct Ha |].
  simpl in H. inversion H as [| ? ? Hx Hl]; subst.
  destruct Ha as [-> | Ha], Hb as [-> | Hb].
  - reflexivity.
  - exfalso. apply Hx. rewrite E. apply in_map, Hb.
  - exfalso. apply Hx. rewrite <- E. apply in_map, Ha.
  - apply IH; assumption.
Qed.

Lemma sorted_by_key_perm_invariant (l l' : list (string * string)) :
  NoDup (map fst l) -> Permutation l l' ->
  sorted Json.key_cmp l = sorted Json.key_cmp l'.
Proof.
  intros Hn Hp.
  apply (sorted_perm_invariant Json.key_cmp (fun a => In a l)).
  - intros a b _ _ H H'. apply key_cmp_lt in H, H'.
    apply str_compare_lt_gt in H. congruence.
  - intros a b c _ _ _ H H'. apply key_cmp_lt in H, H'. apply key_cmp_lt.
    eapply str_compare_trans; eassumption.
  - intros a b Ha Hb H H'.
    apply (nodup_fst_inj l); try assumption.
    destruct (String.compare (fst a) (fst b)) eqn:E.
    + apply str_compare_eq, E.
    + exfalso. apply H. apply key_cmp_lt, E.
    + exfalso. apply H'. apply key_cmp_lt. apply str_compare_lt_gt, E.
  - apply Forall_forall. auto.
  - exact Hp.
Qed.

(** On values: two dicts with the same items, in whatever order, have the
    same standard form and the same identifier. *)
Lemma dict_order_on_values (d d' : list (string * value)) (method : string) :
  NoDup (map fst d) ->
  Permutation d d' ->
  data_standardization (VDict d) = data_standardization (VDict d') /\
  convert_data_to_id (VDict d) method = convert_data_to_id (VDict d') method.
Proof.
  intros Hn Hp.
  assert (E : data_standardization (VDict d) = data_standardization (VDict d')).
  { unfold data_standardization. rewrite !sort_dict_eq. f_equal.
    assert (S : sorted Json.key_cmp
                  (map (fun x : string * value => (fst x, Json.dumps (std_item (snd x)))) d)
                = sorted Json.key_cmp
                    (map (fun x : string * value => (fst x, Json.dumps (std_item (snd x)))) d')).
    { apply sorted_by_key_perm_invariant;
        [rewrite map_map; exact Hn | apply Permutation_map, Hp]. }
    cbn [Json.dumps]. rewrite !map_map. cbn [fst snd]. rewrite S. reflexivity. }
  split; [exact E |]. unfold convert_data_to_id. rewrite E. reflexivity.
Qed.

(* ================================================================== *)
(** ** The form of the identifiers *)

Lemma fold_left_length {A B : Type} (f : list A -> B -> list A) (l : list B) :
  (forall st x, List.length (f st x) = List.length st) ->
  forall st, List.length (fold_left f l st) = List.length st.
Proof.
  intros Hf. induction l as [| x l IH]; intros st; simpl; [reflexivity |].
  rewrite IH. apply Hf.
Qed.

Lemma sha256_round_length st kw : List.length (Sha256.round st kw) = List.length st.
Proof.
  destruct st as [| a [| b [| c [| d [| e [| f [| g [| h [| i st]]]]]]]]]; reflexivity.
Qed.

Lemma sha256_compress_length h blk :
  List.length (Sha256.compress h blk) = List.length h.
Proof.
  unfold Sha256.compress. rewrite length_map, length_combine.
  rewrite (fold_left_length _ _ sha256_round_length). apply Nat.min_id.
Qed.

Lemma flat_map_length4 (f : Z -> list Z) (l : list Z) :
  (forall x, List.length (f x) = 4%nat) ->
  List.length (flat_map f l) = (4 * List.length l)%nat.
Proof.
  intros Hf. induction l as [| x l IH]; simpl; [reflexivity |].
  rewrite List.length_app, Hf, IH. lia.
Qed.

Lemma sha256_digest_length msg : List.length (Sha256.digest msg) = 32%nat.
Proof.
  unfold Sha256.digest.
  rewrite (flat_map_length4 Word.be_bytes32 _ (fun x => eq_refl)).
  rewrite (fold_left_length _ _ sha256_compress_length). reflexivity.
Qed.

Lemma hex_digit_hex d : is_hex (Word.hex_digit d) = true.
Proof.
  destruct d as [| p | p]; try reflexivity.
  do 4 (try destruct p as [p | p |]); reflexivity.
Qed.

Lemma hex_of_bytes_form bs :
  String.length (Word.hex_of_bytes bs) = (2 * List.length bs)%nat /\
  Chars.all_chars is_hex (Word.hex_of_bytes bs) = true.
Proof.
  induction bs as [| b bs [IH1 IH2]]; [split; reflexivity |].
  cbn [Word.hex_of_bytes fold_right]. fold (Word.hex_of_bytes bs).
  unfold Word.hex_byte. cbn [String.append String.length Chars.all_chars List.length].
  rewrite IH1, IH2, !hex_digit_hex. split; [lia | reflexivity].
Qed.

(** X23. An identifier made with the method "sha256" is a text of 64
    hexadecimal digits, in lower case. *)
Theorem sha256_id_form (data : value) (id : string) :
  convert_data_to_id data "sha256" = Some id ->
  String.length id = 64%nat /\ Chars.all_chars is_hex id = true.
Proof.
  unfold convert_data_to_id, id_of_standardized. intros H.
  destruct (match data_standardization data with
            | VStr s => Some (encode_utf8 s)
            | VBytes b => Some b
            | _ => None
            end) as [b |]; [| discriminate].
  simpl in H. injection H as <-.
  unfold Sha256.hexdigest.
  destruct (hex_of_bytes_form (Sha256.digest (map Word.byte_z b))) as [L C].
  rewrite sha256_digest_length in L. split; assumption.
Qed.

(** X23 at the text abc. *)
Lemma sha256_id_form_witness :
  String.length "ba7816bf8f01cfea414140de5dae2223b00361a396177a9cb410ff61f20015ad" = 64%nat /\
  Chars.all_chars is_hex "ba7816bf8f01cfea414140de5dae2223b00361a396177a9cb410ff61f20015ad"
  = true.
Proof.
  apply (sha256_id_form (VStr "abc")). vm_compute. reflexivity.
Defined.







(* ================================================================== *)
(** ** [find_edges_connections]: what the output holds *)



Lemma in_present x r : In x (Edges.present r) <-> In (Some x) r.
Proof.
  unfold Edges.present. rewrite in_flat_map. split.
  - intros ([y |] & Hc & Hx); [| destruct Hx].
    destruct Hx as [<- | []]. exact Hc.
  - intros H. exists (Some x). split; [exact H | left; reflexivity].
Qed.

Lemma in_dropna_all r df :
  In r (Edges.dropna_all df) <-> In r df /\ Edges.present r <> [].
Proof.
  unfold Edges.dropna_all. rewrite filter_In.
  assert (E : existsb (fun c : Edges.cell => match c with Some _ => true | None => false end) r
              = true <-> Edges.present r <> []).
  { induction r as [| [x |] r IH]; simpl.
    - split; [discriminate | congruence].
    - split; [discriminate | reflexivity].
    - exact IH. }
  rewrite E. reflexivity.
Qed.

Lemma length_sort_values l : List.length (Edges.sort_values l) = List.length l.
Proof. symmetry. apply Permutation_length, sorted_perm. Qed.

Lemma map_snd_number_from l : forall i0, map snd (Edges.number_from i0 l) = l.
Proof. induction l as [| x l IH]; intros i0; simpl; [| rewrite IH]; reflexivity. Qed.


Lemma nodup_drop_seen {A} (eqb : A -> A -> bool) :
  (forall x y, eqb x y = true <-> x = y) ->
  forall l seen, NoDup (Edges.drop_seen eqb seen l).
Proof.
  intros Heq. induction l as [| x l IH]; intros seen; simpl; [constructor |].
  destruct (existsb (eqb x) seen) eqn:E; [apply IH |].
  constructor; [| apply IH].
  intros H. apply (in_drop_seen eqb Heq) in H as [_ H].
  apply H. left. reflexivity.
Qed.

Lemma nodup_sorted_set l : NoDup (Edges.sorted_set l).
Proof.
  unfold Edges.sorted_set, Edges.sort_values.
  eapply Permutation_NoDup; [apply sorted_perm |].
  apply nodup_drop_seen. intros x y. apply Z.eqb_eq.
Qed.






(** *** Chains of edges and the components *)

Section Connected.
Variable V : list Z.
Variable E : list (Z * Z).

Lemma connected_trans u v w :
  connected V E u v -> connected V E v w -> connected V E u w.
Proof.
  intros Huv Hvw. induction Hvw as [| v x w _ IH Hw He]; [exact Huv |].
  eapply connected_step; [apply IH, Huv | exact Hw | exact He].
Qed.

Lemma connected_in u w : connected V E u w -> In u V -> In w V.
Proof. intros H. induction H; auto. Qed.

Lemma connected_sym u w : connected V E u w -> In u V -> connected V E w u.
Proof.
  intros H Hu. induction H as [| u v w Huv IH Hw He]; [constructor |].
  specialize (IH Hu).
  apply (connected_trans w v u); [| exact IH].
  eapply connected_step; [constructor | exact (connected_in u v Huv Hu) |].
  destruct He; auto.
Qed.

Lemma adjacent_edge S w :
  Edges.adjacent E S w = true ->
  exists u, In u S /\ (In (u, w) E \/ In (w, u) E).
Proof.
  unfold Edges.adjacent. rewrite existsb_exists.
  intros ([a b] & He & H). simpl in H.
  apply orb_true_iff in H as [H | H]; apply andb_true_iff in H as [Hm Hw];
    apply mem_In in Hm; apply Z.eqb_eq in Hw; subst w.
  - exists a. auto.
  - exists b. auto.
Qed.

Lemma closure_sound v0 n : forall S,
  (forall s, In s S -> connected V E v0 s) ->
  forall w, In w (Edges.closure n V E S) -> connected V E v0 w.
Proof.
  induction n as [| n IH]; intros S HS w Hw; [apply HS, Hw |].
  simpl in Hw. apply (IH (Edges.grow V E S)); [| exact Hw].
  intros s Hs. apply in_grow in Hs as [HV [Hs | Ha]]; [apply HS, Hs |].
  destruct (adjacent_edge S s Ha) as (u & Hu & He).
  eapply connected_step; [apply HS, Hu | exact HV | exact He].
Qed.

Lemma cluster_sound v0 w : In w (Edges.cluster V E v0) -> connected V E v0 w.
Proof.
  apply closure_sound. intros s [<- | []]. constructor.
Qed.

Lemma cluster_absorbs v0 u w :
  In v0 V -> In u (Edges.cluster V E v0) -> connected V E u w ->
  In w (Edges.cluster V E v0).
Proof.
  intros Hv0 Hu H. induction H as [| u v w _ IH Hw He]; [exact Hu |].
  apply (cluster_closed V E v0 v w); auto.
Qed.

Lemma clusters_meet v0 v1 w :
  In v0 V -> In v1 V ->
  In w (Edges.cluster V E v0) -> In w (Edges.cluster V E v1) ->
  In v1 (Edges.cluster V E v0).
Proof.
  intros H0 H1 W0 W1.
  apply (cluster_absorbs v0 w v1 H0 W0).
  apply connected_sym; [apply cluster_sound, W1 | exact H1].
Qed.

Lemma nodup_closure n : forall S,
  NoDup V -> NoDup S -> NoDup (Edges.closure n V E S).
Proof.
  induction n as [| n IH]; intros S HV HS; [exact HS |].
  simpl. apply IH; [exact HV |].
  rewrite grow_shape. apply NoDup_filter, HV.
Qed.

Lemma nodup_cluster v0 : NoDup V -> NoDup (Edges.cluster V E v0).
Proof.
  intros HV. apply nodup_closure; [exact HV |].
  constructor; [intros [] | constructor].
Qed.

End Connected.

Lemma nodup_app {A} (l l' : list A) :
  NoDup l -> NoDup l' -> (forall a, In a l -> ~ In a l') -> NoDup (l ++ l').
Proof.
  induction l as [| x l IH]; intros Hl Hl' Hd; [exact Hl' |].
  inversion Hl as [| ? ? Hx Hl0]; subst. simpl. constructor.
  - rewrite in_app_iff. intros [H | H]; [contradiction |].
    apply (Hd x); [left; reflexivity | exact H].
  - apply IH; [exact Hl0 | exact Hl' |]. intros a Ha. apply Hd. right. exact Ha.
Qed.

Lemma components_disjoint V E :
  NoDup V -> NoDup (List.concat (Edges.components V E)).
Proof.
  intros HV. unfold Edges.components.
  assert (G : forall vs cs,
             (forall v, In v vs -> In v V) ->
             (forall c, In c cs -> exists v0, In v0 V /\ c = Edges.cluster V E v0) ->
             NoDup (List.concat cs) ->
             NoDup (List.concat
                      (fold_left
                         (fun cs v => if existsb (Edges.mem v) cs then cs
                                      else (cs ++ [Edges.cluster V E v])%list) vs cs))).
  { induction vs as [| v vs IH]; intros cs Hvs Hcs Hn; [exact Hn |].
    simpl. destruct (existsb (Edges.mem v) cs) eqn:Ex.
    - apply IH; auto. intros v' Hv'. apply Hvs. right. exact Hv'.
    - apply IH.
      + intros v' Hv'. apply Hvs. right. exact Hv'.
      + intros c Hc. apply in_app_iff in Hc as [Hc | [<- | []]]; [auto |].
        exists v. split; [apply Hvs; left; reflexivity | reflexivity].
      + rewrite concat_app. simpl. rewrite app_nil_r.
        apply nodup_app; [exact Hn | apply nodup_cluster, HV |].
        intros w Hw Hw'. apply in_concat in Hw as (c & Hc & Hwc).
        destruct (Hcs c Hc) as (v0 & Hv0 & ->).
        assert (Hin : In v (Edges.cluster V E v0)).
        { apply (clusters_meet V E v0 v w); auto. apply Hvs. left. reflexivity. }
        assert (X : existsb (Edges.mem v) cs = true).
        { apply existsb_exists. exists (Edges.cluster V E v0).
          split; [exact Hc | apply mem_In, Hin]. }
        congruence. }
  apply G; [auto | intros c [] | constructor].
Qed.

Lemma connection_rows_values cs : forall i0 rows,
  Edges.connection_rows i0 cs = Some rows -> map snd rows = List.concat cs.
Proof.
  induction cs as [| comp cs IH]; intros i0 rows; simpl.
  - intros [= <-]. reflexivity.
  - destruct (Edges.names_of comp) as [xs |] eqn:N; [| discriminate].
    destruct (Edges.connection_rows (i0 + 1) cs) as [rows' |] eqn:R; [| discriminate].
    intros [= <-]. rewrite map_app, map_map, (IH _ _ R). simpl. rewrite map_id.
    assert (xs = comp) as ->; [| reflexivity].
    unfold Edges.names_of in N. destruct comp as [| a [| b l]]; congruence.
Qed.

(** What [find_edges_connections] returns, by the two branches of its
    test of the edges. *)
Lemma find_edges_connections_rows set_order df rows :
  Edges.find_edges_connections set_order df = Edges.Table rows ->
  (EdgesGraph.edges_of df = [] /\
   exists singles, rows = Edges.number_from 0 (Edges.sorted_set singles) /\
     forall x, In x singles <-> exists r, In r df /\ Edges.present r = [x]) \/
  (EdgesGraph.edges_of df <> [] /\
   exists connections singles,
     Edges.connection_rows 0
       (Edges.components (EdgesGraph.vertices_of df) (EdgesGraph.edges_of df))
     = Some connections /\
     (forall x, In x singles <-> exists r, In r df /\ Edges.present r = [x]) /\
     rows = (connections ++
             Edges.number_from
               (Z.of_nat (List.length
                  (Edges.components (EdgesGraph.vertices_of df) (EdgesGraph.edges_of df))))
               (set_order
                  (filter (fun s => negb (Edges.mem s (map snd connections)))
                     (Edges.sorted_set singles))))%list).
Proof.
  rewrite find_edges_connections_eq. cbv zeta.
  set (singles := List.concat _).
  assert (HS : forall x, In x singles <-> exists r, In r df /\ Edges.present r = [x]).
  { intros x. unfold singles. rewrite in_concat. split.
    - intros (e & He & Hx). apply filter_In in He as [He Hl].
      apply in_map_iff in He as (r & <- & Hr).
      apply in_dropna_all in Hr as [Hr _]. exists r. split; [exact Hr |].
      rewrite length_sort_values in Hl.
      apply in_sort_values in Hx.
      destruct (Edges.present r) as [| y [| z p]]; try discriminate.
      destruct Hx as [<- | []]. reflexivity.
    - intros (r & Hr & P). exists [x]. split; [| left; reflexivity].
      apply filter_In. split; [| reflexivity].
      apply in_map_iff. exists r. split; [rewrite P; reflexivity |].
      apply in_dropna_all. split; [exact Hr | rewrite P; discriminate]. }
  destruct (EdgesGraph.edges_of df) as [| e0 Eg] eqn:HE.
  - intros [= <-]. left. split; [reflexivity |]. exists singles. auto.
  - rewrite <- HE.
    destruct (Edges.connection_rows 0 _) as [conn |] eqn:C; [| discriminate].
    intros [= <-]. right. split; [rewrite HE; discriminate |].
    exists conn, singles. auto.
Qed.

Lemma combinations2_endpoint e : forall x,
  In x e -> (2 <= List.length e)%nat ->
  exists y, In (x, y) (Edges.combinations2 e) \/ In (y, x) (Edges.combinations2 e).
Proof.
  induction e as [| a e IH]; intros x Hx L; [destruct Hx |].
  simpl. destruct Hx as [<- | Hx].
  - destruct e as [| b e]; [simpl in L; lia |].
    exists b. left. apply in_or_app. left. left. reflexivity.
  - exists a. right. apply in_or_app. left. apply in_map. exact Hx.
Qed.

Lemma row_endpoint df r x :
  In r df -> In x (Edges.present r) -> (2 <= List.length (Edges.present r))%nat ->
  exists y, In (x, y) (EdgesGraph.pairs_of df) \/ In (y, x) (EdgesGraph.pairs_of df).
Proof.
  intros Hr Hx L.
  destruct (combinations2_endpoint (Edges.sort_values (Edges.present r)) x) as [y Hy].
  - apply in_sort_values, Hx.
  - rewrite length_sort_values. exact L.
  - assert (M : In (Edges.combinations2 (Edges.sort_values (Edges.present r)))
               (map Edges.combinations2
                  (filter (fun e => Nat.ltb 1 (List.length e))
                     (map (fun r => Edges.sort_values (Edges.present r))
                        (Edges.dropna_all df))))).
    { apply in_map. apply filter_In. split.
      - apply in_map_iff. exists r. split; [reflexivity |].
        apply in_dropna_all. split; [exact Hr |].
        destruct (Edges.present r); [destruct Hx | discriminate].
      - rewrite length_sort_values. apply Nat.ltb_lt. lia. }
    exists y. unfold EdgesGraph.pairs_of.
    destruct Hy as [Hy | Hy]; [left | right]; apply in_concat; eauto.
Qed.

Lemma in_number_from l : forall i0 x,
  In x l -> exists g, In (g, x) (Edges.number_from i0 l).
Proof.
  induction l as [| a l IH]; intros i0 x Hx; [destruct Hx |].
  destruct Hx as [<- | Hx].
  - exists i0. left. reflexivity.
  - destruct (IH (i0 + 1) x Hx) as [g Hg]. exists g. right. exact Hg.
Qed.

Lemma component_vertices V E comp x :
  In comp (Edges.components V E) -> In x comp -> In x V.
Proof.
  intros Hc Hx. destruct (component_is_cluster V E comp Hc) as (v0 & Hv0 & ->).
  apply (connected_in V E v0 x); [apply cluster_sound, Hx | exact Hv0].
Qed.

Lemma vertex_row df v :
  In v (EdgesGraph.vertices_of df) -> exists r, In r df /\ In (Some v) r.
Proof.
  intros Hv. destruct (vertex_has_pair df v Hv) as (x & y & Hxy & Hx).
  destruct (pair_origin df x y Hxy) as (r & Hr & Px & Py & _).
  exists r. split; [exact Hr |]. apply in_present.
  destruct Hx as [-> | ->]; assumption.
Qed.

(** X28. For a table of integers that a float64 holds exactly (of
    magnitude 2^53 at most), the values of the output are the values of the
    table: every value some row holds has a row in the output, and the
    output has no value the table does not hold. *)
Theorem find_edges_connections_values (set_order : list Z -> list Z)
    (df : list Edges.row) (rows : list (Z * Z)) :
  exact_table df ->
  (forall l, NoDup l -> Permutation l (set_order l)) ->
  Edges.find_edges_connections set_order df = Edges.Table rows ->
  forall x, In x (map snd rows) <-> exists r, In r df /\ In (Some x) r.
Proof.
  intros _ Hso H x.
  set (V := EdgesGraph.vertices_of df). set (Eg := EdgesGraph.edges_of df).
  assert (Single : forall singles,
            (forall x, In x singles <-> exists r, In r df /\ Edges.present r = [x]) ->
            In x singles -> exists r, In r df /\ In (Some x) r).
  { intros singles HS Hx. apply HS in Hx as (r & Hr & P).
    exists r. split; [exact Hr |]. apply in_present. rewrite P. left. reflexivity. }
  assert (Order : forall (conn : list (Z * Z)) singles,
            In x (set_order (filter (fun s => negb (Edges.mem s (map snd conn)))
                               (Edges.sorted_set singles)))
            <-> In x singles /\ ~ In x (map snd conn)).
  { intros conn singles.
    assert (P : Permutation
                  (filter (fun s => negb (Edges.mem s (map snd conn)))
                     (Edges.sorted_set singles))
                  (set_order (filter (fun s => negb (Edges.mem s (map snd conn)))
                                (Edges.sorted_set singles))))
      by (apply Hso, NoDup_filter, nodup_sorted_set).
    split.
    - intros Hx. apply (Permutation_in _ (Permutation_sym P)) in Hx.
      apply filter_In in Hx as [Hx Hm]. rewrite in_sorted_set in Hx.
      split; [exact Hx |]. rewrite <- mem_In.
      destruct (Edges.mem x (map snd conn)); [discriminate Hm | intros X; discriminate X].
    - intros [Hx Hn]. apply (Permutation_in _ P). apply filter_In.
      rewrite in_sorted_set. split; [exact Hx |].
      rewrite <- mem_In in Hn.
      destruct (Edges.mem x (map snd conn)); [exfalso; apply Hn; reflexivity | reflexivity]. }
  apply find_edges_connections_rows in H.
  destruct H as [(HE & singles & -> & HS) | (HE & conn & singles & C & HS & ->)].
  - rewrite map_snd_number_from, in_sorted_set. split; [apply Single, HS |].
    intros (r & Hr & Hx). apply in_present in Hx.
    destruct (Edges.present r) as [| y [| z p]] eqn:P; [destruct Hx | |].
    + destruct Hx as [<- | []]. apply HS. eauto.
    + exfalso. destruct (row_endpoint df r x Hr) as [y' Hy];
        [rewrite P; exact Hx | rewrite P; simpl; lia |].
      assert (In (x, y') (EdgesGraph.edges_of df) \/ In (y', x) (EdgesGraph.edges_of df))
        by (destruct Hy; [left | right]; apply in_drop_duplicates_pair; assumption).
      rewrite HE in *. tauto.
  - rewrite map_app, map_snd_number_from, in_app_iff, Order.
    rewrite (connection_rows_values _ _ _ C). split.
    + intros [Hx | [Hx _]]; [| apply (Single singles HS Hx)].
      apply in_concat in Hx as (comp & Hc & Hx).
      apply vertex_row. apply (component_vertices _ _ comp x Hc Hx).
    + intros (r & Hr & Hx). apply in_present in Hx.
      destruct (in_dec Z.eq_dec x (List.concat (Edges.components V Eg))) as [I | N];
        [left; exact I |].
      right. split; [| exact N].
      destruct (Edges.present r) as [| y [| z p]] eqn:P; [destruct Hx | |].
      * destruct Hx as [<- | []]. apply HS. eauto.
      * exfalso. apply N.
        destruct (row_endpoint df r x Hr) as [y' Hy];
          [rewrite P; exact Hx | rewrite P; simpl; lia |].
        assert (Vx : In x V)
          by (destruct Hy as [Hy | Hy]; destruct (vertex_of_pair df _ _ Hy); assumption).
        destruct (vertex_has_component V Eg x Vx) as (comp & Hc & Hin).
        apply in_concat. eauto.
Qed.

(** X28 at the rows (1, 2), (2, 3), (4, None), (5, None) and the value 4. *)
Lemma find_edges_connections_values_witness :
  In 4 (map snd [(0, 1); (0, 2); (0, 3); (1, 4); (2, 5)]) <->
  exists r, In r Edges.scenario_rows /\ In (Some 4) r.
Proof.
  apply (find_edges_connections_values (fun l => l) Edges.scenario_rows).
  - intros r x Hr Hx. simpl in Hr.
    destruct Hr as [<- | [<- | [<- | [<- | []]]]]; simpl in Hx;
      repeat (destruct Hx as [Hx | Hx]; [try discriminate Hx; injection Hx as <-; reflexivity |]);
      destruct Hx.
  - intros l _. apply Permutation_refl.
  - reflexivity.
Defined.

(** X29. For a table of integers that a float64 holds exactly (of
    magnitude 2^53 at most), no value is grouped twice: the values of the
    rows of the output are pairwise different, so a value that stands alone
    in one row of the table and in a pair in another has the one row of its
    group only. *)
Theorem find_edges_connections_partition (set_order : list Z -> list Z)
    (df : list Edges.row) (rows : list (Z * Z)) :
  exact_table df ->
  (forall l, NoDup l -> Permutation l (set_order l)) ->
  Edges.find_edges_connections set_order df = Edges.Table rows ->
  NoDup (map snd rows).
Proof.
  intros _ Hso H. apply find_edges_connections_rows in H.
  destruct H as [(HE & singles & -> & HS) | (HE & conn & singles & C & HS & ->)].
  - rewrite map_snd_number_from. apply nodup_sorted_set.
  - rewrite map_app, map_snd_number_from.
    assert (F : NoDup (filter (fun s => negb (Edges.mem s (map snd conn)))
                         (Edges.sorted_set singles)))
      by apply NoDup_filter, nodup_sorted_set.
    pose proof (Hso _ F) as P.
    apply nodup_app.
    + rewrite (connection_rows_values _ _ _ C).
      apply components_disjoint. apply nodup_sorted_set.
    + apply (Permutation_NoDup P F).
    + intros x Hx Hx'. apply (Permutation_in _ (Permutation_sym P)) in Hx'.
      apply filter_In in Hx' as [_ Hm]. apply mem_In in Hx.
      rewrite Hx in Hm. discriminate Hm.
Qed.

(** X29 at the rows (1, 2), (2, 3), (4, None), (5, None). *)
Lemma find_edges_connections_partition_witness :
  NoDup (map snd [(0, 1); (0, 2); (0, 3); (1, 4); (2, 5)]).
Proof.
  apply (find_edges_connections_partition (fun l => l) Edges.scenario_rows).
  - intros r x Hr Hx. simpl in Hr.
    destruct Hr as [<- | [<- | [<- | [<- | []]]]]; simpl in Hx;
      repeat (destruct Hx as [Hx | Hx]; [try discriminate Hx; injection Hx as <-; reflexivity |]);
      destruct Hx.
  - intros l _. apply Permutation_refl.
  - reflexivity.
Defined.

Lemma number_from_ge l : forall i0 g x,
  In (g, x) (Edges.number_from i0 l) -> i0 <= g.
Proof.
  induction l as [| a l IH]; intros i0 g x H; [destruct H |].
  simpl in H. destruct H as [E | H]; [injection E as <- _; lia |].
  apply IH in H. lia.
Qed.

Lemma number_from_fun l : forall i0 g x y,
  In (g, x) (Edges.number_from i0 l) -> In (g, y) (Edges.number_from i0 l) -> x = y.
Proof.
  induction l as [| a l IH]; intros i0 g x y Hx Hy; [destruct Hx |].
  simpl in Hx, Hy. destruct Hx as [Ex | Hx], Hy as [Ey | Hy].
  - congruence.
  - injection Ex as <- _. apply number_from_ge in Hy. lia.
  - injection Ey as <- _. apply number_from_ge in Hx. lia.
  - apply (IH _ _ _ _ Hx Hy).
Qed.

Lemma connection_rows_index cs : forall i0 rows g x,
  Edges.connection_rows i0 cs = Some rows -> In (g, x) rows ->
  i0 <= g < i0 + Z.of_nat (List.length cs) /\
  exists comp, nth_error cs (Z.to_nat (g - i0)) = Some comp /\ In x comp.
Proof.
  induction cs as [| comp cs IH]; intros i0 rows g x; simpl Edges.connection_rows.
  - intros [= <-] [].
  - destruct (Edges.names_of comp) as [xs |] eqn:N; [| discriminate].
    destruct (Edges.connection_rows (i0 + 1) cs) as [rows' |] eqn:R; [| discriminate].
    intros [= <-] H.
    assert (xs = comp) as ->
      by (unfold Edges.names_of in N; destruct comp as [| a [| b l]]; congruence).
    apply in_app_iff in H as [H | H].
    + apply in_map_iff in H as (x' & [= <- <-] & Hx).
      split; [simpl List.length; lia |].
      exists comp. rewrite Z.sub_diag. split; [reflexivity | exact Hx].
    + destruct (IH _ _ _ _ R H) as (B & comp' & Hn & Hx).
      split; [simpl List.length; lia |].
      exists comp'. split; [| exact Hx].
      replace (Z.to_nat (g - i0)) with (S (Z.to_nat (g - (i0 + 1)))) by lia.
      exact Hn.
Qed.

Lemma connected_linked df u w :
  connected (EdgesGraph.vertices_of df) (EdgesGraph.edges_of df) u w -> linked df u w.
Proof.
  intros H. induction H as [| u v w _ IH _ He]; [constructor |].
  apply (linked_step df u v w IH).
  assert (P : In (v, w) (EdgesGraph.pairs_of df) \/ In (w, v) (EdgesGraph.pairs_of df))
    by (destruct He as [He | He]; [left | right];
        apply (proj1 (in_drop_duplicates_pair _ _)); exact He).
  destruct P as [P | P]; destruct (pair_origin df _ _ P) as (r & Hr & Pa & Pb & _);
    exists r; rewrite <- !in_present; auto.
Qed.

(** X30. For a table of integers that a float64 holds exactly (of
    magnitude 2^53 at most), values are grouped for a reason: two values
    that have the same group id in the output are the same value or are
    linked by a chain of rows of the table, each row holding two neighbours
    of the chain. *)
Theorem find_edges_connections_sound (set_order : list Z -> list Z)
    (df : list Edges.row) (rows : list (Z * Z)) (g x y : Z) :
  exact_table df ->
  Edges.find_edges_connections set_order df = Edges.Table rows ->
  In (g, x) rows -> In (g, y) rows -> linked df x y.
Proof.
  intros _ H Hx Hy. apply find_edges_connections_rows in H.
  destruct H as [(HE & singles & -> & HS) | (HE & conn & singles & C & HS & ->)].
  - rewrite (number_from_fun _ _ _ _ _ Hx Hy). constructor.
  - set (V := EdgesGraph.vertices_of df) in *. set (Eg := EdgesGraph.edges_of df) in *.
    apply in_app_iff in Hx, Hy.
    destruct Hx as [Hx | Hx], Hy as [Hy | Hy].
    + destruct (connection_rows_index _ _ _ _ _ C Hx) as (_ & comp & Hn & Ix).
      destruct (connection_rows_index _ _ _ _ _ C Hy) as (_ & comp' & Hn' & Iy).
      rewrite Hn in Hn'. injection Hn' as <-.
      apply nth_error_In in Hn.
      destruct (component_is_cluster V Eg comp Hn) as (v0 & Hv0 & ->).
      apply connected_linked. fold V Eg.
      apply (connected_trans V Eg x v0 y); [| apply cluster_sound, Iy].
      apply connected_sym; [apply cluster_sound, Ix | exact Hv0].
    + destruct (connection_rows_index _ _ _ _ _ C Hx) as (B & _).
      apply number_from_ge in Hy. lia.
    + destruct (connection_rows_index _ _ _ _ _ C Hy) as (B & _).
      apply number_from_ge in Hx. lia.
    + rewrite (number_from_fun _ _ _ _ _ Hx Hy). constructor.
Qed.

(** X30 at the rows (1, 2), (2, 3), (4, None), (5, None) and the values 1
    and 3 of the group 0. *)
Lemma find_edges_connections_sound_witness : linked Edges.scenario_rows 1 3.
Proof.
  apply (find_edges_connections_sound (fun l => l) Edges.scenario_rows
           [(0, 1); (0, 2); (0, 3); (1, 4); (2, 5)] 0 1 3).
  - intros r x Hr Hx. simpl in Hr.
    destruct Hr as [<- | [<- | [<- | [<- | []]]]]; simpl in Hx;
      repeat (destruct Hx as [Hx | Hx]; [try discriminate Hx; injection Hx as <-; reflexivity |]);
      destruct Hx.
  - reflexivity.
  - simpl. auto.
  - simpl. auto 6.
Defined.

(* ================================================================== *)
(** ** Keys are kept by [convert_text_to_key] *)

Lemma keep_sub_runs (q p : ascii -> bool) r t : forall in_run,
  q r = false -> (forall c, p c = true -> q c = false) ->
  Chars.keep q (Key.sub_runs p r in_run t) = Chars.keep q t.
Proof.
  induction t as [| c t IH]; intros in_run Hr Hp; [reflexivity |].
  rewrite sub_runs_cons. destruct (p c) eqn:P.
  - simpl. rewrite (Hp c P). destruct in_run; simpl; [| rewrite Hr]; apply IH; assumption.
  - simpl. rewrite (IH false Hr Hp). reflexivity.
Qed.

Lemma keep_lstrip (q : ascii -> bool) t :
  (forall c, Chars.is_space c = true -> q c = false) ->
  Chars.keep q (Key.lstrip t) = Chars.keep q t.
Proof.
  intros Hs. induction t as [| c t IH]; [reflexivity |].
  simpl. destruct (Chars.is_space c) eqn:S; [| reflexivity].
  rewrite (Hs c S). exact IH.
Qed.

Lemma keep_rstrip (q : ascii -> bool) t :
  (forall c, Chars.is_space c = true -> q c = false) ->
  Chars.keep q (Key.rstrip t) = Chars.keep q t.
Proof.
  intros Hs. induction t as [| c t IH]; [reflexivity |].
  simpl. destruct (Key.rstrip t) as [| a u].
  - rewrite <- IH. destruct (Chars.is_space c) eqn:S; simpl.
    + rewrite (Hs c S). reflexivity.
    + reflexivity.
  - cbn [Chars.keep] in *. rewrite IH. reflexivity.
Qed.

Lemma keep_strip (q : ascii -> bool) t :
  (forall c, Chars.is_space c = true -> q c = false) ->
  Chars.keep q (Key.strip t) = Chars.keep q t.
Proof.
  intros Hs. unfold Key.strip. rewrite (keep_rstrip q _ Hs). apply keep_lstrip, Hs.
Qed.

Lemma space_not_alnum c :
  Chars.is_space c = true -> Chars.is_lower c || Chars.is_digit c = false.
Proof. unfold Chars.is_space, Chars.is_lower, Chars.is_digit. lia. Qed.

Lemma not_key_not_alnum c :
  negb (Key.is_key_char c) = true -> Chars.is_lower c || Chars.is_digit c = false.
Proof.
  unfold Key.is_key_char. intros H. apply negb_true_iff in H.
  apply orb_false_iff in H as [H _]. exact H.
Qed.

(** The letters and digits of a key are those of the lower-cased text it
    was made of. *)
Lemma key_letters t :
  Utils.sub_non_alnum
    (Key.sub_runs Chars.is_space Snake.underscore false
       (Key.strip
          (Key.sub_runs (fun c => negb (Key.is_key_char c)) " " false
             (Key.strip (Chars.lower t)))))
  = Utils.sub_non_alnum (Chars.lower t).
Proof.
  unfold Utils.sub_non_alnum.
  rewrite keep_sub_runs; [| reflexivity | exact space_not_alnum].
  rewrite keep_strip by exact space_not_alnum.
  rewrite keep_sub_runs; [| reflexivity | exact not_key_not_alnum].
  apply keep_strip. exact space_not_alnum.
Qed.

Lemma out_char_ascii c : is_out_char c = true -> Chars.is_ascii_char c = true.
Proof.
  unfold is_out_char, Chars.is_ascii_char. intros H.
  apply orb_true_iff in H as [H | H].
  - unfold Chars.is_lower, Chars.is_digit in H. lia.
  - apply Ascii.eqb_eq in H. subst. reflexivity.
Qed.

Lemma out_char_not_upper c : is_out_char c = true -> negb (Chars.is_upper c) = true.
Proof.
  unfold is_out_char. intros H. apply orb_true_iff in H as [H | H].
  - unfold Chars.is_lower, Chars.is_digit, Chars.is_upper in *. lia.
  - apply Ascii.eqb_eq in H. subst. reflexivity.
Qed.

Lemma out_char_not_space c : is_out_char c = true -> Chars.is_space c = false.
Proof.
  unfold is_out_char. intros H. apply orb_true_iff in H as [H | H].
  - unfold Chars.is_lower, Chars.is_digit, Chars.is_space in *. lia.
  - apply Ascii.eqb_eq in H. subst. reflexivity.
Qed.

Lemma lstrip_id t :
  match t with String c _ => Chars.is_space c = false | EmptyString => True end ->
  Key.lstrip t = t.
Proof. destruct t as [| c t]; [reflexivity |]. simpl. intros ->. reflexivity. Qed.

Lemma rstrip_id t :
  match Gtin.last_char t with Some c => Chars.is_space c = false | None => True end ->
  Key.rstrip t = t.
Proof.
  induction t as [| a t IH]; [reflexivity |].
  destruct t as [| b t'].
  - simpl. intros ->. reflexivity.
  - intros H. change (Gtin.last_char (String a (String b t')))
      with (Gtin.last_char (String b t')) in H.
    specialize (IH H).
    change (Key.rstrip (String a (String b t')))
      with (match Key.rstrip (String b t') with
            | EmptyString => if Chars.is_space a then EmptyString else String a EmptyString
            | u => String a u
            end).
    rewrite IH. reflexivity.
Qed.

Lemma out_char_cases c :
  is_out_char c = true ->
  (c = Snake.underscore /\ Key.is_key_char c = false) \/
  (Ascii.eqb c Snake.underscore = false /\ Key.is_key_char c = true /\
   Chars.is_space c = false).
Proof.
  intros H. destruct (Ascii.eqb_spec c Snake.underscore) as [-> | N].
  - left. split; reflexivity.
  - right. split; [reflexivity |].
    pose proof (out_char_not_space c H) as S.
    unfold is_out_char in H. apply orb_true_iff in H as [H | H].
    + unfold Key.is_key_char. rewrite H. split; [reflexivity | exact S].
    + apply Ascii.eqb_eq in H. contradiction.
Qed.

Lemma first_sub_key t : forall in_run,
  Chars.all_chars is_out_char t = true ->
  has_double Snake.underscore t = false ->
  (in_run = true -> starts_with Snake.underscore t = false) ->
  Key.sub_runs (fun c => negb (Key.is_key_char c)) " " in_run t
  = Chars.map_chars underscore_to_space t.
Proof.
  induction t as [| c t IH]; intros in_run Ho Hd Hs; [reflexivity |].
  simpl in Ho. apply andb_true_iff in Ho as [Hc Ho].
  simpl in Hd. apply orb_false_iff in Hd as [Hd1 Hd].
  rewrite sub_runs_cons. cbn [Chars.map_chars]. unfold underscore_to_space at 1.
  destruct (out_char_cases c Hc) as [[-> K] | (N & K & _)].
  - rewrite K. simpl negb. cbv iota.
    destruct in_run; [specialize (Hs eq_refl); discriminate Hs |].
    simpl in Hd1. rewrite (IH true Ho Hd (fun _ => Hd1)). reflexivity.
  - rewrite K, N. simpl negb. cbv iota.
    rewrite (IH false Ho Hd); [reflexivity | discriminate].
Qed.

Lemma second_sub_key t : forall in_run,
  Chars.all_chars is_out_char t = true ->
  has_double Snake.underscore t = false ->
  (in_run = true -> starts_with Snake.underscore t = false) ->
  Key.sub_runs Chars.is_space Snake.underscore in_run
    (Chars.map_chars underscore_to_space t) = t.
Proof.
  induction t as [| c t IH]; intros in_run Ho Hd Hs; [reflexivity |].
  simpl in Ho. apply andb_true_iff in Ho as [Hc Ho].
  simpl in Hd. apply orb_false_iff in Hd as [Hd1 Hd].
  cbn [Chars.map_chars]. rewrite sub_runs_cons.
  destruct (out_char_cases c Hc) as [[-> K] | (N & K & S)].
  - change (underscore_to_space Snake.underscore) with " "%char.
    change (Chars.is_space " ") with true. cbv iota.
    destruct in_run; [specialize (Hs eq_refl); discriminate Hs |].
    simpl in Hd1. rewrite (IH true Ho Hd (fun _ => Hd1)). reflexivity.
  - assert (E : underscore_to_space c = c)
      by (unfold underscore_to_space; rewrite N; reflexivity).
    rewrite E, S. rewrite (IH false Ho Hd); [reflexivity | discriminate].
Qed.

Lemma last_char_map f t :
  Gtin.last_char (Chars.map_chars f t) = option_map f (Gtin.last_char t).
Proof.
  induction t as [| a t IH]; [reflexivity |].
  destruct t as [| b t']; [reflexivity |]. exact IH.
Qed.

Lemma strip_spaced_key t :
  Chars.all_chars is_out_char t = true ->
  starts_with Snake.underscore t = false ->
  ends_with Snake.underscore t = false ->
  Key.strip (Chars.map_chars underscore_to_space t)
  = Chars.map_chars underscore_to_space t.
Proof.
  intros Ho Hs He. unfold Key.strip.
  assert (Keep : forall c, is_out_char c = true ->
                   Ascii.eqb c Snake.underscore = false ->
                   Chars.is_space (underscore_to_space c) = false).
  { intros c Hc N. unfold underscore_to_space. rewrite N.
    apply out_char_not_space, Hc. }
  rewrite lstrip_id.
  - apply rstrip_id. rewrite last_char_map. unfold ends_with in He.
    destruct (Gtin.last_char t) as [c |] eqn:L; [| exact I].
    simpl. apply Keep; [apply (all_chars_last _ t c Ho L) | exact He].
  - destruct t as [| c t]; [exact I |]. simpl in *.
    apply andb_true_iff in Ho as [Hc _]. apply Keep; assumption.
Qed.

Lemma strip_key t :
  Chars.all_chars is_out_char t = true -> Key.strip t = t.
Proof.
  intros Ho. unfold Key.strip. rewrite lstrip_id.
  - apply rstrip_id. destruct (Gtin.last_char t) as [c |] eqn:L; [| exact I].
    apply out_char_not_space, (all_chars_last _ t c Ho L).
  - destruct t as [| c t]; [exact I |]. simpl in Ho.
    apply andb_true_iff in Ho as [Hc _]. apply out_char_not_space, Hc.
Qed.

(** X19. Keys are kept: when the removal of diacritical marks leaves
    ASCII text as it is, a key that [convert_text_to_key] makes of an ASCII
    text is converted to itself. *)
Theorem convert_text_to_key_fixed (rd : string -> string) (input_str k : string) :
  (forall t, Chars.is_ascii t = true -> rd t = t) ->
  Chars.is_ascii input_str = true ->
  Key.convert_text_to_key rd (Some input_str) = Key.Key k ->
  Key.convert_text_to_key rd (Some k) = Key.Key k.
Proof.
  intros Hrd Ha H.
  pose proof (key_alphabet _ _ _ H) as Ho.
  destruct (key_shape _ _ _ H) as (Hs & He & Hd).
  assert (Hk : Chars.is_ascii k = true)
    by (apply (all_chars_impl is_out_char); [exact out_char_ascii | exact Ho]).
  assert (Hl : Chars.lower k = k)
    by (apply lower_no_upper, (all_chars_impl is_out_char);
        [exact out_char_not_upper | exact Ho]).
  unfold Key.convert_text_to_key in *.
  destruct (Utils.is_empty rd (VStr input_str) true None) eqn:Em; [discriminate |].
  injection H as Hk'. rewrite (Hrd _ Ha) in Hk'.
  assert (Em' : Utils.is_empty rd (VStr k) true None = false).
  { assert (E : Utils.sub_non_alnum (Chars.lower k)
                = Utils.sub_non_alnum (Chars.lower input_str))
      by (rewrite Hl, <- Hk'; apply key_letters).
    rewrite <- Em. unfold Utils.is_empty, py_str. simpl negb. cbv iota zeta.
    rewrite E. reflexivity. }
  rewrite Em', (Hrd _ Hk), Hl, (strip_key k Ho).
  rewrite (first_sub_key k false Ho Hd) by discriminate.
  rewrite (strip_spaced_key k Ho Hs He).
  rewrite (second_sub_key k false Ho Hd) by discriminate.
  reflexivity.
Qed.

(** X19 at the text "  Hello,  World! ". *)
Lemma convert_text_to_key_fixed_witness :
  Key.convert_text_to_key (fun s => s) (Some "hello_world"%string) = Key.Key "hello_world".
Proof.
  apply (convert_text_to_key_fixed (fun s => s) "  Hello,  World! ").
  - reflexivity.
  - reflexivity.
  - reflexivity.
Defined.

(* ================================================================== *)
(** ** The functions on values and the functions on the heap

    On unshared data [Mem.data_standardization] and
    [MemId.convert_data_to_id] return what [data_standardization] and
    [convert_data_to_id] return for the value read from the heap. *)


Lemma distinct_NoDup l : Shape.distinct l = true <-> NoDup l.
Proof.
  induction l as [| a l IH]; simpl.
  - split; [constructor | reflexivity].
  - rewrite andb_true_iff, negb_true_iff, IH. split.
    + intros [H N]. constructor; [| exact N].
      intros Hin. apply not_true_iff_false in H. apply H.
      apply existsb_exists. exists a. split; [exact Hin | apply Nat.eqb_refl].
    + intros H. inversion H as [| ? ? Hn N]; subst. split; [| exact N].
      apply not_true_iff_false. intros E. apply existsb_exists in E.
      destruct E as (b & Hb & E). apply Nat.eqb_eq in E. subst b. auto.
Qed.

Lemma distinct_keys_NoDup l : Shape.distinct_keys l = true <-> NoDup l.
Proof.
  induction l as [| a l IH]; simpl.
  - split; [constructor | reflexivity].
  - rewrite andb_true_iff, negb_true_iff, IH. split.
    + intros [H N]. constructor; [| exact N].
      intros Hin. apply not_true_iff_false in H. apply H.
      apply existsb_exists. exists a. split; [exact Hin | apply String.eqb_refl].
    + intros H. inversion H as [| ? ? Hn N]; subst. split; [| exact N].
      apply not_true_iff_false. intros E. apply existsb_exists in E.
      destruct E as (b & Hb & E). apply String.eqb_eq in E. subst b. auto.
Qed.

(** What [proper] says of a reference. *)
Lemma proper_ref n h a :
  Shape.proper (S n) h (Mem.Ref a) = true ->
  exists o, Mem.load h a = Some o /\
    forallb (Shape.proper n h) (Frame.children o) = true /\
    match o with
    | Mem.ODict kvs => NoDup (map fst kvs)
    | _ => True
    end.
Proof.
  simpl. destruct (Mem.load h a) as [o |]; [| discriminate].
  intros H. apply andb_true_iff in H. destruct H as [H K].
  exists o. split; [reflexivity | split; [exact H |]].
  destruct o; auto. apply distinct_keys_NoDup, K.
Qed.

Lemma cells_ref n h a o :
  Mem.load h a = Some o ->
  Shape.cells (S n) h (Mem.Ref a) = a :: flat_map (Shape.cells n h) (Frame.children o).
Proof. intros E. simpl. rewrite E. reflexivity. Qed.

(** The cells of proper data are addresses of the heap. *)
Lemma cells_bound n : forall h x b,
  Shape.proper n h x = true -> In b (Shape.cells n h x) -> (b < List.length h)%nat.
Proof.
  induction n as [| n IH]; intros h [v | a] b P Hb; try discriminate P;
    try (simpl in Hb; contradiction).
  destruct (proper_ref _ _ _ P) as (o & E & Pc & _).
  rewrite (cells_ref _ _ _ _ E) in Hb. destruct Hb as [<- | Hb].
  - eapply load_bound; eassumption.
  - apply in_flat_map in Hb. destruct Hb as (c & Hc & Hb).
    eapply IH; [| exact Hb]. eapply forallb_forall in Pc; eassumption.
Qed.

Lemma cells_bound_all n h xs b :
  forallb (Shape.proper n h) xs = true ->
  In b (flat_map (Shape.cells n h) xs) -> (b < List.length h)%nat.
Proof.
  intros P Hb. apply in_flat_map in Hb. destruct Hb as (c & Hc & Hb).
  eapply cells_bound; [| exact Hb]. eapply forallb_forall in P; eassumption.
Qed.

(** Proper data is read the same with more fuel. *)
Lemma read_more n : forall h x m,
  Shape.proper n h x = true -> (n <= m)%nat -> Mem.read m h x = Mem.read n h x.
Proof.
  induction n as [| n IH]; intros h [v | a] m P Hm; try discriminate P;
    try (destruct m; reflexivity).
  destruct m as [| m]; [lia |].
  destruct (proper_ref _ _ _ P) as (o & E & Pc & _).
  simpl. rewrite E. destruct o as [xs | xs | kvs]; simpl in Pc; f_equal.
  - apply map_ext_in. intros c Hc. apply IH; [| lia].
    eapply forallb_forall in Pc; eassumption.
  - apply map_ext_in. intros c Hc. apply IH; [| lia].
    eapply forallb_forall in Pc; eassumption.
  - apply map_ext_in. intros [k c] Hc. simpl. f_equal. apply IH; [| lia].
    eapply forallb_forall in Pc; [eassumption |].
    apply in_map_iff. exists (k, c). auto.
Qed.

(** Data depends on its cells only: in a heap that holds the same objects
    there, it is as proper, has the same cells and is read the same. *)
Lemma local n : forall h h' x,
  Shape.proper n h x = true ->
  (forall b, In b (Shape.cells n h x) -> Mem.load h' b = Mem.load h b) ->
  Shape.proper n h' x = true /\
  Shape.cells n h' x = Shape.cells n h x /\
  Mem.read n h' x = Mem.read n h x.
Proof.
  induction n as [| n IH]; intros h h' [v | a] P A; try discriminate P;
    try (simpl; auto; fail).
  destruct (proper_ref _ _ _ P) as (o & E & Pc & _).
  assert (E' : Mem.load h' a = Some o).
  { rewrite A; [exact E |]. rewrite (cells_ref _ _ _ _ E). left. reflexivity. }
  assert (C : forall c, In c (Frame.children o) ->
            Shape.proper n h' c = true /\
            Shape.cells n h' c = Shape.cells n h c /\
            Mem.read n h' c = Mem.read n h c).
  { intros c Hc. apply IH.
    - eapply forallb_forall in Pc; eassumption.
    - intros b Hb. apply A. rewrite (cells_ref _ _ _ _ E). right.
      apply in_flat_map. exists c. auto. }
  split; [| split].
  - simpl in P |- *. rewrite E in P. rewrite E'.
    apply andb_true_iff in P. destruct P as [_ K].
    rewrite K, andb_true_r. apply forallb_forall. intros c Hc. apply C, Hc.
  - rewrite (cells_ref _ _ _ _ E), (cells_ref _ _ _ _ E'). f_equal.
    clear - C. induction (Frame.children o) as [| c l IHl]; [reflexivity |].
    simpl. rewrite (proj1 (proj2 (C c (or_introl eq_refl)))). f_equal.
    apply IHl. intros c' Hc'. apply C. right. exact Hc'.
  - simpl. rewrite E, E'. destruct o as [xs | xs | kvs]; simpl in C; f_equal.
    + apply map_ext_in. intros c Hc. apply C, Hc.
    + apply map_ext_in. intros c Hc. apply C, Hc.
    + apply map_ext_in. intros [k c] Hc. simpl. f_equal. apply C.
      apply in_map_iff. exists (k, c). auto.
Qed.

(** *** Runs and what they rest on *)

Lemma effect_none h (P : Mem.heap -> Prop) :
  (forall h2, P h2) -> Track.effect [] [] h h P.
Proof. intros H. split; [lia | split; auto]. Qed.

(** One run after another. *)
Lemma effect_seq F1 S1 F2 S2 h0 h1 h2 (P1 P2 : Mem.heap -> Prop) :
  Track.effect F1 S1 h0 h1 P1 ->
  Track.effect F2 S2 h1 h2 P2 ->
  (forall b, In b S1 -> (b < List.length h0)%nat /\ ~ In b F2) ->
  (forall b, In b F2 -> (b < List.length h0)%nat) ->
  Track.effect (F1 ++ F2) (S1 ++ S2) h0 h2 (fun h => P1 h /\ P2 h).
Proof.
  intros (L1 & K1 & R1) (L2 & K2 & R2) HS HF. split; [lia | split].
  - intros b Hb N. rewrite K2, K1; auto; try lia;
      intros Hin; apply N, in_or_app; auto.
  - intros h3 A. split.
    + apply R1. intros b [Hb | Hb].
      * rewrite A by (left; apply in_or_app; auto).
        destruct (HS b Hb) as [Hl Hn]. apply K2; [lia | exact Hn].
      * rewrite A by (right; lia).
        apply K2; [lia |]. intros Hin. apply HF in Hin. lia.
    + apply R2. intros b [Hb | Hb]; apply A.
      * left. apply in_or_app. auto.
      * right. lia.
Qed.

Lemma effect_weaken F S F' S' h0 h1 (P Q : Mem.heap -> Prop) :
  Track.effect F S h0 h1 P ->
  incl F F' -> incl S S' -> (forall h, P h -> Q h) ->
  Track.effect F' S' h0 h1 Q.
Proof.
  intros (L & K & R) HF HS HP. split; [exact L | split].
  - intros b Hb N. apply K; [exact Hb |]. intros Hin. apply N, HF, Hin.
  - intros h2 A. apply HP, R. intros b [Hb | Hb]; apply A; [left; apply HS, Hb | right; exact Hb].
Qed.

(** *** The loop of [sort_list] *)

Lemma flat_map_ext_in {A B} (f g : A -> list B) l :
  (forall x, In x l -> f x = g x) -> flat_map f l = flat_map g l.
Proof.
  induction l as [| x l IH]; intros H; simpl; [reflexivity |].
  rewrite (H x (or_introl eq_refl)), IH; [reflexivity |].
  intros y Hy. apply H. right. exact Hy.
Qed.

Lemma forallb_perm {A} (f : A -> bool) l l' :
  Permutation l l' -> forallb f l = true -> forallb f l' = true.
Proof.
  intros Hp H. apply forallb_forall. intros x Hx.
  eapply forallb_forall in H; [exact H |].
  eapply Permutation_in; [apply Permutation_sym, Hp | exact Hx].
Qed.

Lemma NoDup_app_parts {A} (l1 l2 : list A) :
  NoDup (l1 ++ l2) ->
  NoDup l1 /\ NoDup l2 /\ forall b, In b l1 -> ~ In b l2.
Proof.
  induction l1 as [| a l1 IH]; simpl; intros H.
  - split; [constructor | split; [exact H | intros b []]].
  - inversion H as [| ? ? Ha H']; subst. destruct (IH H') as (N1 & N2 & D).
    split; [constructor; [intros Hin; apply Ha, in_or_app; auto | exact N1] |].
    split; [exact N2 |]. intros b [<- | Hb]; [intros Hin; apply Ha, in_or_app; auto | auto].
Qed.

(** Several pieces of data at once. *)
Lemma local_all n h h' xs :
  forallb (Shape.proper n h) xs = true ->
  (forall b, In b (flat_map (Shape.cells n h) xs) -> Mem.load h' b = Mem.load h b) ->
  forallb (Shape.proper n h') xs = true /\
  flat_map (Shape.cells n h') xs = flat_map (Shape.cells n h) xs /\
  map (Mem.read n h') xs = map (Mem.read n h) xs.
Proof.
  intros P A.
  assert (C : forall c, In c xs ->
            Shape.proper n h' c = true /\
            Shape.cells n h' c = Shape.cells n h c /\
            Mem.read n h' c = Mem.read n h c).
  { intros c Hc. apply local.
    - eapply forallb_forall in P; eassumption.
    - intros b Hb. apply A. apply in_flat_map. exists c. auto. }
  split; [| split].
  - apply forallb_forall. intros c Hc. apply C, Hc.
  - apply flat_map_ext_in. intros c Hc. apply C, Hc.
  - apply map_ext_in. intros c Hc. apply C, Hc.
Qed.

Lemma atom_std_item v : Shape.atom v = true -> std_item v = v.
Proof. destruct v; simpl; intros H; try discriminate H; reflexivity. Qed.


Lemma item_ok_0 : Refine.item_ok 0.
Proof.
  intros h [v | a] P N; [| discriminate P].
  simpl. apply effect_none. intros h2. symmetry. apply atom_std_item, P.
Qed.

Lemma item_ok_S n : Refine.list_ok n -> Refine.dict_ok n -> Refine.item_ok (S n).
Proof.
  intros Hl Hd h [v | a] P N.
  { simpl. apply effect_none. intros h2. symmetry. apply atom_std_item, P. }
  destruct (proper_ref _ _ _ P) as (o & E & Pc & K).
  rewrite (cells_ref _ _ _ _ E) in *.
  inversion N as [| ? ? Na Nc]; subst.
  unfold Track.item. cbn [Mem.kind_of]. rewrite E.
  destruct o as [xs | xs | kvs]; cbn [Frame.children] in *.
  - eapply effect_weaken; [apply (Hl h a xs); auto | | |].
    + apply incl_tl, incl_refl.
    + apply incl_tl, incl_refl.
    + intros h2 R. cbn beta in R. rewrite R. simpl. rewrite E. reflexivity.
  - eapply effect_weaken; [apply (Hl h a xs); auto | | |].
    + apply incl_tl, incl_refl.
    + apply incl_tl, incl_refl.
    + intros h2 R. cbn beta in R. rewrite R. simpl. rewrite E. reflexivity.
  - eapply effect_weaken; [apply (Hd h a kvs); auto | apply incl_refl | apply incl_refl |].
    intros h2 R. cbn [fst snd]. cbn beta in R. rewrite R. simpl. rewrite E. reflexivity.
Qed.


Lemma list_step_item n h0 acc di :
  Refine.list_step n (h0, acc) di =
  (fst (Track.item n h0 di), (acc ++ [snd (Track.item n h0 di)])%list).
Proof.
  unfold Refine.list_step, Track.item.
  destruct (Mem.kind_of h0 di); [destruct (Mem.sort_list n h0 a) |..]; reflexivity.
Qed.

Lemma list_fold n :
  Refine.item_ok n ->
  forall q h acc,
    forallb (Shape.proper n h) q = true ->
    NoDup (flat_map (Shape.cells n h) q) ->
    exists res,
      snd (fold_left (Refine.list_step n) q (h, acc)) = (acc ++ res)%list /\
      Track.effect (flat_map (Shape.cells n h) q) (flat_map (Shape.cells n h) q)
        h (fst (fold_left (Refine.list_step n) q (h, acc)))
        (fun h2 => map (Mem.read n h2) res
                   = map (fun x => std_item (Mem.read n h x)) q).
Proof.
  intros Hitem. induction q as [| x q IH]; intros h acc P N.
  { exists []. simpl. rewrite app_nil_r. split; [reflexivity |].
    apply effect_none. reflexivity. }
  cbn [forallb] in P. apply andb_true_iff in P. destruct P as [Px Pq].
  cbn [flat_map] in N. destruct (NoDup_app_parts _ _ N) as (Nx & Nq & D).
  cbn [fold_left]. rewrite list_step_item.
  pose proof (Hitem h x Px Nx) as Ex.
  destruct (Track.item n h x) as [hx t]. cbn [fst snd] in *.
  destruct (local_all n h hx q Pq) as (Pq' & Cq & Rq).
  { intros b Hb. apply (proj1 (proj2 Ex)).
    - eapply cells_bound_all; eassumption.
    - intros Hin. exact (D b Hin Hb). }
  destruct (IH hx (acc ++ [t])%list Pq') as (res & Eres & Eq).
  { rewrite Cq. exact Nq. }
  exists (t :: res). split.
  { rewrite Eres, <- app_assoc. reflexivity. }
  rewrite Cq in Eq. cbn [flat_map].
  eapply effect_weaken; [eapply effect_seq; [exact Ex | exact Eq | |] | apply incl_refl | apply incl_refl |].
  - intros b Hb. split; [eapply cells_bound; eassumption | apply D, Hb].
  - intros b Hb. eapply cells_bound_all; eassumption.
  - intros h2 [R1 R2]. cbn [map]. rewrite R1, R2. f_equal.
    apply map_ext_in. intros c Hc. f_equal.
    destruct (local n h hx c) as (_ & _ & R); [eapply forallb_forall in Pq; eassumption | | exact R].
    intros b Hb. apply (proj1 (proj2 Ex)).
    + eapply cells_bound; [| exact Hb]. eapply forallb_forall in Pq; eassumption.
    + intros Hin. apply (D b Hin). apply in_flat_map. exists c. auto.
Qed.

Lemma sort_list_S n h a xs :
  Mem.load h a = Some (Mem.OList xs) \/ Mem.load h a = Some (Mem.OTuple xs) ->
  Mem.sort_list (S n) h a =
  let st := fold_left (Refine.list_step n)
              (sorted (fun x y => compare_items (Mem.read (S n) h x) (Mem.read (S n) h y)) xs)
              (h, []) in
  ((fst st ++ [Mem.OTuple (snd st)])%list, Mem.Ref (List.length (fst st))).
Proof.
  intros [E | E]; cbn [Mem.sort_list]; rewrite E;
    fold (Refine.list_step n);
    destruct (fold_left _ _ _) as [h1 d1]; reflexivity.
Qed.

Lemma list_ok_of_item n : Refine.item_ok n -> Refine.list_ok n.
Proof.
  intros Hitem h a xs E P N.
  rewrite (sort_list_S n h a xs E). cbv zeta. cbn [fst snd].
  set (d := sorted (fun x y => compare_items (Mem.read (S n) h x) (Mem.read (S n) h y)) xs).
  assert (Hp : Permutation xs d) by apply sorted_perm.
  assert (Hc : Permutation (flat_map (Shape.cells n h) xs) (flat_map (Shape.cells n h) d)).
  { apply Permutation_flat_map, Hp. }
  destruct (list_fold n Hitem d h [] (forallb_perm _ _ _ Hp P)) as (res & Eres & (L & K & R)).
  { eapply Permutation_NoDup; eassumption. }
  destruct (fold_left (Refine.list_step n) d (h, [])) as [h1 d1]. cbn [fst snd] in *.
  subst d1. rewrite app_nil_l.
  split; [rewrite List.length_app; simpl; lia | split].
  - intros b Hb Nb. rewrite load_alloc_old by lia. apply K; [exact Hb |].
    intros Hin. apply Nb. eapply Permutation_in; [apply Permutation_sym, Hc | exact Hin].
  - intros h2 A. rewrite List.length_app in A. cbn [List.length] in A.
    assert (T : Mem.load h2 (List.length h1) = Some (Mem.OTuple res)).
    { rewrite A by (right; lia). apply load_alloc_new. }
    cbn [Mem.read]. rewrite T. rewrite sort_list_eq. f_equal.
    rewrite R.
    + rewrite <- (map_map (Mem.read n h) std_item). f_equal.
      assert (M : forall l, incl l xs -> map (Mem.read (S n) h) l = map (Mem.read n h) l).
      { intros l Hl. apply map_ext_in. intros c Hin. apply read_more; [| lia].
        eapply forallb_forall in P; [exact P | apply Hl, Hin]. }
      rewrite <- (M d), <- (M xs).
      * unfold d. apply sorted_map.
      * apply incl_refl.
      * intros c Hin. eapply Permutation_in; [apply Permutation_sym, Hp | exact Hin].
    + intros b Hb. rewrite A.
      * apply load_alloc_old. destruct Hb as [Hb | Hb]; [| lia].
        apply (Permutation_in _ (Permutation_sym Hc)) in Hb.
        pose proof (cells_bound_all _ _ _ _ P Hb). lia.
      * destruct Hb as [Hb | Hb]; [left | right; lia].
        eapply Permutation_in; [apply Permutation_sym, Hc | exact Hb].
Qed.

(** *** The loop of [sort_dict] *)

Lemma getitem_app p k v q :
  ~ In k (map fst p) -> Mem.getitem (p ++ (k, v) :: q) k = Some v.
Proof.
  induction p as [| [k' v'] p IH]; simpl; intros N.
  - rewrite String.eqb_refl. reflexivity.
  - destruct (String.eqb k' k) eqn:E.
    + apply String.eqb_eq in E. exfalso. apply N. left. exact E.
    + apply IH. intros Hin. apply N. right. exact Hin.
Qed.

Lemma setitem_app p k v q t :
  ~ In k (map fst p) -> Mem.setitem (p ++ (k, v) :: q) k t = (p ++ (k, t) :: q)%list.
Proof.
  induction p as [| [k' v'] p IH]; simpl; intros N.
  - rewrite String.eqb_refl. reflexivity.
  - destruct (String.eqb k' k) eqn:E.
    + apply String.eqb_eq in E. exfalso. apply N. left. exact E.
    + rewrite IH; [reflexivity |]. intros Hin. apply N. right. exact Hin.
Qed.

(** One key: the element is handled as in [sort_list], and the dict at [a]
    holds the result under the key. *)
Lemma dict_step_item n a h p k v q :
  Refine.item_ok n ->
  Mem.load h a = Some (Mem.ODict (p ++ (k, v) :: q)) ->
  ~ In k (map fst p) ->
  Shape.proper n h v = true ->
  NoDup (a :: Shape.cells n h v) ->
  let hx := Refine.dict_step n a h k in
  let t := snd (Track.item n h v) in
  Mem.load hx a = Some (Mem.ODict (p ++ (k, t) :: q)) /\
  Track.effect (a :: Shape.cells n h v) (Shape.cells n h v) h hx
    (fun h2 => Mem.read n h2 t = std_item (Mem.read n h v)).
Proof.
  intros Hitem E Nk P N hx t.
  inversion N as [| ? ? Na Nv]; subst.
  pose proof (Hitem h v P Nv) as (L & K & R).
  pose proof (load_bound _ _ _ E) as Ha.
  assert (E' : Mem.load (fst (Track.item n h v)) a = Some (Mem.ODict (p ++ (k, v) :: q))).
  { rewrite K; auto. }
  assert (X : Mem.load hx a = Some (Mem.ODict (p ++ (k, t) :: q)) /\
              List.length hx = List.length (fst (Track.item n h v)) /\
              forall b, b <> a -> Mem.load hx b = Mem.load (fst (Track.item n h v)) b).
  { subst hx t. unfold Refine.dict_step. rewrite E, getitem_app by exact Nk.
    revert E'. unfold Track.item.
    destruct (Mem.kind_of h v) as [b | b |] eqn:Kd.
    - destruct (Mem.sort_list n h b) as [h' t']. cbn [fst snd]. intros E'.
      rewrite E', setitem_app by exact Nk.
      split; [eapply load_store_same; exact E' |].
      split; [apply length_store |].
      intros c Hc. apply load_store_other. congruence.
    - cbn [fst snd]. auto.
    - cbn [fst snd]. auto. }
  destruct X as (X1 & X2 & X3). split; [exact X1 |].
  split; [lia | split].
  - intros b Hb Nb. rewrite X3 by (intros ->; apply Nb; left; reflexivity).
    apply K; [exact Hb |]. intros Hin. apply Nb. right. exact Hin.
  - intros h2 A. apply R. intros b Hb.
    rewrite A by (rewrite X2; exact Hb).
    apply X3. destruct Hb as [Hb | Hb]; [intros -> | lia]. exact (Na Hb).
Qed.

Lemma dict_fold n a :
  Refine.item_ok n ->
  forall q p h,
    Mem.load h a = Some (Mem.ODict (p ++ q)) ->
    NoDup (map fst (p ++ q)) ->
    forallb (Shape.proper n h) (map snd q) = true ->
    NoDup (a :: flat_map (Shape.cells n h) (map snd q)) ->
    exists res,
      Mem.load (fold_left (Refine.dict_step n a) (map fst q) h) a
        = Some (Mem.ODict (p ++ res)) /\
      Track.effect (a :: flat_map (Shape.cells n h) (map snd q))
        (flat_map (Shape.cells n h) (map snd q))
        h (fold_left (Refine.dict_step n a) (map fst q) h)
        (fun h2 => map (fun kv => (fst kv, Mem.read n h2 (snd kv))) res
                   = map (fun kv => (fst kv, std_item (Mem.read n h (snd kv)))) q).
Proof.
  intros Hitem. induction q as [| [k v] q IH]; intros p h E Nk P N.
  { exists []. split; [exact E |]. simpl.
    split; [lia | split; auto]. }
  cbn [map fst snd forallb flat_map fold_left] in *.
  apply andb_true_iff in P. destruct P as [Pv Pq].
  inversion N as [| ? ? Na Nc]; subst.
  destruct (NoDup_app_parts _ _ Nc) as (Nv & Nq & D).
  assert (Nkp : ~ In k (map fst p)).
  { rewrite map_app in Nk. apply NoDup_app_parts in Nk.
    destruct Nk as (_ & _ & Dk). intros Hin. apply (Dk k Hin). left. reflexivity. }
  destruct (dict_step_item n a h p k v q Hitem E Nkp Pv) as (Ex & Fx).
  { constructor; [| exact Nv]. intros Hin. apply Na, in_or_app. auto. }
  set (hx := Refine.dict_step n a h k) in *.
  set (t := snd (Track.item n h v)) in *.
  destruct (local_all n h hx (map snd q) Pq) as (Pq' & Cq & Rq).
  { intros b Hb. apply (proj1 (proj2 Fx)).
    - eapply cells_bound_all; eassumption.
    - intros [<- | Hin]; [apply Na, in_or_app; auto | exact (D b Hin Hb)]. }
  destruct (IH (p ++ [(k, t)])%list hx) as (res & Eres & Eq).
  { rewrite <- app_assoc. exact Ex. }
  { rewrite <- app_assoc, map_app in *. exact Nk. }
  { exact Pq'. }
  { rewrite Cq. constructor; [| exact Nq]. intros Hin. apply Na, in_or_app. auto. }
  exists ((k, t) :: res). split.
  { rewrite Eres, <- app_assoc. reflexivity. }
  rewrite Cq in Eq.
  eapply effect_weaken; [eapply effect_seq; [exact Fx | exact Eq | |] | | apply incl_refl |].
  - intros b Hb. split; [eapply cells_bound; eassumption |].
    intros [<- | Hin]; [apply Na, in_or_app; auto | exact (D b Hb Hin)].
  - intros b [<- | Hb]; [eapply load_bound; exact E | eapply cells_bound_all; eassumption].
  - intros b Hb. apply in_app_or in Hb. destruct Hb as [[<- | Hb] | [<- | Hb]];
      try (left; reflexivity); right; apply in_or_app; auto.
  - intros h2 [R1 R2]. cbn [map fst snd]. rewrite R1, R2. f_equal.
    apply map_ext_in. intros [k' c] Hc. cbn [fst snd]. do 2 f_equal.
    assert (Hin : In c (map snd q)) by (apply in_map_iff; exists (k', c); auto).
    destruct (local n h hx c) as (_ & _ & R); [eapply forallb_forall in Pq; eassumption | | exact R].
    intros b Hb. apply (proj1 (proj2 Fx)).
    + eapply cells_bound; [| exact Hb]. eapply forallb_forall in Pq; eassumption.
    + assert (Hf : In b (flat_map (Shape.cells n h) (map snd q))).
      { apply in_flat_map. exists c. auto. }
      intros [<- | Hv]; [apply Na, in_or_app; auto | exact (D b Hv Hf)].
Qed.

Lemma dict_ok_of_item n : Refine.item_ok n -> Refine.dict_ok n.
Proof.
  intros Hitem h a kvs E Nk P N.
  assert (S : Mem.sort_dict (S n) h a = fold_left (Refine.dict_step n a) (map fst kvs) h).
  { cbn [Mem.sort_dict]. rewrite E. reflexivity. }
  rewrite S.
  destruct (dict_fold n a Hitem kvs [] h E Nk P N) as (res & Eres & (L & K & R)).
  cbn [app] in Eres.
  split; [exact L | split; [exact K |]].
  intros h2 A. cbn [Mem.read]. rewrite A by (left; left; reflexivity).
  rewrite Eres. f_equal. rewrite sort_dict_eq, map_map. cbn [fst snd].
  apply R. intros b Hb. apply A. destruct Hb as [Hb | Hb]; [left; right; exact Hb | right; exact Hb].
Qed.

(** On unshared data the loops do to every element what the functions on
    values do. *)
Lemma item_ok_all n : Refine.item_ok n.
Proof.
  induction n as [| n IH]; [exact item_ok_0 |].
  apply item_ok_S; [apply list_ok_of_item | apply dict_ok_of_item]; exact IH.
Qed.

(** [data_standardization] on unshared data in the heap returns what the
    function on values returns for the value read there. *)
Lemma data_standardization_refines fuel h x :
  Shape.unshared fuel h x = true ->
  snd (Mem.data_standardization fuel h x)
  = Mem.Leaf (data_standardization (Mem.read fuel h x)).
Proof.
  unfold Shape.unshared. intros U. apply andb_true_iff in U. destruct U as [P N].
  apply distinct_NoDup in N.
  destruct x as [v | a].
  { destruct fuel; simpl in *; f_equal; destruct v; try reflexivity; discriminate P. }
  destruct fuel as [| n]; [discriminate P |].
  destruct (proper_ref _ _ _ P) as (o & E & Pc & K).
  rewrite (cells_ref _ _ _ _ E) in N. inversion N as [| ? ? Na Nc]; subst.
  unfold Mem.data_standardization. cbn [Mem.kind_of]. rewrite E.
  destruct o as [xs | xs | kvs]; cbn [Frame.children] in *.
  - destruct (list_ok_of_item n (item_ok_all n) h a xs (or_introl E) Pc Nc) as (_ & _ & R).
    destruct (Mem.sort_list (S n) h a) as [h' t]. cbn [fst snd] in *.
    rewrite R by reflexivity. simpl. rewrite E. reflexivity.
  - destruct (list_ok_of_item n (item_ok_all n) h a xs (or_intror E) Pc Nc) as (_ & _ & R).
    destruct (Mem.sort_list (S n) h a) as [h' t]. cbn [fst snd] in *.
    rewrite R by reflexivity. simpl. rewrite E. reflexivity.
  - destruct (dict_ok_of_item n (item_ok_all n) h a kvs E K Pc N) as (_ & _ & R).
    cbn [snd]. rewrite R by reflexivity. simpl. rewrite E. reflexivity.
Qed.

(** *** The deep copy *)

Lemma combine_parts {A B} (ks : list A) (ys : list B) :
  List.length ks = List.length ys ->
  map fst (combine ks ys) = ks /\ map snd (combine ks ys) = ys.
Proof.
  revert ys. induction ks as [| k ks IH]; intros [| y ys] H; try discriminate H;
    simpl; [auto |].
  injection H as H. destruct (IH ys H) as [-> ->]. auto.
Qed.

Lemma combine_read {A} (f g : Mem.rv -> A) (kvs : list (string * Mem.rv)) ys :
  map f ys = map g (map snd kvs) ->
  map (fun kv => (fst kv, f (snd kv))) (combine (map fst kvs) ys)
  = map (fun kv => (fst kv, g (snd kv))) kvs.
Proof.
  revert ys. induction kvs as [| [k v] kvs IH]; intros [| y ys] H; try discriminate H;
    simpl; [reflexivity |].
  simpl in H. injection H as H1 H2. rewrite H1, (IH ys H2). reflexivity.
Qed.

Lemma copy_fold n :
  Copy.faithful n ->
  forall q h memo acc,
    forallb (Shape.proper n h) q = true ->
    NoDup (flat_map (Shape.cells n h) q) ->
    (forall b, In b (flat_map (Shape.cells n h) q) -> MemId.lookup_memo memo b = None) ->
    exists ys,
      snd (fold_left (MemId.copy_all (MemId.deepcopy n)) q (h, memo, acc)) = (acc ++ ys)%list /\
      Copy.copied n h memo q
        (fst (fold_left (MemId.copy_all (MemId.deepcopy n)) q (h, memo, acc)), ys).
Proof.
  intros Hc. induction q as [| x q IH]; intros h memo acc P N M.
  { exists []. simpl. rewrite app_nil_r. repeat split; auto; try constructor; contradiction. }
  cbn [forallb] in P. apply andb_true_iff in P. destruct P as [Px Pq].
  cbn [flat_map] in N, M. destruct (NoDup_app_parts _ _ N) as (Nx & Nq & D).
  cbn [fold_left].
  change (MemId.copy_all (MemId.deepcopy n) (h, memo, acc) x)
    with (let '(h', m', y) := MemId.deepcopy n h memo x in (h', m', (acc ++ [y])%list)).
  pose proof (Hc h memo x Px Nx) as Cx.
  destruct (MemId.deepcopy n h memo x) as [[hx mx] y].
  destruct Cx as (L1 & K1 & M1 & P1 & B1 & N1 & R1).
  { intros b Hb. apply M, in_or_app. auto. }
  cbn [flat_map forallb map] in M1, P1, B1, N1, R1. rewrite app_nil_r in *.
  rewrite andb_true_r in P1. injection R1 as R1.
  destruct (local_all n h hx q Pq) as (Pq' & Cq & Rq).
  { intros b Hb. apply K1. eapply cells_bound_all; eassumption. }
  destruct (IH hx mx (acc ++ [y])%list Pq') as (ys & Eys & Cr).
  { rewrite Cq. exact Nq. }
  { intros b Hb. rewrite Cq in Hb. rewrite M1; [apply M, in_or_app; auto |].
    intros Hin. exact (D b Hin Hb). }
  exists (y :: ys). split; [rewrite Eys, <- app_assoc; reflexivity |].
  destruct (fold_left _ q _) as [[h2 m2] out]. cbn [fst snd] in *.
  destruct Cr as (L2 & K2 & M2 & P2 & B2 & N2 & R2).
  destruct (local n hx h2 y P1) as (Py & Cy & Ry).
  { intros b Hb. apply K2. apply B1 in Hb. lia. }
  unfold Copy.copied. cbv beta iota.
  split; [lia | split; [| split; [| split; [| split; [| split]]]]].
  - intros b Hb. rewrite K2, K1; auto. lia.
  - intros b Hb. rewrite M2, M1; auto; rewrite ?Cq; intros Hin; apply Hb, in_or_app; auto.
  - cbn [forallb]. rewrite Py, P2. reflexivity.
  - cbn [flat_map]. intros b Hb. apply in_app_or in Hb. destruct Hb as [Hb | Hb].
    + rewrite Cy in Hb. apply B1 in Hb. lia.
    + apply B2 in Hb. lia.
  - cbn [flat_map]. apply NoDup_app; [rewrite Cy; exact N1 | exact N2 |].
    intros b Hb Hb'. rewrite Cy in Hb. apply B1 in Hb. apply B2 in Hb'. lia.
  - cbn [map]. rewrite Ry, R1, R2, Rq. reflexivity.
Qed.

Lemma load_store_at h a o :
  (a < List.length h)%nat -> Mem.load (Mem.store h a o) a = Some o.
Proof.
  intros Ha. destruct (Mem.load h a) as [o' |] eqn:E.
  - eapply load_store_same; exact E.
  - exfalso. unfold Mem.load in E. apply nth_error_None in E. lia.
Qed.

Lemma lookup_memo_cons a b memo c :
  c <> a -> MemId.lookup_memo ((a, b) :: memo) c = MemId.lookup_memo memo c.
Proof.
  intros N. simpl. destruct (Nat.eqb a c) eqn:E; [| reflexivity].
  apply Nat.eqb_eq in E. congruence.
Qed.

Lemma copied_leaf n h memo v :
  Shape.proper n h (Mem.Leaf v) = true ->
  Copy.copied n h memo [Mem.Leaf v] (h, memo, [Mem.Leaf v]).
Proof.
  intros P. repeat split; auto.
  - cbn [forallb]. rewrite P. reflexivity.
  - destruct n; simpl in H; contradiction.
  - destruct n; simpl in H; contradiction.
  - destruct n; simpl; constructor.
Qed.

Lemma deepcopy_faithful n : Copy.faithful n.
Proof.
  induction n as [| n IH]; intros h memo [v | a] P N M; try discriminate P;
    try (destruct n; apply copied_leaf; exact P); try (apply copied_leaf; exact P).
  destruct (proper_ref _ _ _ P) as (o & E & Pc & K).
  rewrite (cells_ref _ _ _ _ E) in N, M.
  inversion N as [| ? ? Na Nc]; subst.
  assert (Ma : MemId.lookup_memo memo a = None) by (apply M; left; reflexivity).
  pose proof (load_bound _ _ _ E) as Ha.
  cbn [MemId.deepcopy]. rewrite Ma, E.
  destruct o as [xs | xs | kvs]; cbn [Frame.children] in *.
  - (* list *)
    unfold Mem.alloc.
    set (h1 := (h ++ [Mem.OList []])%list).
    assert (A1 : forall b, (b < List.length h)%nat -> Mem.load h1 b = Mem.load h b).
    { intros b Hb. apply load_alloc_old, Hb. }
    destruct (local_all n h h1 xs Pc) as (Pc1 & Cc1 & Rc1).
    { intros b Hb. apply A1. eapply cells_bound_all; eassumption. }
    destruct (copy_fold n IH xs h1 ((a, List.length h) :: memo) [] Pc1) as (ys & Eys & C).
    { rewrite Cc1. exact Nc. }
    { intros b Hb. rewrite Cc1 in Hb. rewrite lookup_memo_cons; [apply M; right; exact Hb |].
      intros ->. exact (Na Hb). }
    destruct (fold_left _ xs _) as [[h2 m2] out]. cbn [fst snd] in *. subst out.
    destruct C as (L2 & K2 & M2 & P2 & B2 & N2 & R2).
    assert (L1 : List.length h1 = S (List.length h)).
    { unfold h1. rewrite List.length_app. simpl. lia. }
    set (b0 := List.length h) in *.
    remember (Mem.store h2 b0 (Mem.OList ys)) as h3 eqn:Eh3.
    assert (E3 : Mem.load h3 b0 = Some (Mem.OList ys)).
    { rewrite Eh3. apply load_store_at. lia. }
    assert (L3 : List.length h3 = List.length h2) by (rewrite Eh3; apply length_store).
    destruct (local_all n h2 h3 ys P2) as (P3 & C3 & R3).
    { intros b Hb. rewrite Eh3. apply load_store_other. apply B2 in Hb. lia. }
    cbn [app]. unfold Copy.copied. cbv beta iota. rewrite <- Eh3.
    cbn [flat_map forallb map]. rewrite !app_nil_r, andb_true_r.
    rewrite (cells_ref _ _ _ _ E), (cells_ref _ _ _ _ E3). cbn [Frame.children].
    split; [lia | split; [| split; [| split; [| split; [| split]]]]].
    + intros b Hb. rewrite Eh3, load_store_other by lia. rewrite K2 by lia. apply A1, Hb.
    + intros b Hb. rewrite M2 by (rewrite Cc1; intros Hin; apply Hb; right; exact Hin).
      apply lookup_memo_cons. intros ->. apply Hb. left. reflexivity.
    + cbn [Shape.proper]. rewrite E3. cbn [Frame.children]. rewrite P3. reflexivity.
    + rewrite L3. intros b [<- | Hb]; [lia |].
      rewrite C3 in Hb. apply B2 in Hb. lia.
    + constructor; [| rewrite C3; exact N2].
      rewrite C3. intros Hin. apply B2 in Hin. lia.
    + cbn [Mem.read]. rewrite E3, E. rewrite R3, R2, Rc1. reflexivity.
  - (* tuple *)
    destruct (copy_fold n IH xs h memo [] Pc Nc) as (ys & Eys & C).
    { intros b Hb. apply M. right. exact Hb. }
    destruct (fold_left _ xs _) as [[h2 m2] out]. cbn [fst snd] in *. subst out.
    destruct C as (L2 & K2 & M2 & P2 & B2 & N2 & R2).
    unfold Mem.alloc.
    remember (h2 ++ [Mem.OTuple ys])%list as h3 eqn:Eh3.
    assert (E3 : Mem.load h3 (List.length h2) = Some (Mem.OTuple ys)).
    { rewrite Eh3. apply load_alloc_new. }
    assert (L3 : List.length h3 = S (List.length h2)).
    { rewrite Eh3, List.length_app. simpl. lia. }
    destruct (local_all n h2 h3 ys P2) as (P3 & C3 & R3).
    { intros b Hb. rewrite Eh3. apply load_alloc_old. apply B2 in Hb. lia. }
    cbn [app]. unfold Copy.copied. cbv beta iota. rewrite <- Eh3.
    cbn [flat_map forallb map]. rewrite !app_nil_r, andb_true_r.
    rewrite (cells_ref _ _ _ _ E), (cells_ref _ _ _ _ E3). cbn [Frame.children].
    split; [lia | split; [| split; [| split; [| split; [| split]]]]].
    + intros b Hb. rewrite Eh3, load_alloc_old by lia. apply K2, Hb.
    + intros b Hb. rewrite lookup_memo_cons by (intros ->; apply Hb; left; reflexivity).
      apply M2. intros Hin. apply Hb. right. exact Hin.
    + cbn [Shape.proper]. rewrite E3. cbn [Frame.children]. rewrite P3. reflexivity.
    + intros b [<- | Hb]; [lia |]. rewrite C3 in Hb. apply B2 in Hb. lia.
    + constructor; [| rewrite C3; exact N2].
      rewrite C3. intros Hin. apply B2 in Hin. lia.
    + cbn [Mem.read]. rewrite E3, E. rewrite R3, R2. reflexivity.
  - (* dict *)
    unfold Mem.alloc.
    set (h1 := (h ++ [Mem.ODict []])%list).
    assert (A1 : forall b, (b < List.length h)%nat -> Mem.load h1 b = Mem.load h b).
    { intros b Hb. apply load_alloc_old, Hb. }
    destruct (local_all n h h1 (map snd kvs) Pc) as (Pc1 & Cc1 & Rc1).
    { intros b Hb. apply A1. eapply cells_bound_all; eassumption. }
    destruct (copy_fold n IH (map snd kvs) h1 ((a, List.length h) :: memo) [] Pc1)
      as (ys & Eys & C).
    { rewrite Cc1. exact Nc. }
    { intros b Hb. rewrite Cc1 in Hb. rewrite lookup_memo_cons; [apply M; right; exact Hb |].
      intros ->. exact (Na Hb). }
    destruct (fold_left _ (map snd kvs) _) as [[h2 m2] out]. cbn [fst snd] in *. subst out.
    destruct C as (L2 & K2 & M2 & P2 & B2 & N2 & R2).
    assert (L1 : List.length h1 = S (List.length h)).
    { unfold h1. rewrite List.length_app. simpl. lia. }
    assert (Ly : List.length (map fst kvs) = List.length ys).
    { apply (f_equal (@List.length _)) in R2. rewrite !length_map in R2.
      rewrite length_map. symmetry. exact R2. }
    destruct (combine_parts _ _ Ly) as [Kf Ks].
    set (b0 := List.length h) in *.
    remember (Mem.store h2 b0 (Mem.ODict (combine (map fst kvs) ys))) as h3 eqn:Eh3.
    assert (E3 : Mem.load h3 b0 = Some (Mem.ODict (combine (map fst kvs) ys))).
    { rewrite Eh3. apply load_store_at. lia. }
    assert (L3 : List.length h3 = List.length h2) by (rewrite Eh3; apply length_store).
    destruct (local_all n h2 h3 ys P2) as (P3 & C3 & R3).
    { intros b Hb. rewrite Eh3. apply load_store_other. apply B2 in Hb. lia. }
    cbn [app]. unfold Copy.copied. cbv beta iota. rewrite <- Eh3.
    cbn [flat_map forallb map]. rewrite !app_nil_r, andb_true_r.
    rewrite (cells_ref _ _ _ _ E), (cells_ref _ _ _ _ E3). cbn [Frame.children].
    rewrite Ks.
    split; [lia | split; [| split; [| split; [| split; [| split]]]]].
    + intros b Hb. rewrite Eh3, load_store_other by lia. rewrite K2 by lia. apply A1, Hb.
    + intros b Hb. rewrite M2 by (rewrite Cc1; intros Hin; apply Hb; right; exact Hin).
      apply lookup_memo_cons. intros ->. apply Hb. left. reflexivity.
    + cbn [Shape.proper]. rewrite E3. cbn [Frame.children]. rewrite Ks, Kf, P3.
      apply distinct_keys_NoDup, K.
    + rewrite L3. intros b [<- | Hb]; [lia |].
      rewrite C3 in Hb. apply B2 in Hb. lia.
    + constructor; [| rewrite C3; exact N2].
      rewrite C3. intros Hin. apply B2 in Hin. lia.
    + cbn [Mem.read]. rewrite E3, E. do 2 f_equal. apply combine_read.
      rewrite R3, R2, Rc1. reflexivity.
Qed.

(** The identifier of unshared data in the heap is the identifier of the
    value read there. *)
Lemma convert_data_to_id_refines fuel h x method :
  Shape.unshared fuel h x = true ->
  snd (MemId.convert_data_to_id fuel h x method)
  = convert_data_to_id (Mem.read fuel h x) method.
Proof.
  intros U. pose proof U as U'.
  unfold Shape.unshared in U'. apply andb_true_iff in U'. destruct U' as [P N].
  apply distinct_NoDup in N.
  unfold MemId.convert_data_to_id.
  pose proof (deepcopy_faithful fuel h [] x P N (fun _ _ => eq_refl)) as C.
  destruct (MemId.deepcopy fuel h [] x) as [[h1 m1] c].
  destruct C as (_ & _ & _ & P1 & _ & N1 & R1).
  cbn [flat_map forallb map] in P1, N1, R1. rewrite app_nil_r in N1.
  rewrite andb_true_r in P1. injection R1 as R1.
  assert (U1 : Shape.unshared fuel h1 c = true).
  { unfold Shape.unshared. rewrite P1. apply distinct_NoDup, N1. }
  pose proof (data_standardization_refines fuel h1 c U1) as D.
  destruct (Mem.data_standardization fuel h1 c) as [h2 s]. cbn [snd] in *.
  subst s. rewrite R1. reflexivity.
Qed.

(* ================================================================== *)
(** ** Reordering data in the heap *)

(** The keys of a dict read from proper data are distinct. *)
Lemma read_dict_keys fuel h a d :
  Shape.proper fuel h (Mem.Ref a) = true ->
  Mem.read fuel h (Mem.Ref a) = VDict d -> NoDup (map fst d).
Proof.
  intros P R. destruct fuel as [| n]; [discriminate P |].
  destruct (proper_ref _ _ _ P) as (o & E & _ & K).
  simpl in R. rewrite E in R. destruct o as [xs | xs | kvs]; try discriminate R.
  injection R as <-. rewrite map_map. exact K.
Qed.

(** On unshared data a list or a tuple can be reordered at the top level
    without changing the canonical string or the identifier. *)
Lemma unshared_order_independent fuel h x s h' x' s' method :
  Shape.unshared fuel h x = true ->
  Shape.unshared fuel h' x' = true ->
  Mem.read fuel h x = VList s \/ Mem.read fuel h x = VTuple s ->
  Mem.read fuel h' x' = VList s' \/ Mem.read fuel h' x' = VTuple s' ->
  forallb supported s = true ->
  Permutation s s' ->
  snd (Mem.data_standardization fuel h x) = snd (Mem.data_standardization fuel h' x') /\
  snd (MemId.convert_data_to_id fuel h x method)
  = snd (MemId.convert_data_to_id fuel h' x' method).
Proof.
  intros U U' R R' S Hp.
  rewrite !data_standardization_refines, !convert_data_to_id_refines by assumption.
  destruct (data_standardization_order_independent s s' S Hp) as (E1 & E2 & E3).
  assert (E4 : data_standardization (VTuple s) = data_standardization (VList s')).
  { unfold data_standardization in *. congruence. }
  unfold convert_data_to_id.
  destruct R as [-> | ->], R' as [-> | ->]; rewrite ?E1, ?E2, ?E3, ?E4; auto.
Qed.

(** C2 fails on data that shares a dict.  With d = {'a': [2, 1]},
    P = [{'a': [2, 1]}, {'a': 5}, [d]] and Q = [d, {'a': 5}, [{'a': [2, 1]}]],
    the lists [P, Q] and [Q, P] hold the same two elements in the two
    orders, and P and Q show the same, yet the two lists get different
    canonical strings and different identifiers under both methods.
    [sort_list] orders a list by the string forms its elements have at
    that moment and normalises them afterwards; P and Q tie and stay in
    the order they came in, and whichever is handled first updates d in
    place, so that d shows as {'a': (1, 2)} when the other is sorted.
    When Q holds a dict of its own in the place of d, the two orders give
    one string. *)
Theorem shared_dict_reordering_changes_id :
  let d := VDict [("a"%string, VList [VInt 2; VInt 1])] in
  let n := VDict [("a"%string, VList [VInt 1; VInt 2])] in
  let five := VDict [("a"%string, VInt 5)] in
  Mem.load Shared.heap 12 = Some (Mem.OList [Mem.Ref 10; Mem.Ref 11]) /\
  Mem.load Shared.heap 13 = Some (Mem.OList [Mem.Ref 11; Mem.Ref 10]) /\
  Mem.read 5 Shared.heap (Mem.Ref 10) = VList [d; five; VList [d]] /\
  Mem.read 5 Shared.heap (Mem.Ref 11) = VList [d; five; VList [d]] /\
  Shape.unshared 5 Shared.heap Shared.P_Q = false /\
  snd (Mem.data_standardization 5 Shared.heap Shared.P_Q) =
    Mem.Leaf (VStr (Json.dumps
      (VList [VList [VList [n]; five; n]; VList [VList [n]; n; five]]))) /\
  snd (Mem.data_standardization 5 Shared.heap Shared.Q_P) =
    Mem.Leaf (VStr (Json.dumps
      (VList [VList [VList [n]; five; n]; VList [VList [n]; five; n]]))) /\
  snd (MemId.convert_data_to_id 5 Shared.heap Shared.P_Q "uuid") =
    Some "6301c67f-71be-344b-a708-6297c49ba905"%string /\
  snd (MemId.convert_data_to_id 5 Shared.heap Shared.Q_P "uuid") =
    Some "c7ef6bf0-e2c3-3229-82ca-e5f6bccfaf4d"%string /\
  snd (MemId.convert_data_to_id 5 Shared.heap Shared.P_Q "sha256") =
    Some "3b41cfe10e55921a2818a143aba3f058979d2e421cefac137677857e3a1eada6"%string /\
  snd (MemId.convert_data_to_id 5 Shared.heap Shared.Q_P "sha256") =
    Some "60b5ec0a05d4eb2899562b9bfa40a5d4aef8f94e8add89146f12f549c296a871"%string /\
  Mem.read 5 Shared.apart (Mem.Ref 17) = Mem.read 5 Shared.heap Shared.P_Q /\
  Mem.read 5 Shared.apart (Mem.Ref 18) = Mem.read 5 Shared.heap Shared.Q_P /\
  snd (Mem.data_standardization 5 Shared.apart (Mem.Ref 17)) =
    snd (Mem.data_standardization 5 Shared.apart (Mem.Ref 18)).
Proof. vm_compute. repeat split; reflexivity. Qed.

(** X22. For data without shared containers, the order in which the keys
    of a dict were inserted does not matter: two dicts with the same items,
    in whatever order, have the same standard form and the same identifier. *)
Theorem dict_insertion_order_independent fuel h a d h' a' d' method :
  Shape.unshared fuel h (Mem.Ref a) = true ->
  Shape.unshared fuel h' (Mem.Ref a') = true ->
  Mem.read fuel h (Mem.Ref a) = VDict d ->
  Mem.read fuel h' (Mem.Ref a') = VDict d' ->
  Permutation d d' ->
  snd (Mem.data_standardization fuel h (Mem.Ref a))
  = snd (Mem.data_standardization fuel h' (Mem.Ref a')) /\
  snd (MemId.convert_data_to_id fuel h (Mem.Ref a) method)
  = snd (MemId.convert_data_to_id fuel h' (Mem.Ref a') method).
Proof.
  intros U U' R R' Hp.
  rewrite !data_standardization_refines, !convert_data_to_id_refines by assumption.
  rewrite R, R'.
  assert (Hn : NoDup (map fst d)).
  { apply (read_dict_keys fuel h a); [| exact R].
    unfold Shape.unshared in U. apply andb_true_iff in U. apply U. }
  destruct (dict_order_on_values d d' method Hn Hp) as [E1 E2].
  rewrite E1, E2. auto.
Qed.

(** X22 at the dicts {'a': 1, 'b': [2, 1]} and {'b': [2, 1], 'a': 1}. *)
Lemma dict_insertion_order_independent_witness :
  snd (Mem.data_standardization 3 Dicts.heap (Mem.Ref 1))
  = snd (Mem.data_standardization 3 Dicts.heap (Mem.Ref 3)) /\
  snd (MemId.convert_data_to_id 3 Dicts.heap (Mem.Ref 1) "sha256")
  = snd (MemId.convert_data_to_id 3 Dicts.heap (Mem.Ref 3) "sha256").
Proof.
  apply (dict_insertion_order_independent 3 Dicts.heap 1
           [("a"%string, VInt 1); ("b"%string, VList [VInt 2; VInt 1])]
           Dicts.heap 3
           [("b"%string, VList [VInt 2; VInt 1]); ("a"%string, VInt 1)] "sha256").
  - reflexivity.
  - reflexivity.
  - reflexivity.
  - reflexivity.
  - apply perm_swap.
Defined.
